(** * zetavm command-line option parser ([vm/opt_parser.h])

    A shallow embedding of the option descriptors ([Opt], [BoolOpt],
    [IntOpt], [UintOpt], [StrOpt]) and of [OptParser], followed by the
    properties of the parsing state machine.

    Conventions of the embedding:
    - a C++ exception is a value of [exn]; a [void] function that may throw
      returns an [outcome unit], and the object it mutates is threaded
      through explicitly, so that mutations made before a throw stay visible;
    - the caller's descriptor objects live in a store ([list Opt]); the
      parser's [argOptions] holds references (indices) into that store, as
      the [std::reference_wrapper<Opt>] of the source do;
    - [int64_t] and [uint64_t] values are [Z] within their bounds;
    - a user handler is, in the first part, a function from the value it is
      given to the way it ends; in the second part ([Live]) it is a
      computation on the whole memory: the descriptors, the parser and what
      its closure captures. The two parts are related at the end. *)

From Stdlib Require Import ZArith Ascii String List Lia.
From Stdlib Require Import Decimal DecimalString DecimalZ DecimalPos.
From stdpp Require Import base list strings.

Local Open Scope string_scope.
Local Open Scope Z_scope.

(** ** Exceptions *)

(** The exception classes the header distinguishes in its [catch] clauses.
    [other_exception] stands for anything else a user callback may throw. *)
Inductive exn : Type :=
| ParseException (msg : string)
| std_out_of_range (msg : string)
| std_invalid_argument (msg : string)
| other_exception (msg : string).

Inductive outcome (A : Type) : Type :=
| Normal (a : A)
| Throw (e : exn).
Arguments Normal {A} a.
Arguments Throw {A} e.

(** ** The C and C++ library functions the header calls *)
Module Std.

Definition isdigit (c : ascii) : bool :=
  let n := N_of_ascii c in ((48 <=? n) && (n <=? 57))%N.

(** [isspace] in the "C" locale: space, \t, \n, \v, \f, \r. *)
Definition isspace (c : ascii) : bool :=
  let n := N_of_ascii c in ((n =? 32) || ((9 <=? n) && (n <=? 13)))%N.

Definition digit_value (c : ascii) : Z := Z.of_N (N_of_ascii c) - 48.

(** [std::all_of(s.begin(), s.end(), p)] *)
Fixpoint all_of (p : ascii -> bool) (s : string) : bool :=
  match s with
  | EmptyString => true
  | String c s' => p c && all_of p s'
  end.

(** [s.find(c)]: index of the first occurrence, [None] for [npos]. *)
Fixpoint find (c : ascii) (s : string) : option nat :=
  match s with
  | EmptyString => None
  | String a s' =>
      if Ascii.eqb a c then Some O
      else match find c s' with
           | Some i => Some (S i)
           | None => None
           end
  end.

(** [s.substr(pos, count)] for [pos <= s.length()]; [count] is clipped. *)
Definition substr (pos count : nat) (s : string) : string :=
  String.substring pos count s.

(** [s[i]] for [i < s.length()]. *)
Definition at_ (s : string) (i : nat) : ascii :=
  match String.get i s with
  | Some c => c
  | None => Ascii.zero
  end.

(** The characters a [const char*] view of [s] shows: those before the
    first NUL. *)
Fixpoint c_str (s : string) : string :=
  match s with
  | EmptyString => EmptyString
  | String c s' => if Ascii.eqb c Ascii.zero then EmptyString else String c (c_str s')
  end.

Definition LLONG_MIN : Z := - 2 ^ 63.
Definition LLONG_MAX : Z := 2 ^ 63 - 1.
Definition ULLONG_MAX : Z := 2 ^ 64 - 1.

Fixpoint skip_space (s : string) : string :=
  match s with
  | String c s' => if isspace c then skip_space s' else s
  | EmptyString => s
  end.

(** Optional sign: [true] for a leading '-'. *)
Definition take_sign (s : string) : bool * string :=
  match s with
  | String "-"%char s' => (true, s')
  | String "+"%char s' => (false, s')
  | _ => (false, s)
  end.

(** Value of the longest prefix of decimal digits, in base 10. *)
Fixpoint accumulate (s : string) (acc : Z) : Z :=
  match s with
  | String c s' =>
      if isdigit c then accumulate s' (10 * acc + digit_value c) else acc
  | EmptyString => acc
  end.

(** [None] when no digit can be consumed (no conversion). *)
Definition magnitude (s : string) : option Z :=
  match s with
  | String c _ => if isdigit c then Some (accumulate s 0) else None
  | EmptyString => None
  end.

(** [std::stoll(s)] (base 10): [strtoll] skips white space, reads an
    optional sign and the longest run of digits, ignores what follows;
    [std::invalid_argument] when nothing was converted,
    [std::out_of_range] when [strtoll] reports [ERANGE]. *)
Definition stoll (s : string) : outcome Z :=
  let (neg, body) := take_sign (skip_space s) in
  match magnitude body with
  | None => Throw (std_invalid_argument "stoll")
  | Some m =>
      let v := if neg then - m else m in
      if (LLONG_MIN <=? v) && (v <=? LLONG_MAX) then Normal v
      else Throw (std_out_of_range "stoll")
  end.

(** [std::stoull(s)] (base 10): as [stoll], but the magnitude is checked
    against [ULLONG_MAX] and a leading '-' negates modulo 2^64. *)
Definition stoull (s : string) : outcome Z :=
  let (neg, body) := take_sign (skip_space s) in
  match magnitude body with
  | None => Throw (std_invalid_argument "stoull")
  | Some m =>
      if m <=? ULLONG_MAX
      then Normal (if neg then (- m) mod 2 ^ 64 else m)
      else Throw (std_out_of_range "stoull")
  end.

End Std.

(** ** [ParseException::what] and [isUint] *)

Definition what (msg : string) : string := Std.c_str msg.

Definition isUint (s : string) : bool := Std.all_of Std.isdigit s.

(** ** Option descriptors *)

(** A nullable pointer to a [std::function<void(A)>]: [None] is [nullptr].
    In this first part a callback is modelled by whether it returns or
    throws, as a function of the value it is given: it writes nothing and
    keeps no state. Handlers that write the descriptors or keep state are
    those of [Live] below, where the properties that depend on what a handler
    may write are stated. *)
Definition callback (A : Type) : Type := option (A -> outcome unit).

Definition invoke {A : Type} (userHandler : callback A) (v : A) : outcome unit :=
  match userHandler with
  | None => Normal tt
  | Some f => f v
  end.

(** The members a class adds to [Opt]. [OptFields] is a plain [Opt], whose
    [defaultHandler] has an empty body. *)
Inductive Fields : Type :=
| OptFields
| BoolFields (pValue : bool) (userHandler : callback bool)
| IntFields (pValue : Z) (userHandler : callback Z)
| UintFields (pValue : Z) (userHandler : callback Z)
| StrFields (pValue : string) (userHandler : callback string).

Record Opt : Type := mkOpt {
  shortName : ascii;
  longName : string;
  description : string;
  present : bool;
  fields : Fields
}.

(** Constructors. The overloads without a short name pass '-'. *)
Definition BoolOpt (shortName : ascii) (longName : string) (defaultValue : bool)
    (description : string) (userHandler : callback bool) : Opt :=
  mkOpt shortName longName description false (BoolFields defaultValue userHandler).

Definition IntOpt (shortName : ascii) (longName : string) (defaultValue : Z)
    (description : string) (userHandler : callback Z) : Opt :=
  mkOpt shortName longName description false (IntFields defaultValue userHandler).

Definition UintOpt (shortName : ascii) (longName : string) (defaultValue : Z)
    (description : string) (userHandler : callback Z) : Opt :=
  mkOpt shortName longName description false (UintFields defaultValue userHandler).

Definition StrOpt (shortName : ascii) (longName : string) (defaultValue : string)
    (description : string) (userHandler : callback string) : Opt :=
  mkOpt shortName longName description false (StrFields defaultValue userHandler).

Definition no_short : ascii := "-"%char.

Definition setPresent (this : Opt) : Opt :=
  mkOpt (shortName this) (longName this) (description this) true (fields this).

Definition getShortName (this : Opt) : ascii := shortName this.
Definition getLongName (this : Opt) : string := longName this.
Definition isPresent (this : Opt) : bool := present this.

Definition set_fields (this : Opt) (f : Fields) : Opt :=
  mkOpt (shortName this) (longName this) (description this) (present this) f.

(** The typed [get()] of each class; [None] on a descriptor of another class. *)
Definition get_bool (this : Opt) : option bool :=
  match fields this with BoolFields v _ => Some v | _ => None end.
Definition get_int (this : Opt) : option Z :=
  match fields this with IntFields v _ => Some v | _ => None end.
Definition get_uint (this : Opt) : option Z :=
  match fields this with UintFields v _ => Some v | _ => None end.
Definition get_str (this : Opt) : option string :=
  match fields this with StrFields v _ => Some v | _ => None end.

(** The [catch] clauses of [IntOpt::defaultHandler]. *)
Definition IntOpt_catch (r : outcome unit) : outcome unit :=
  match r with
  | Throw (std_out_of_range _) =>
      Throw (ParseException "Value is not in range of a 64 bit int")
  | Throw (std_invalid_argument _) =>
      Throw (ParseException "Argument expects an integer value")
  | _ => r
  end.

(** The [catch] clauses of [UintOpt::defaultHandler]. *)
Definition UintOpt_catch (r : outcome unit) : outcome unit :=
  match r with
  | Throw (std_out_of_range _) =>
      Throw (ParseException "Value is not in range of a 64 bit unsigned integer")
  | Throw (std_invalid_argument _) =>
      Throw (ParseException "Argument expects an non negative int value")
  | _ => r
  end.

(** The virtual [defaultHandler(isPresent, value)], dispatched on the class
    of [this]. It returns the descriptor as the call leaves it, together
    with how the call ends. *)
Definition defaultHandler (this : Opt) (isPresent : bool) (value : string)
    : Opt * outcome unit :=
  match fields this with
  | OptFields => (this, Normal tt)
  | BoolFields _ userHandler =>
      if isPresent
      then (this, Throw (ParseException "Argument does not expect a value"))
      else (set_fields this (BoolFields true userHandler), invoke userHandler true)
  | IntFields _ userHandler =>
      if negb isPresent
      then (this, Throw (ParseException "Argument expects an integer value"))
      else
        match Std.stoll value with
        | Throw e => (this, IntOpt_catch (Throw e))
        | Normal v =>
            (set_fields this (IntFields v userHandler),
             IntOpt_catch (invoke userHandler v))
        end
  | UintFields _ userHandler =>
      if negb isPresent || negb (isUint value)
      then (this, Throw (ParseException "Argument expects an non negative int value"))
      else
        match Std.stoull value with
        | Throw e => (this, UintOpt_catch (Throw e))
        | Normal v =>
            (set_fields this (UintFields v userHandler),
             UintOpt_catch (invoke userHandler v))
        end
  | StrFields _ userHandler =>
      if negb isPresent
      then (this, Throw (ParseException "Argument expects a value"))
      else (set_fields this (StrFields value userHandler), invoke userHandler value)
  end.

(** ** The parser *)

(** [programArgv] points into the caller's [argv]; it is modelled by the
    tokens it points at ([None] is [nullptr]). *)
Record OptParser : Type := mkOptParser {
  argOptions : list nat;
  programName : string;
  programArgc : Z;
  programArgv : option (list string)
}.

(** The memory a parse run works on: the caller's descriptors and the
    parser object. *)
Record World : Type := mkWorld {
  objects : list Opt;
  self : OptParser
}.

Definition new_OptParser : OptParser := mkOptParser [] "" 0 None.

Definition new_OptParser_from (argOptions : list nat) : OptParser :=
  mkOptParser argOptions "" 0 None.

(** [add(opt)]: appends the reference. *)
Definition add (this : OptParser) (opt : nat) : OptParser :=
  mkOptParser (argOptions this ++ [opt]) (programName this)
              (programArgc this) (programArgv this).

(** A computation on the world that may throw; the world it leaves is
    returned in both cases. *)
Definition M (A : Type) : Type := World -> World * outcome A.

Definition ret {A : Type} (a : A) : M A := fun w => (w, Normal a).

Definition throw {A : Type} (e : exn) : M A := fun w => (w, Throw e).

Definition bind {A B : Type} (m : M A) (k : A -> M B) : M B :=
  fun w =>
    match m w with
    | (w', Normal a) => k a w'
    | (w', Throw e) => (w', Throw e)
    end.

Declare Scope parse_scope.
Delimit Scope parse_scope with parse.
Notation "x <- m ;; k" := (bind m (fun x => k))
  (at level 100, m at next level, right associativity) : parse_scope.
Notation "m ;; k" := (bind m (fun _ => k))
  (at level 100, right associativity) : parse_scope.
Local Open Scope parse_scope.

(** [try { body } catch (ParseException exp) { handler }]: other exceptions
    pass through. *)
Definition try_catch_ParseException {A : Type} (body : M A) (handler : string -> M A)
    : M A :=
  fun w =>
    match body w with
    | (w', Throw (ParseException msg)) => handler msg w'
    | r => r
    end.

(** Runs a member function of the descriptor a reference designates. *)
Definition call {A : Type} (it : nat) (method : Opt -> Opt * outcome A)
    (absent : A) : M A :=
  fun w =>
    match objects w !! it with
    | Some o =>
        let (o', r) := method o in
        (mkWorld (<[it := o']> (objects w)) (self w), r)
    | None => (w, Normal absent)
    end.

(** [std::find_if] over [argOptions]: the first reference whose descriptor
    satisfies [p]; [None] is [argOptions.end()]. *)
Fixpoint find_if (p : Opt -> bool) (objs : list Opt) (refs : list nat) : option nat :=
  match refs with
  | [] => None
  | r :: refs' =>
      match objs !! r with
      | Some o => if p o then Some r else find_if p objs refs'
      | None => find_if p objs refs'
      end
  end.

Definition findArgByShortName (c : ascii) (w : World) : option nat :=
  find_if (fun arg => Ascii.eqb (getShortName arg) c) (objects w) (argOptions (self w)).

Definition findArgByLongName (name : string) (w : World) : option nat :=
  find_if (fun arg => String.eqb (getLongName arg) name) (objects w) (argOptions (self w)).

(** [parse(std::string key, bool isValPresent, std::string value)] *)
Definition parse_long (key : string) (isValPresent : bool) (value : string) : M unit :=
  fun w =>
    match findArgByLongName key w with
    | None => throw (ParseException ("No such option " ++ key)) w
    | Some it =>
        try_catch_ParseException
          (call it (fun o => (setPresent o, Normal tt)) tt ;;
           call it (fun o => defaultHandler o isValPresent value) tt)
          (fun msg =>
             throw (ParseException ("Parsing of " ++ key ++ " failed: " ++ what msg)))
          w
    end.

(** [parse(char key, bool isValPresent, std::string value)] *)
Definition parse_short (key : ascii) (isValPresent : bool) (value : string) : M unit :=
  fun w =>
    match findArgByShortName key w with
    | None => throw (ParseException ("No such option " ++ String key "")) w
    | Some it =>
        try_catch_ParseException
          (call it (fun o => (setPresent o, Normal tt)) tt ;;
           call it (fun o => defaultHandler o isValPresent value) tt)
          (fun msg =>
             throw (ParseException
                      ("Parsing of " ++ String key "" ++ " failed: " ++ what msg)))
          w
    end.

(** [for (auto c : str) body(c)] *)
Fixpoint for_each (str : string) (body : ascii -> M unit) : M unit :=
  match str with
  | EmptyString => ret tt
  | String c str' => body c ;; for_each str' body
  end.

(** [for (size_t i = from; i < from + count; ++i) body(i)] *)
Fixpoint for_range (count : nat) (from : nat) (body : nat -> M unit) : M unit :=
  match count with
  | O => ret tt
  | S count' => body from ;; for_range count' (S from) body
  end.

Definition parseShortName (token : string) : M unit :=
  let str := token in
  match Std.find "="%char str with
  | None =>
      for_each str (fun argName => parse_short argName false "")
  | Some idx =>
      let args := Std.substr 0 idx str in
      let value := Std.substr (idx + 1) (String.length str) str in
      for_range (String.length args) 0 (fun i =>
        if negb (Nat.eqb i (String.length args - 1))
        then parse_short (Std.at_ args i) false ""
        else parse_short (Std.at_ args i) true value)
  end.

Definition parseLongName (token : string) : M unit :=
  let str := token in
  match Std.find "="%char str with
  | None => parse_long str false ""
  | Some idx =>
      let argName := Std.substr 0 idx str in
      let value := Std.substr (idx + 1) (String.length str) str in
      parse_long argName true value
  end.

Definition set_programName (name : string) : M unit :=
  fun w =>
    (mkWorld (objects w)
       (mkOptParser (argOptions (self w)) name
                    (programArgc (self w)) (programArgv (self w))),
     Normal tt).

Definition set_programArgs (argc : Z) (argv : list string) : M unit :=
  fun w =>
    (mkWorld (objects w)
       (mkOptParser (argOptions (self w)) (programName (self w)) argc (Some argv)),
     Normal tt).

Definition parseProgramName (name : string) : M unit :=
  fun w =>
    let str := name in
    if negb (String.eqb (programName (self w)) "")
    then throw (ParseException ("Bad option - " ++ str)) w
    else set_programName str w.

(** [&s[n]] on a C string holding at least [n] characters. *)
Fixpoint advance (n : nat) (s : string) : string :=
  match n, s with
  | S n', String _ s' => advance n' s'
  | _, _ => s
  end.

(** The [while (index < argc)] loop of [parse(argc, argv)]; [tokens] is
    [argv[index .. argc)], so that [argc - index] is its length and
    [&argv[index]] is the list itself. *)
Fixpoint scan (tokens : list string) : M unit :=
  match tokens with
  | [] => ret tt
  | current :: rest =>
      let len := String.length current in
      if (len <? 2)%nat
      then (parseProgramName current ;; scan rest)
      else if String.eqb current "--"
      then
        fun w =>
          if String.eqb (programName (self w)) ""
          then throw (ParseException
                        "Program filename must be specified before arguments") w
          else set_programArgs (Z.of_nat (length rest)) rest w
      else if Ascii.eqb (Std.at_ current 0) "-"%char
      then
        (if Ascii.eqb (Std.at_ current 1) "-"%char
         then parseLongName (advance 2 current)
         else parseShortName (advance 1 current)) ;;
        scan rest
      else (parseProgramName current ;; scan rest)
  end.

(** [parse(argc, argv)], for [argv] holding at least [argc] tokens: index 0
    is skipped. *)
Definition parse (argc : Z) (argv : list string) : M unit :=
  scan (drop 1 (take (Z.to_nat argc) argv)).

Definition getProgramName (w : World) : string := programName (self w).
Definition getProgramArgc (w : World) : Z := programArgc (self w).
Definition getProgramArgv (w : World) : option (list string) := programArgv (self w).

(** ** Auxiliary definitions used to state the properties *)

(** The decimal text of an integer: an optional '-' and the digits, without
    leading zeros. *)
Definition decimal (z : Z) : string := NilZero.string_of_int (Z.to_int z).

(** What the [catch (ParseException exp)] clause of the two resolution
    functions makes of the way the coercion ended. *)
Definition wrap_failure (name : string) (r : outcome unit) : outcome unit :=
  match r with
  | Throw (ParseException msg) =>
      Throw (ParseException ("Parsing of " ++ name ++ " failed: " ++ what msg))
  | _ => r
  end.

(** *** Short clusters in the words of the specification *)

(** A short name with the value attached to it, if any. *)
Definition resolution : Type := (ascii * option string)%type.

Definition resolve (r : resolution) : M unit :=
  match r with
  | (c, None) => parse_short c false ""
  | (c, Some value) => parse_short c true value
  end.

(** Resolves the names left to right; the first failure ends the sequence. *)
Fixpoint resolve_each (l : list resolution) : M unit :=
  match l with
  | [] => ret tt
  | r :: l' => resolve r ;; resolve_each l'
  end.

(** Every character is an independent value-less flag. *)
Definition flags (names : list ascii) : list resolution :=
  map (fun c => (c, None)) names.

(** Every character except the last is a value-less flag; the last one
    receives the value. *)
Definition flags_then_value (names : list ascii) (value : string) : list resolution :=
  match names with
  | [] => []
  | _ => flags (removelast names) ++ [(List.last names Ascii.zero, Some value)]
  end.

(** What a name of a cluster is resolved with, given the text that follows
    it in the token: the value when a '=' comes next, no value otherwise. *)
Definition attached (after : string) : bool * string :=
  match after with
  | String a value => if Ascii.eqb a "=" then (true, value) else (false, "")
  | EmptyString => (false, "")
  end.

(** *** What a parse run may do to a descriptor *)

(** The class and the callback stay; a Boolean value is only ever set. *)
Definition fields_evolve (f f' : Fields) : Prop :=
  match f, f' with
  | OptFields, OptFields => True
  | BoolFields b h, BoolFields b' h' => h' = h /\ (b' = b \/ b' = true)
  | IntFields _ h, IntFields _ h' => h' = h
  | UintFields _ h, UintFields _ h' => h' = h
  | StrFields _ h, StrFields _ h' => h' = h
  | _, _ => False
  end.

Record evolves (o o' : Opt) : Prop := mkEvolves {
  ev_shortName : shortName o' = shortName o;
  ev_longName : longName o' = longName o;
  ev_description : description o' = description o;
  ev_present : present o = true -> present o' = true;
  ev_fields : fields_evolve (fields o) (fields o')
}.

Definition world_evolves (w w' : World) : Prop :=
  Forall2 evolves (objects w) (objects w')
  /\ argOptions (self w') = argOptions (self w).

(** Resolving options never touches the parser object. *)
Definition options_only (w w' : World) : Prop :=
  world_evolves w w' /\ self w' = self w.

(** *** Callbacks that fail *)

(** [callback_raises o isValPresent value e]: the coercion of [value] by
    descriptor [o] reaches its user callback, which throws [e]. *)
Inductive callback_raises : Opt -> bool -> string -> exn -> Prop :=
| raises_bool o b f value e :
    fields o = BoolFields b (Some f) -> f true = Throw e ->
    callback_raises o false value e
| raises_int o v f value z e :
    fields o = IntFields v (Some f) -> Std.stoll value = Normal z ->
    f z = Throw e ->
    callback_raises o true value e
| raises_uint o v f value z e :
    fields o = UintFields v (Some f) -> isUint value = true ->
    Std.stoull value = Normal z -> f z = Throw e ->
    callback_raises o true value e
| raises_str o v f value e :
    fields o = StrFields v (Some f) -> f value = Throw e ->
    callback_raises o true value e.

(** ** The configurations of the self-test functions *)
Module Tests.

(** The checker of [testOptParser0]. *)
Definition customChecker : callback Z :=
  Some (fun x =>
          if 1000 <? x then Throw (ParseException "Value is more that 1000")
          else Normal tt).

Definition is_ : Opt := BoolOpt "i" "is" false "the value of some field is" None.
Definition js : Opt := IntOpt "j" "js" 1100 "the value of some field js" None.
Definition js_checked : Opt :=
  IntOpt "j" "js" 1100 "the value of some field js" customChecker.
Definition ks : Opt := UintOpt no_short "ks" 2200 "the value of some field ks" None.
Definition ls : Opt := StrOpt "l" "ls" "Blah" "the value of some field ls" None.
Definition ls_long : Opt :=
  StrOpt no_short "ls" "Blah" "the value of some field ls" None.

(** [parser.add(is).add(js).add(ks).add(ls)] over four descriptors. *)
Definition parser4 : OptParser :=
  add (add (add (add new_OptParser 0%nat) 1%nat) 2%nat) 3%nat.

(** [testOptParser3] *)
Definition world3 : World := mkWorld [is_; js; ks; ls_long] parser4.
(** [testOptParser4] and [testOptParser5] *)
Definition world5 : World := mkWorld [is_; js; ks; ls] parser4.
(** As [world5], with the checked [js] of [testOptParser0]. *)
Definition world_checked : World := mkWorld [is_; js_checked; ks; ls] parser4.

End Tests.

(** ** Further notions used to state properties of the whole header *)


(** An end that is a return or a [ParseException]. *)
Definition only_ParseException (r : outcome unit) : Prop :=
  match r with
  | Normal _ => True
  | Throw (ParseException _) => True
  | Throw _ => False
  end.

(** A callback which, when it throws, throws a [ParseException]. *)
Definition tame {A : Type} (h : callback A) : Prop :=
  forall v : A, only_ParseException (invoke h v).

Definition tame_fields (f : Fields) : Prop :=
  match f with
  | OptFields => True
  | BoolFields _ h => tame h
  | IntFields _ h => tame h
  | UintFields _ h => tame h
  | StrFields _ h => tame h
  end.

Definition tame_world (w : World) : Prop :=
  Forall (fun o => tame_fields (fields o)) (objects w).

(** A computation that keeps the callbacks tame and ends by a return or a
    [ParseException] whenever they are. *)
Definition contained (m : M unit) : Prop :=
  forall w, tame_world w ->
            tame_world (fst (m w)) /\ only_ParseException (snd (m w)).



(** ** The header with user handlers that run on the memory

    Above, a user handler is observed by how it ends, as a function of the
    value it is given. A [std::function] called from inside [parse] can do
    more: write the descriptors its closure holds, the parser, or variables
    of its own, and so end differently from one call to the next. Here a
    handler is a computation on the whole memory. A descriptor holds the
    pointer to its handler as a number, and the code of the handlers is
    given apart, by number. Everything else is the header again. *)
Module Live.

Inductive Fields : Type :=
| OptFields
| BoolFields (pValue : bool) (userHandler : option nat)
| IntFields (pValue : Z) (userHandler : option nat)
| UintFields (pValue : Z) (userHandler : option nat)
| StrFields (pValue : string) (userHandler : option nat).

Record Opt : Type := mkOpt {
  shortName : ascii;
  longName : string;
  description : string;
  present : bool;
  fields : Fields
}.

(** The caller's descriptors, the parser object, and what the closures of
    the handlers capture besides ([Mem]). *)
Record World (Mem : Type) : Type := mkWorld {
  objects : list Opt;
  self : OptParser;
  captured : Mem
}.
Arguments mkWorld {Mem} objects self captured.
Arguments objects {Mem} w.
Arguments self {Mem} w.
Arguments captured {Mem} w.

Definition M (Mem A : Type) : Type := World Mem -> World Mem * outcome A.

(** The code of the [std::function] objects, by number, for each argument
    type. *)
Record Handlers (Mem : Type) : Type := mkHandlers {
  on_bool : nat -> bool -> M Mem unit;
  on_int : nat -> Z -> M Mem unit;
  on_uint : nat -> Z -> M Mem unit;
  on_str : nat -> string -> M Mem unit
}.
Arguments mkHandlers {Mem} on_bool on_int on_uint on_str.
Arguments on_bool {Mem} h.
Arguments on_int {Mem} h.
Arguments on_uint {Mem} h.
Arguments on_str {Mem} h.

Definition ret {Mem A : Type} (a : A) : M Mem A := fun w => (w, Normal a).

Definition throw {Mem A : Type} (e : exn) : M Mem A := fun w => (w, Throw e).

Definition bind {Mem A B : Type} (m : M Mem A) (k : A -> M Mem B) : M Mem B :=
  fun w =>
    match m w with
    | (w', Normal a) => k a w'
    | (w', Throw e) => (w', Throw e)
    end.

(** [try { body } catch (ParseException exp) { handler }] *)
Definition try_catch_ParseException {Mem A : Type} (body : M Mem A)
    (handler : string -> M Mem A) : M Mem A :=
  fun w =>
    match body w with
    | (w', Throw (ParseException msg)) => handler msg w'
    | r => r
    end.

(** [try { body } catch ...] with the clauses of an integer class, which
    only relabel the exception. *)
Definition try_catch {Mem : Type} (body : M Mem unit)
    (clauses : outcome unit -> outcome unit) : M Mem unit :=
  fun w => let (w', r) := body w in (w', clauses r).

(** Assignment to the members of the object a reference designates. *)
Definition store {Mem : Type} (this : nat) (o : Opt) (w : World Mem) : World Mem :=
  mkWorld (<[this := o]> (objects w)) (self w) (captured w).

Definition mark (o : Opt) : Opt :=
  mkOpt (shortName o) (longName o) (description o) true (fields o).

Definition set_fields (o : Opt) (f : Fields) : Opt :=
  mkOpt (shortName o) (longName o) (description o) (present o) f.

Definition get_bool (o : Opt) : option bool :=
  match fields o with BoolFields v _ => Some v | _ => None end.
Definition get_int (o : Opt) : option Z :=
  match fields o with IntFields v _ => Some v | _ => None end.
Definition get_uint (o : Opt) : option Z :=
  match fields o with UintFields v _ => Some v | _ => None end.
Definition get_str (o : Opt) : option string :=
  match fields o with StrFields v _ => Some v | _ => None end.

(** [this->setPresent()] *)
Definition setPresent {Mem : Type} (this : nat) : M Mem unit :=
  fun w =>
    match objects w !! this with
    | Some o => (store this (mark o) w, Normal tt)
    | None => (w, Normal tt)
    end.

(** The call of the user handler, when the pointer is not null. *)
Definition invoke {Mem A : Type} (code : nat -> A -> M Mem unit)
    (userHandler : option nat) (v : A) : M Mem unit :=
  match userHandler with
  | None => ret tt
  | Some h => code h v
  end.

(** The virtual [this->defaultHandler(isPresent, value)]: the stored value
    is assigned, then the handler runs on the memory so changed. *)
Definition defaultHandler {Mem : Type} (hs : Handlers Mem) (this : nat)
    (isPresent : bool) (value : string) : M Mem unit :=
  fun w =>
    match objects w !! this with
    | None => (w, Normal tt)
    | Some o =>
        match fields o with
        | OptFields => (w, Normal tt)
        | BoolFields _ userHandler =>
            if isPresent
            then (w, Throw (ParseException "Argument does not expect a value"))
            else invoke (on_bool hs) userHandler true
                   (store this (set_fields o (BoolFields true userHandler)) w)
        | IntFields _ userHandler =>
            if negb isPresent
            then (w, Throw (ParseException "Argument expects an integer value"))
            else
              match Std.stoll value with
              | Throw e => (w, IntOpt_catch (Throw e))
              | Normal v =>
                  try_catch (invoke (on_int hs) userHandler v) IntOpt_catch
                    (store this (set_fields o (IntFields v userHandler)) w)
              end
        | UintFields _ userHandler =>
            if negb isPresent || negb (isUint value)
            then (w, Throw (ParseException
                              "Argument expects an non negative int value"))
            else
              match Std.stoull value with
              | Throw e => (w, UintOpt_catch (Throw e))
              | Normal v =>
                  try_catch (invoke (on_uint hs) userHandler v) UintOpt_catch
                    (store this (set_fields o (UintFields v userHandler)) w)
              end
        | StrFields _ userHandler =>
            if negb isPresent
            then (w, Throw (ParseException "Argument expects a value"))
            else invoke (on_str hs) userHandler value
                   (store this (set_fields o (StrFields value userHandler)) w)
        end
    end.

Fixpoint find_if (p : Opt -> bool) (objs : list Opt) (refs : list nat) : option nat :=
  match refs with
  | [] => None
  | r :: refs' =>
      match objs !! r with
      | Some o => if p o then Some r else find_if p objs refs'
      | None => find_if p objs refs'
      end
  end.

Definition findArgByShortName {Mem : Type} (c : ascii) (w : World Mem) : option nat :=
  find_if (fun arg => Ascii.eqb (shortName arg) c) (objects w) (argOptions (self w)).

Definition findArgByLongName {Mem : Type} (name : string) (w : World Mem)
    : option nat :=
  find_if (fun arg => String.eqb (longName arg) name) (objects w) (argOptions (self w)).

Definition parse_long {Mem : Type} (hs : Handlers Mem) (key : string)
    (isValPresent : bool) (value : string) : M Mem unit :=
  fun w =>
    match findArgByLongName key w with
    | None => throw (ParseException ("No such option " ++ key)) w
    | Some it =>
        try_catch_ParseException
          (bind (setPresent it)
                (fun _ => defaultHandler hs it isValPresent value))
          (fun msg =>
             throw (ParseException ("Parsing of " ++ key ++ " failed: " ++ what msg)))
          w
    end.

Definition parse_short {Mem : Type} (hs : Handlers Mem) (key : ascii)
    (isValPresent : bool) (value : string) : M Mem unit :=
  fun w =>
    match findArgByShortName key w with
    | None => throw (ParseException ("No such option " ++ String key "")) w
    | Some it =>
        try_catch_ParseException
          (bind (setPresent it)
                (fun _ => defaultHandler hs it isValPresent value))
          (fun msg =>
             throw (ParseException
                      ("Parsing of " ++ String key "" ++ " failed: " ++ what msg)))
          w
    end.

Fixpoint for_each {Mem : Type} (str : string) (body : ascii -> M Mem unit)
    : M Mem unit :=
  match str with
  | EmptyString => ret tt
  | String c str' => bind (body c) (fun _ => for_each str' body)
  end.

Fixpoint for_range {Mem : Type} (count : nat) (from : nat) (body : nat -> M Mem unit)
    : M Mem unit :=
  match count with
  | O => ret tt
  | S count' => bind (body from) (fun _ => for_range count' (S from) body)
  end.

Definition parseShortName {Mem : Type} (hs : Handlers Mem) (token : string)
    : M Mem unit :=
  let str := token in
  match Std.find "="%char str with
  | None =>
      for_each str (fun argName => parse_short hs argName false "")
  | Some idx =>
      let args := Std.substr 0 idx str in
      let value := Std.substr (idx + 1) (String.length str) str in
      for_range (String.length args) 0 (fun i =>
        if negb (Nat.eqb i (String.length args - 1))
        then parse_short hs (Std.at_ args i) false ""
        else parse_short hs (Std.at_ args i) true value)
  end.

Definition parseLongName {Mem : Type} (hs : Handlers Mem) (token : string)
    : M Mem unit :=
  let str := token in
  match Std.find "="%char str with
  | None => parse_long hs str false ""
  | Some idx =>
      let argName := Std.substr 0 idx str in
      let value := Std.substr (idx + 1) (String.length str) str in
      parse_long hs argName true value
  end.

Definition set_programName {Mem : Type} (name : string) : M Mem unit :=
  fun w =>
    (mkWorld (objects w)
       (mkOptParser (argOptions (self w)) name
                    (programArgc (self w)) (programArgv (self w)))
       (captured w),
     Normal tt).

Definition set_programArgs {Mem : Type} (argc : Z) (argv : list string)
    : M Mem unit :=
  fun w =>
    (mkWorld (objects w)
       (mkOptParser (argOptions (self w)) (programName (self w)) argc (Some argv))
       (captured w),
     Normal tt).

Definition parseProgramName {Mem : Type} (name : string) : M Mem unit :=
  fun w =>
    let str := name in
    if negb (String.eqb (programName (self w)) "")
    then throw (ParseException ("Bad option - " ++ str)) w
    else set_programName str w.

Fixpoint scan {Mem : Type} (hs : Handlers Mem) (tokens : list string) : M Mem unit :=
  match tokens with
  | [] => ret tt
  | current :: rest =>
      let len := String.length current in
      if (len <? 2)%nat
      then bind (parseProgramName current) (fun _ => scan hs rest)
      else if String.eqb current "--"
      then
        fun w =>
          if String.eqb (programName (self w)) ""
          then throw (ParseException
                        "Program filename must be specified before arguments") w
          else set_programArgs (Z.of_nat (length rest)) rest w
      else if Ascii.eqb (Std.at_ current 0) "-"%char
      then
        bind (if Ascii.eqb (Std.at_ current 1) "-"%char
              then parseLongName hs (advance 2 current)
              else parseShortName hs (advance 1 current))
             (fun _ => scan hs rest)
      else bind (parseProgramName current) (fun _ => scan hs rest)
  end.

Definition parse {Mem : Type} (hs : Handlers Mem) (argc : Z) (argv : list string)
    : M Mem unit :=
  scan hs (drop 1 (take (Z.to_nat argc) argv)).

(** *** Short clusters in the words of the specification *)

Definition resolve {Mem : Type} (hs : Handlers Mem) (r : resolution) : M Mem unit :=
  match r with
  | (c, None) => parse_short hs c false ""
  | (c, Some value) => parse_short hs c true value
  end.

(** Resolves the names left to right; the first failure ends the sequence. *)
Fixpoint resolve_each {Mem : Type} (hs : Handlers Mem) (l : list resolution)
    : M Mem unit :=
  match l with
  | [] => ret tt
  | r :: l' => bind (resolve hs r) (fun _ => resolve_each hs l')
  end.

(** *** Notions used to state what a parse run keeps *)

(** The only values the coercions assign: [true] to a Boolean, any value of
    its type to the others; class and handler pointer stay. *)
Definition assigned (f f' : Fields) : Prop :=
  match f, f' with
  | BoolFields _ h, BoolFields b' h' => h' = h /\ b' = true
  | IntFields _ h, IntFields _ h' => h' = h
  | UintFields _ h, UintFields _ h' => h' = h
  | StrFields _ h, StrFields _ h' => h' = h
  | _, _ => False
  end.

(** The writes of the parser's own code, as opposed to those of the user
    handlers it calls: marking a registered descriptor present, assigning
    the value of a registered descriptor, setting the program name, setting
    the residual arguments. *)
Inductive own_step {Mem : Type} : World Mem -> World Mem -> Prop :=
| step_mark (w : World Mem) (it : nat) (o : Opt) :
    In it (argOptions (self w)) -> objects w !! it = Some o ->
    own_step w (store it (mark o) w)
| step_assign (w : World Mem) (it : nat) (o : Opt) (f' : Fields) :
    In it (argOptions (self w)) -> objects w !! it = Some o ->
    assigned (fields o) f' ->
    own_step w (store it (set_fields o f') w)
| step_programName (w : World Mem) (name : string) :
    programName (self w) = "" ->
    own_step w (fst (set_programName name w))
| step_programArgs (w : World Mem) (argv : list string) :
    programName (self w) <> "" ->
    own_step w (fst (set_programArgs (Z.of_nat (length argv)) argv w)).

(** A relation between the memory before and after that every handler
    maintains, whatever its number, the value it is given and the memory it
    starts from. *)
Definition maintained {Mem : Type} (hs : Handlers Mem)
    (R : World Mem -> World Mem -> Prop) : Prop :=
  (forall h v w, R w (fst (on_bool hs h v w)))
  /\ (forall h v w, R w (fst (on_int hs h v w)))
  /\ (forall h v w, R w (fst (on_uint hs h v w)))
  /\ (forall h v w, R w (fst (on_str hs h v w))).

(** Handlers that leave the descriptors and the parser alone; they may
    still change what they captured and end as they like. *)
Definition quiet {Mem : Type} (hs : Handlers Mem) : Prop :=
  maintained hs (fun w w' => objects w' = objects w /\ self w' = self w).

(** Handlers that write nothing at all and end as a function of their
    number and of the value they are given: those of the first part. *)
Definition value_only {Mem : Type} (hs : Handlers Mem)
    (fb : nat -> bool -> outcome unit) (fi fu : nat -> Z -> outcome unit)
    (fs : nat -> string -> outcome unit) : Prop :=
  (forall h v w, on_bool hs h v w = (w, fb h v))
  /\ (forall h v w, on_int hs h v w = (w, fi h v))
  /\ (forall h v w, on_uint hs h v w = (w, fu h v))
  /\ (forall h v w, on_str hs h v w = (w, fs h v)).

(** A Boolean option stays one, its stored value does not go from true to
    false, and its presence flag is not cleared. *)
Definition Booleans_kept {Mem : Type} (w w' : World Mem) : Prop :=
  forall (it : nat) (o : Opt) (b : bool),
    objects w !! it = Some o -> get_bool o = Some b ->
    exists (o' : Opt) (b' : bool),
      objects w' !! it = Some o' /\ get_bool o' = Some b'
      /\ (b = true -> b' = true)
      /\ (present o = true -> present o' = true).




(** Same class and same handler pointer. *)
Definition same_class (f f' : Fields) : Prop :=
  match f, f' with
  | OptFields, OptFields => True
  | BoolFields _ h, BoolFields _ h' => h' = h
  | IntFields _ h, IntFields _ h' => h' = h
  | UintFields _ h, UintFields _ h' => h' = h
  | StrFields _ h, StrFields _ h' => h' = h
  | _, _ => False
  end.

(** Names, description, class and handler pointer stay; presence is not
    cleared. *)
Record kept (o o' : Opt) : Prop := mkKept {
  kept_shortName : shortName o' = shortName o;
  kept_longName : longName o' = longName o;
  kept_description : description o' = description o;
  kept_present : present o = true -> present o' = true;
  kept_class : same_class (fields o) (fields o')
}.

Definition descriptors_kept {Mem : Type} (w w' : World Mem) : Prop :=
  Forall2 kept (objects w) (objects w')
  /\ argOptions (self w') = argOptions (self w).

(** The descriptors that are not registered are as they were, and the
    registry is the same. *)
Definition unregistered_untouched {Mem : Type} (w w' : World Mem) : Prop :=
  argOptions (self w') = argOptions (self w)
  /\ forall r : nat, ~ In r (argOptions (self w)) -> objects w' !! r = objects w !! r.

(** Two descriptors that differ at most by the stored value. *)
Definition same_but_value (o o' : Opt) : Prop :=
  shortName o' = shortName o /\ longName o' = longName o
  /\ description o' = description o /\ present o' = present o
  /\ same_class (fields o) (fields o').

End Live.

(** ** The first part as a case of the second

    A handler of the first part is a handler of the second that writes
    nothing and ends as a function of its number and of the value it is
    given ([fb], [fi], [fu], [fs] for the four classes). *)
Section Erasure.

Variable fb : nat -> bool -> outcome unit.
Variables fi fu : nat -> Z -> outcome unit.
Variable fs : nat -> string -> outcome unit.

Definition erase_fields (f : Live.Fields) : Fields :=
  match f with
  | Live.OptFields => OptFields
  | Live.BoolFields v h => BoolFields v (option_map fb h)
  | Live.IntFields v h => IntFields v (option_map fi h)
  | Live.UintFields v h => UintFields v (option_map fu h)
  | Live.StrFields v h => StrFields v (option_map fs h)
  end.

Definition erase (o : Live.Opt) : Opt :=
  mkOpt (Live.shortName o) (Live.longName o) (Live.description o) (Live.present o)
    (erase_fields (Live.fields o)).

Definition erase_world {Mem : Type} (w : Live.World Mem) : World :=
  mkWorld (map erase (Live.objects w)) (Live.self w).

(** [m'] does on the erased memory what [m] does on the memory. *)
Definition simulates {Mem A : Type} (m : Live.M Mem A) (m' : M A) : Prop :=
  forall w, m' (erase_world w) = (erase_world (fst (m w)), snd (m w)).

End Erasure.

(** Configurations with handlers that write. *)
Module LiveTests.

Definition is_ : Live.Opt :=
  Live.mkOpt "i" "is" "the value of some field is" false (Live.BoolFields false None).

(** As [is_], with [true] as the default value. *)
Definition is_on : Live.Opt :=
  Live.mkOpt "i" "is" "the value of some field is" false (Live.BoolFields true None).

(** [js], whose handler is the one numbered 0. *)
Definition js : Live.Opt :=
  Live.mkOpt "j" "js" "the value of some field js" false
    (Live.IntFields 1100 (Some 0%nat)).

(** [parser.add(is).add(js)] *)
Definition parser2 : OptParser := add (add new_OptParser 0%nat) 1%nat.

Definition world : Live.World unit := Live.mkWorld [is_; js] parser2 tt.

Definition world_on : Live.World unit := Live.mkWorld [is_on; js] parser2 tt.

(** Handler 0 of the integers is a closure that holds [is] by reference and
    assigns it a fresh descriptor:
    [[&is](int64_t) { is = BoolOpt('i', "is", false, "..."); }]. *)
Definition resetting : Live.Handlers unit :=
  Live.mkHandlers
    (fun _ _ => Live.ret tt)
    (fun _ _ w => (Live.store 0 is_ w, Normal tt))
    (fun _ _ => Live.ret tt)
    (fun _ _ => Live.ret tt).

(** Handler 0 of the integers counts its calls and throws from the second
    one on: [[n = 0](int64_t) mutable { if (n++ > 0) throw ...; }]. *)
Definition counting : Live.Handlers nat :=
  Live.mkHandlers
    (fun _ _ => Live.ret tt)
    (fun _ _ w =>
       (Live.mkWorld (Live.objects w) (Live.self w) (S (Live.captured w)),
        if Nat.eqb (Live.captured w) 0 then Normal tt
        else Throw (ParseException "called twice")))
    (fun _ _ => Live.ret tt)
    (fun _ _ => Live.ret tt).

Definition counted_world : Live.World nat := Live.mkWorld [is_; js] parser2 0%nat.

Definition counted_world_on : Live.World nat :=
  Live.mkWorld [is_on; js] parser2 0%nat.


(** The checker of [testOptParser0], as the code of every integer handler. *)
Definition customChecker (x : Z) : outcome unit :=
  if 1000 <? x then Throw (ParseException "Value is more that 1000") else Normal tt.

Definition checking : Live.Handlers unit :=
  Live.mkHandlers
    (fun _ _ => Live.ret tt)
    (fun _ x w => (w, customChecker x))
    (fun _ _ => Live.ret tt)
    (fun _ _ => Live.ret tt).

End LiveTests.

(** * Properties *)

(** ** The assertions of the header's self-tests *)

Example testOptParser0_asserts :
  let js1 := fst (defaultHandler Tests.js_checked true "45") in
  snd (defaultHandler Tests.js_checked true "45") = Normal tt
  /\ get_int js1 = Some 45
  /\ snd (defaultHandler js1 true "2000")
     = Throw (ParseException "Value is more that 1000").
Proof. vm_compute. auto. Qed.

Example testOptParser1_asserts :
  let js1 := fst (defaultHandler Tests.js true "9223372036854775808") in
  snd (defaultHandler Tests.js true "9223372036854775808")
  = Throw (ParseException "Value is not in range of a 64 bit int")
  /\ get_int js1 = Some 1100
  /\ defaultHandler js1 true "4100"
     = (set_fields Tests.js (IntFields 4100 None), Normal tt).
Proof. vm_compute. auto. Qed.

Example testOptParser2_asserts :
  let ks1 := fst (defaultHandler Tests.ks true "-22") in
  snd (defaultHandler Tests.ks true "-22")
  = Throw (ParseException "Argument expects an non negative int value")
  /\ get_uint ks1 = Some 2200
  /\ defaultHandler ks1 true "9223372036854775808"
     = (set_fields Tests.ks (UintFields 9223372036854775808 None), Normal tt).
Proof. vm_compute. auto. Qed.

Example testOptParser3_asserts :
  parse 4 ["--is"; "--is"; "-j=4"; "--ls=some other value"] Tests.world3
  = (mkWorld [setPresent (set_fields Tests.is_ (BoolFields true None));
              setPresent (set_fields Tests.js (IntFields 4 None));
              Tests.ks;
              setPresent (set_fields Tests.ls_long (StrFields "some other value" None))]
             Tests.parser4,
     Normal tt).
Proof. vm_compute. reflexivity. Qed.

Example testOptParser4_asserts :
  snd (parse 3 ["--is"; "--is"; "-x=4"] Tests.world5)
  = Throw (ParseException "No such option x").
Proof. vm_compute. reflexivity. Qed.

Example testOptParser5_asserts :
  parse 2 ["-ij=100"; "-ij=100"] Tests.world5
  = (mkWorld [setPresent (set_fields Tests.is_ (BoolFields true None));
              setPresent (set_fields Tests.js (IntFields 100 None));
              Tests.ks; Tests.ls]
             Tests.parser4,
     Normal tt).
Proof. vm_compute. reflexivity. Qed.

(** ** Decimal text and the library conversions *)

Section DecimalText.

Import Std.

Lemma accumulate_digits_acc (d : Decimal.uint) (p : positive) :
  accumulate (NilEmpty.string_of_uint d) (Z.pos p) = Z.pos (Pos.of_uint_acc d p).
Proof.
  revert p.
  induction d as [|d IH|d IH|d IH|d IH|d IH|d IH|d IH|d IH|d IH|d IH];
    intros p; cbn [NilEmpty.string_of_uint Pos.of_uint_acc accumulate];
    [reflexivity|..];
    change (isdigit _) with true; cbv iota;
    match goal with
    | |- accumulate _ ?a = _ =>
        match goal with
        | |- _ = Z.pos (Pos.of_uint_acc _ ?q) =>
            replace a with (Z.pos q) by (unfold digit_value; cbn; lia)
        end
    end; apply IH.
Qed.

Lemma accumulate_digits (d : Decimal.uint) :
  accumulate (NilEmpty.string_of_uint d) 0 = Z.of_N (Pos.of_uint d).
Proof.
  induction d as [|d IH|d IH|d IH|d IH|d IH|d IH|d IH|d IH|d IH|d IH];
    cbn [NilEmpty.string_of_uint Pos.of_uint accumulate];
    [reflexivity|..];
    change (isdigit _) with true; cbv iota;
    [exact IH|..];
    match goal with
    | |- accumulate _ ?a = Z.of_N (N.pos (Pos.of_uint_acc _ ?q)) =>
        replace a with (Z.pos q) by (unfold digit_value; cbn; lia)
    end; apply accumulate_digits_acc.
Qed.

Lemma magnitude_digits (d : Decimal.uint) :
  d <> Decimal.Nil ->
  magnitude (NilEmpty.string_of_uint d) = Some (Z.of_N (Pos.of_uint d)).
Proof.
  intros Hd. rewrite <- accumulate_digits.
  destruct d; [congruence|reflexivity..].
Qed.

Lemma digits_no_prefix (d : Decimal.uint) :
  d <> Decimal.Nil ->
  take_sign (skip_space (NilEmpty.string_of_uint d))
  = (false, NilEmpty.string_of_uint d).
Proof. intros Hd. destruct d; [congruence|reflexivity..]. Qed.

Lemma magnitude_positive (p : positive) :
  let s := NilEmpty.string_of_uint (Pos.to_uint p) in
  take_sign (skip_space s) = (false, s) /\ magnitude s = Some (Z.pos p).
Proof.
  pose proof (Unsigned.to_uint_nonnil p) as Hn. split.
  - by apply digits_no_prefix.
  - rewrite magnitude_digits by done. by rewrite Unsigned.of_to.
Qed.

Lemma decimal_positive (p : positive) :
  decimal (Z.pos p) = NilEmpty.string_of_uint (Pos.to_uint p).
Proof.
  unfold decimal. cbn [Z.to_int NilZero.string_of_int].
  pose proof (Unsigned.to_uint_nonnil p) as Hn.
  unfold NilZero.string_of_uint. by destruct (Pos.to_uint p).
Qed.

Lemma decimal_negative (p : positive) :
  decimal (Z.neg p) = String "-" (NilEmpty.string_of_uint (Pos.to_uint p)).
Proof.
  unfold decimal. cbn [Z.to_int NilZero.string_of_int].
  pose proof (Unsigned.to_uint_nonnil p) as Hn.
  unfold NilZero.string_of_uint. by destruct (Pos.to_uint p).
Qed.

(** [stoll] reads back the decimal text of every [long long]. *)
Lemma stoll_decimal (z : Z) :
  LLONG_MIN <= z <= LLONG_MAX -> stoll (decimal z) = Normal z.
Proof.
  intros Hz. unfold stoll. destruct z as [|p|p].
  - reflexivity.
  - rewrite decimal_positive.
    destruct (magnitude_positive p) as [-> ->].
    destruct (Z.leb_spec LLONG_MIN (Z.pos p)), (Z.leb_spec (Z.pos p) LLONG_MAX);
      try lia; reflexivity.
  - rewrite decimal_negative.
    change (skip_space (String "-" ?s)) with (String "-"%char s).
    cbn [take_sign].
    destruct (magnitude_positive p) as [_ ->].
    change (- Z.pos p) with (Z.neg p).
    destruct (Z.leb_spec LLONG_MIN (Z.neg p)), (Z.leb_spec (Z.neg p) LLONG_MAX);
      try lia; reflexivity.
Qed.

(** Outside the range the text is refused as out of range. *)
Lemma stoll_decimal_out_of_range (z : Z) :
  ~ (LLONG_MIN <= z <= LLONG_MAX) ->
  stoll (decimal z) = Throw (std_out_of_range "stoll").
Proof.
  intros Hz. unfold stoll. destruct z as [|p|p].
  - exfalso. apply Hz. unfold LLONG_MIN, LLONG_MAX. lia.
  - rewrite decimal_positive.
    destruct (magnitude_positive p) as [-> ->].
    destruct (Z.leb_spec LLONG_MIN (Z.pos p)), (Z.leb_spec (Z.pos p) LLONG_MAX);
      try lia; reflexivity.
  - rewrite decimal_negative.
    change (skip_space (String "-" ?s)) with (String "-"%char s).
    cbn [take_sign].
    destruct (magnitude_positive p) as [_ ->].
    change (- Z.pos p) with (Z.neg p).
    destruct (Z.leb_spec LLONG_MIN (Z.neg p)), (Z.leb_spec (Z.neg p) LLONG_MAX);
      try lia; reflexivity.
Qed.

(** A text with a character that is not a digit is not a [isUint] text. *)
Lemma all_of_In (p : ascii -> bool) (s : string) (c : ascii) :
  In c (list_ascii_of_string s) -> p c = false -> all_of p s = false.
Proof.
  induction s as [|a s IH]; cbn [list_ascii_of_string all_of In]; [done|].
  intros [->|Hin] Hc.
  - by rewrite Hc.
  - rewrite (IH Hin Hc). apply andb_false_r.
Qed.

End DecimalText.

(** ** Coercion of the integer classes *)

Section IntegerCoercion.

Variable this : Opt.
Variable v0 : Z.
Variable userHandler : callback Z.

Lemma IntOpt_stores (value : string) (z : Z) :
  fields this = IntFields v0 userHandler ->
  Std.stoll value = Normal z ->
  defaultHandler this true value
  = (set_fields this (IntFields z userHandler), IntOpt_catch (invoke userHandler z)).
Proof. intros Hf Hz. unfold defaultHandler. by rewrite Hf, Hz. Qed.

Lemma IntOpt_refuses (value : string) (e : exn) :
  fields this = IntFields v0 userHandler ->
  Std.stoll value = Throw e ->
  defaultHandler this true value = (this, IntOpt_catch (Throw e)).
Proof. intros Hf Hz. unfold defaultHandler. by rewrite Hf, Hz. Qed.

Lemma UintOpt_stores (value : string) (z : Z) :
  fields this = UintFields v0 userHandler ->
  isUint value = true ->
  Std.stoull value = Normal z ->
  defaultHandler this true value
  = (set_fields this (UintFields z userHandler), UintOpt_catch (invoke userHandler z)).
Proof. intros Hf Hu Hz. unfold defaultHandler. by rewrite Hf, Hu, Hz. Qed.

Lemma UintOpt_refuses (isValPresent : bool) (value : string) :
  fields this = UintFields v0 userHandler ->
  isValPresent = false \/ isUint value = false ->
  defaultHandler this isValPresent value
  = (this, Throw (ParseException "Argument expects an non negative int value")).
Proof.
  intros Hf H. unfold defaultHandler. rewrite Hf.
  destruct H as [-> | ->]; [done|]. by rewrite orb_true_r.
Qed.

End IntegerCoercion.

(** C3. A signed-integer option stores exactly the integer its decimal text
    denotes, for every integer of [-2^63, 2^63-1]; the only failure left is
    the one of the user callback, and there is none without a callback. The
    text "9223372036854775808" is refused with the range error and the
    descriptor, its stored value included, is left as it was. *)
Theorem IntOpt_round_trip (this : Opt) (v0 : Z) (userHandler : callback Z) (z : Z) :
  fields this = IntFields v0 userHandler ->
  - 2 ^ 63 <= z <= 2 ^ 63 - 1 ->
  (get_int (fst (defaultHandler this true (decimal z))) = Some z
   /\ snd (defaultHandler this true (decimal z)) = IntOpt_catch (invoke userHandler z)
   /\ (userHandler = None -> snd (defaultHandler this true (decimal z)) = Normal tt))
  /\ decimal (2 ^ 63) = "9223372036854775808"
  /\ defaultHandler this true "9223372036854775808"
     = (this, Throw (ParseException "Value is not in range of a 64 bit int"))
  /\ get_int (fst (defaultHandler this true "9223372036854775808")) = Some v0.
Proof.
  intros Hf Hz.
  assert (Hround : Std.stoll (decimal z) = Normal z) by (by apply stoll_decimal).
  rewrite (IntOpt_stores this v0 userHandler _ z Hf Hround).
  assert (Hbig : Std.stoll "9223372036854775808" = Throw (std_out_of_range "stoll"))
    by (vm_compute; reflexivity).
  rewrite (IntOpt_refuses this v0 userHandler _ _ Hf Hbig).
  cbn [fst snd IntOpt_catch]. unfold get_int. rewrite Hf.
  repeat split; try reflexivity.
  intros ->. reflexivity.
Qed.

Lemma IntOpt_round_trip_witness :
  get_int (fst (defaultHandler Tests.js true (decimal (- 2 ^ 63)))) = Some (- 2 ^ 63)
  /\ get_int (fst (defaultHandler Tests.js true "9223372036854775808")) = Some 1100.
Proof.
  destruct (IntOpt_round_trip Tests.js 1100 None (- 2 ^ 63)) as [[H _] [_ [_ H']]].
  - reflexivity.
  - lia.
  - split; [exact H | exact H'].
Defined.

(** C4. An unsigned-integer option refuses every coercion without an
    attached value and every text holding a character that is not a digit
    ('-' in particular), leaving the descriptor as it was; the text
    "9223372036854775808" is accepted and 2^63 is stored, the only failure
    left being the one of the user callback. *)
Theorem UintOpt_digits_only (this : Opt) (v0 : Z) (userHandler : callback Z) :
  fields this = UintFields v0 userHandler ->
  (forall value : string,
      defaultHandler this false value
      = (this, Throw (ParseException "Argument expects an non negative int value")))
  /\ (forall (value : string) (c : ascii),
         In c (list_ascii_of_string value) -> Std.isdigit c = false ->
         defaultHandler this true value
         = (this, Throw (ParseException "Argument expects an non negative int value")))
  /\ (forall value : string,
         In "-"%char (list_ascii_of_string value) ->
         defaultHandler this true value
         = (this, Throw (ParseException "Argument expects an non negative int value")))
  /\ defaultHandler this true "9223372036854775808"
     = (set_fields this (UintFields (2 ^ 63) userHandler),
        UintOpt_catch (invoke userHandler (2 ^ 63)))
  /\ (userHandler = None ->
      snd (defaultHandler this true "9223372036854775808") = Normal tt).
Proof.
  intros Hf.
  assert (Hnondigit : forall value c,
             In c (list_ascii_of_string value) -> Std.isdigit c = false ->
             defaultHandler this true value
             = (this, Throw (ParseException "Argument expects an non negative int value"))).
  { intros value c Hin Hc. apply (UintOpt_refuses this v0 userHandler); [done|].
    right. by apply (all_of_In _ _ c). }
  assert (Hbig : defaultHandler this true "9223372036854775808"
                 = (set_fields this (UintFields (2 ^ 63) userHandler),
                    UintOpt_catch (invoke userHandler (2 ^ 63)))).
  { by apply (UintOpt_stores this v0 userHandler). }
  repeat split.
  - intros value. apply (UintOpt_refuses this v0 userHandler); auto.
  - exact Hnondigit.
  - intros value Hin. by apply (Hnondigit value "-"%char).
  - exact Hbig.
  - intros ->. by rewrite Hbig.
Qed.

Lemma UintOpt_digits_only_witness :
  defaultHandler Tests.ks true "-22"
  = (Tests.ks, Throw (ParseException "Argument expects an non negative int value"))
  /\ get_uint (fst (defaultHandler Tests.ks true "9223372036854775808")) = Some (2 ^ 63).
Proof.
  destruct (UintOpt_digits_only Tests.ks 2200 None) as [_ [_ [Hminus [Hbig _]]]].
  - reflexivity.
  - split.
    + apply Hminus. cbn. auto.
    + rewrite Hbig. reflexivity.
Defined.

(** ** Lookup and resolution of one name *)

Section Lookup.

Variable p : Opt -> bool.

Lemma find_if_Some (objs : list Opt) (refs : list nat) (r : nat) :
  find_if p objs refs = Some r ->
  exists o, objs !! r = Some o /\ p o = true.
Proof.
  induction refs as [|r0 refs IH]; cbn [find_if]; [done|].
  destruct (objs !! r0) as [o|] eqn:Ho; [|exact IH].
  destruct (p o) eqn:Hp; [|exact IH].
  intros [= <-]. eauto.
Qed.

(** The search only looks at what [p] sees of the descriptors. *)
Lemma find_if_ext (objs objs' : list Opt) (refs : list nat) :
  Forall2 (fun o o' => p o' = p o) objs objs' ->
  find_if p objs' refs = find_if p objs refs.
Proof.
  intros Hobjs. induction refs as [|r0 refs IH]; cbn [find_if]; [done|].
  rewrite Forall2_lookup in Hobjs. specialize (Hobjs r0).
  destruct Hobjs as [o o' Hp|]; [|exact IH].
  rewrite Hp. by rewrite IH.
Qed.

End Lookup.

Lemma resolution_at (it : nat) (o : Opt) (isValPresent : bool) (value : string)
    (handler : string -> M unit) (w : World) :
  objects w !! it = Some o ->
  try_catch_ParseException
    (call it (fun o => (setPresent o, Normal tt)) tt ;;
     call it (fun o => defaultHandler o isValPresent value) tt)
    handler w
  = let w' := mkWorld (<[it := fst (defaultHandler (setPresent o) isValPresent value)]>
                         (objects w)) (self w) in
    match snd (defaultHandler (setPresent o) isValPresent value) with
    | Throw (ParseException msg) => handler msg w'
    | r => (w', r)
    end.
Proof.
  intros Ho. pose proof (lookup_lt_Some _ _ _ Ho) as Hlt.
  unfold try_catch_ParseException, bind, call. rewrite Ho. cbn [objects self].
  rewrite list_lookup_insert_eq by done.
  destruct (defaultHandler (setPresent o) isValPresent value) as [o' r].
  rewrite list_insert_insert_eq. cbn [fst snd].
  by destruct r as [[]|[]].
Qed.

(** Resolution of a registered long name: the descriptor is first marked
    present, then coerces the value; a [ParseException] is prefixed. *)
Lemma parse_long_found (key : string) (isValPresent : bool) (value : string)
    (w : World) (it : nat) (o : Opt) :
  findArgByLongName key w = Some it ->
  objects w !! it = Some o ->
  parse_long key isValPresent value w
  = (mkWorld (<[it := fst (defaultHandler (setPresent o) isValPresent value)]>
                (objects w)) (self w),
     wrap_failure key (snd (defaultHandler (setPresent o) isValPresent value))).
Proof.
  intros Hfind Ho. unfold parse_long. rewrite Hfind.
  rewrite (resolution_at it o) by done. cbn zeta. unfold wrap_failure, throw.
  by destruct (snd (defaultHandler (setPresent o) isValPresent value)) as [|[]].
Qed.

Lemma parse_short_found (key : ascii) (isValPresent : bool) (value : string)
    (w : World) (it : nat) (o : Opt) :
  findArgByShortName key w = Some it ->
  objects w !! it = Some o ->
  parse_short key isValPresent value w
  = (mkWorld (<[it := fst (defaultHandler (setPresent o) isValPresent value)]>
                (objects w)) (self w),
     wrap_failure (String key "")
                  (snd (defaultHandler (setPresent o) isValPresent value))).
Proof.
  intros Hfind Ho. unfold parse_short. rewrite Hfind.
  rewrite (resolution_at it o) by done. cbn zeta. unfold wrap_failure, throw.
  by destruct (snd (defaultHandler (setPresent o) isValPresent value)) as [|[]].
Qed.

Lemma parse_long_unknown (key : string) (isValPresent : bool) (value : string)
    (w : World) :
  findArgByLongName key w = None ->
  parse_long key isValPresent value w
  = (w, Throw (ParseException ("No such option " ++ key))).
Proof. intros Hfind. unfold parse_long. by rewrite Hfind. Qed.

Lemma parse_short_unknown (key : ascii) (isValPresent : bool) (value : string)
    (w : World) :
  findArgByShortName key w = None ->
  parse_short key isValPresent value w
  = (w, Throw (ParseException ("No such option " ++ String key ""))).
Proof. intros Hfind. unfold parse_short. by rewrite Hfind. Qed.

Lemma findArgByLongName_Some (key : string) (w : World) (it : nat) :
  findArgByLongName key w = Some it ->
  exists o, objects w !! it = Some o /\ longName o = key.
Proof.
  intros H. apply find_if_Some in H as (o & Ho & Hp).
  exists o. split; [done|]. by apply String.eqb_eq.
Qed.

Lemma findArgByShortName_Some (key : ascii) (w : World) (it : nat) :
  findArgByShortName key w = Some it ->
  exists o, objects w !! it = Some o /\ shortName o = key.
Proof.
  intros H. apply find_if_Some in H as (o & Ho & Hp).
  exists o. split; [done|]. by apply Ascii.eqb_eq.
Qed.

(** ** What a run preserves *)

Lemma fields_evolve_refl (f : Fields) : fields_evolve f f.
Proof. destruct f; cbn; auto. Qed.

Lemma fields_evolve_trans (f g h : Fields) :
  fields_evolve f g -> fields_evolve g h -> fields_evolve f h.
Proof.
  destruct f, g, h; cbn; try tauto; try congruence.
  intros [-> [-> | ->]] [-> [-> | ->]]; auto.
Qed.

Lemma evolves_refl (o : Opt) : evolves o o.
Proof. split; auto using fields_evolve_refl. Qed.

Lemma evolves_trans (o1 o2 o3 : Opt) :
  evolves o1 o2 -> evolves o2 o3 -> evolves o1 o3.
Proof.
  intros [] []. split; try congruence; eauto using fields_evolve_trans.
Qed.

Lemma setPresent_evolves (o : Opt) : evolves o (setPresent o).
Proof. split; auto using fields_evolve_refl. Qed.

Lemma defaultHandler_evolves (o : Opt) (isValPresent : bool) (value : string) :
  evolves o (fst (defaultHandler o isValPresent value)).
Proof.
  unfold defaultHandler.
  destruct (fields o) as [|b h|v h|v h|v h] eqn:Hf.
  - apply evolves_refl.
  - destruct isValPresent; cbn [fst]; [apply evolves_refl|].
    split; auto. rewrite Hf. cbn. auto.
  - destruct isValPresent; cbn [negb fst]; [|apply evolves_refl].
    destruct (Std.stoll value); cbn [fst]; [|apply evolves_refl].
    split; auto. by rewrite Hf.
  - destruct (negb isValPresent || negb (isUint value)); cbn [fst];
      [apply evolves_refl|].
    destruct (Std.stoull value); cbn [fst]; [|apply evolves_refl].
    split; auto. by rewrite Hf.
  - destruct isValPresent; cbn [negb fst]; [|apply evolves_refl].
    split; auto. by rewrite Hf.
Qed.

Lemma world_evolves_refl (w : World) : world_evolves w w.
Proof.
  split; [|done]. apply Forall_Forall2_diag, Forall_forall.
  intros o _. apply evolves_refl.
Qed.

Lemma world_evolves_trans (w1 w2 w3 : World) :
  world_evolves w1 w2 -> world_evolves w2 w3 -> world_evolves w1 w3.
Proof.
  intros [H12 Ha12] [H23 Ha23]. split; [|congruence].
  eapply Forall2_trans; [|exact H12|exact H23]. apply evolves_trans.
Qed.

Lemma world_evolves_insert (w : World) (it : nat) (o o' : Opt) :
  objects w !! it = Some o ->
  evolves o o' ->
  world_evolves w (mkWorld (<[it := o']> (objects w)) (self w)).
Proof.
  intros Ho Hev. split; [|done]. cbn [objects].
  rewrite <- (list_insert_id _ _ _ Ho) at 1.
  apply Forall2_insert; [|done].
  apply Forall_Forall2_diag, Forall_forall. intros ? _. apply evolves_refl.
Qed.

(** The searches by name give the same answer after the world evolved. *)
Lemma findArgByShortName_evolves (c : ascii) (w w' : World) :
  world_evolves w w' -> findArgByShortName c w' = findArgByShortName c w.
Proof.
  intros [Hobjs Hargs]. unfold findArgByShortName. rewrite Hargs.
  apply find_if_ext. eapply Forall2_impl; [exact Hobjs|].
  intros o o' []. unfold getShortName. congruence.
Qed.

(** Any reflexive and transitive relation between the world before and
    after is carried through sequencing and the two loops. *)
Section Carried.

Variable R : World -> World -> Prop.
Hypothesis R_refl : forall w, R w w.
Hypothesis R_trans : forall w1 w2 w3, R w1 w2 -> R w2 w3 -> R w1 w3.

Lemma bind_carries {A B : Type} (m : M A) (k : A -> M B) :
  (forall w, R w (fst (m w))) ->
  (forall a w, R w (fst (k a w))) ->
  forall w, R w (fst (bind m k w)).
Proof.
  intros Hm Hk w. unfold bind. specialize (Hm w).
  destruct (m w) as [w' [a|e]]; cbn [fst] in *; [|done].
  eapply R_trans; [exact Hm|apply Hk].
Qed.



End Carried.

Lemma options_only_refl (w : World) : options_only w w.
Proof. split; [apply world_evolves_refl|done]. Qed.

Lemma options_only_trans (w1 w2 w3 : World) :
  options_only w1 w2 -> options_only w2 w3 -> options_only w1 w3.
Proof.
  intros [H12 Hs12] [H23 Hs23].
  split; [by eapply world_evolves_trans|congruence].
Qed.

Lemma resolved_options_only (w : World) (it : nat) (o : Opt)
    (isValPresent : bool) (value : string) :
  objects w !! it = Some o ->
  options_only w
    (mkWorld (<[it := fst (defaultHandler (setPresent o) isValPresent value)]>
                (objects w)) (self w)).
Proof.
  intros Ho. split; [|done]. apply (world_evolves_insert w it o); [done|].
  eapply evolves_trans; [apply setPresent_evolves|apply defaultHandler_evolves].
Qed.

Lemma parse_short_options_only (key : ascii) (isValPresent : bool) (value : string)
    (w : World) :
  options_only w (fst (parse_short key isValPresent value w)).
Proof.
  destruct (findArgByShortName key w) as [it|] eqn:Hfind.
  - destruct (findArgByShortName_Some _ _ _ Hfind) as (o & Ho & _).
    rewrite (parse_short_found _ _ _ _ it o) by done.
    by apply resolved_options_only.
  - rewrite parse_short_unknown by done. apply options_only_refl.
Qed.




Lemma resolve_each_options_only (l : list resolution) (w : World) :
  options_only w (fst (resolve_each l w)).
Proof.
  revert w. induction l as [|[c [v|]] l IH]; cbn [resolve_each resolve].
  - apply options_only_refl.
  - apply (bind_carries options_only options_only_trans); [|intros _; apply IH].
    intros w. apply parse_short_options_only.
  - apply (bind_carries options_only options_only_trans); [|intros _; apply IH].
    intros w. apply parse_short_options_only.
Qed.



(** ** The scan, token by token *)

Lemma parse_all (argv0 : string) (tokens : list string) :
  parse (Z.of_nat (length (argv0 :: tokens))) (argv0 :: tokens) = scan tokens.
Proof.
  unfold parse. rewrite Nat2Z.id. by rewrite firstn_all.
Qed.

Lemma bind_assoc {A B C : Type} (m : M A) (k : A -> M B) (h : B -> M C) (w : World) :
  bind (bind m k) h w = bind m (fun a => bind (k a) h) w.
Proof. unfold bind. by destruct (m w) as [w' [a|e]]. Qed.

Lemma bind_ret_r (m : M unit) (w : World) :
  bind m (fun _ => ret tt) w = m w.
Proof. unfold bind, ret. by destruct (m w) as [w' [[]|e]]. Qed.

Lemma bind_ext {A B : Type} (m : M A) (k k' : A -> M B) (w : World) :
  (forall a w', k a w' = k' a w') -> bind m k w = bind m k' w.
Proof. intros H. unfold bind. by destruct (m w) as [w' [a|e]]. Qed.

Lemma bind_cong_l {A B : Type} (m m' : M A) (k : A -> M B) (w : World) :
  m w = m' w -> bind m k w = bind m' k w.
Proof. intros H. unfold bind. by rewrite H. Qed.

(** A token other than the terminator is processed, then the scan goes on
    with the rest. *)
Lemma scan_cons (current : string) (rest : list string) (w : World) :
  current <> "--" ->
  scan (current :: rest) w = bind (scan [current]) (fun _ => scan rest) w.
Proof.
  intros Hne. apply String.eqb_neq in Hne. cbn [scan]. rewrite Hne.
  destruct (String.length current <? 2)%nat.
  { rewrite bind_assoc. apply bind_ext. intros _ w'. reflexivity. }
  destruct (Ascii.eqb (Std.at_ current 0) "-").
  - rewrite bind_assoc. apply bind_ext. intros _ w'. reflexivity.
  - rewrite bind_assoc. apply bind_ext. intros _ w'. reflexivity.
Qed.

Lemma scan_app (pre tokens : list string) (w : World) :
  ~ In "--" pre ->
  scan (pre ++ tokens) w = bind (scan pre) (fun _ => scan tokens) w.
Proof.
  revert w. induction pre as [|current pre IH]; intros w Hpre.
  - reflexivity.
  - cbn [In] in Hpre.
    assert (Hne : current <> "--") by (intros ->; apply Hpre; by left).
    rewrite <- app_comm_cons, scan_cons by done.
    rewrite (bind_cong_l (scan (current :: pre))
               (bind (scan [current]) (fun _ => scan pre)))
      by (by apply scan_cons).
    rewrite bind_assoc. apply bind_ext. intros _ w'. apply IH. tauto.
Qed.

(** The terminator, once reached. *)
Lemma scan_terminator (rest : list string) (w : World) :
  scan ("--" :: rest) w
  = if String.eqb (programName (self w)) ""
    then (w, Throw (ParseException
                     "Program filename must be specified before arguments"))
    else (mkWorld (objects w)
            (mkOptParser (argOptions (self w)) (programName (self w))
                         (Z.of_nat (length rest)) (Some rest)),
          Normal tt).
Proof. reflexivity. Qed.

(** A failing token ends the scan where it failed. *)
Lemma scan_abort (tok : string) (rest : list string) (w w' : World) (e : exn) :
  scan [tok] w = (w', Throw e) ->
  scan (tok :: rest) w = (w', Throw e).
Proof.
  intros Hfail. destruct (String.eqb_spec tok "--") as [->|Hne].
  - rewrite scan_terminator in *.
    destruct (String.eqb (programName (self w)) ""); [done|congruence].
  - rewrite scan_cons by done. unfold bind. by rewrite Hfail.
Qed.

(** C2. When the scan reaches the token "--" (the tokens before it hold no
    "--" and were processed without failure, leaving the world [w1]): with no
    program name assigned the parse fails with "Program filename must be
    specified before arguments"; otherwise the parse ends normally at once,
    the tokens after "--" are the residual vector, unchanged and in order,
    with their number as the residual count, and the descriptors are exactly
    those of [w1], whatever the tokens after "--" are. *)
Theorem terminator_captures_rest (argv0 : string) (pre rest : list string)
    (w w1 : World) :
  ~ In "--" pre ->
  parse (Z.of_nat (length (argv0 :: pre))) (argv0 :: pre) w = (w1, Normal tt) ->
  (getProgramName w1 = "" ->
   parse (Z.of_nat (length (argv0 :: pre ++ "--" :: rest)))
         (argv0 :: pre ++ "--" :: rest) w
   = (w1, Throw (ParseException
                   "Program filename must be specified before arguments")))
  /\ (getProgramName w1 <> "" ->
      exists w2,
        parse (Z.of_nat (length (argv0 :: pre ++ "--" :: rest)))
              (argv0 :: pre ++ "--" :: rest) w
        = (w2, Normal tt)
        /\ getProgramArgv w2 = Some rest
        /\ getProgramArgc w2 = Z.of_nat (length rest)
        /\ objects w2 = objects w1
        /\ argOptions (self w2) = argOptions (self w1)
        /\ getProgramName w2 = getProgramName w1).
Proof.
  intros Hpre Hrun. rewrite parse_all in Hrun. rewrite parse_all.
  rewrite scan_app by done. unfold bind. rewrite Hrun.
  rewrite scan_terminator. unfold getProgramName. split.
  - intros ->. reflexivity.
  - intros Hname. apply String.eqb_neq in Hname. rewrite Hname.
    eexists. split; [reflexivity|]. repeat split.
Qed.

Lemma terminator_captures_rest_witness :
  getProgramArgv
    (fst (parse 6 ["zeta"; "prog"; "-i"; "--"; "--ls=x"; "-q"] Tests.world5))
  = Some ["--ls=x"; "-q"]
  /\ snd (parse 3 ["zeta"; "--"; "-i"] Tests.world5)
     = Throw (ParseException "Program filename must be specified before arguments").
Proof.
  split.
  - destruct (terminator_captures_rest "zeta" ["prog"; "-i"] ["--ls=x"; "-q"]
                Tests.world5 (fst (parse 3 ["zeta"; "prog"; "-i"] Tests.world5)))
      as [_ H].
    + cbn. intros [[=]|[[=]|[]]].
    + vm_compute. reflexivity.
    + destruct H as (w2 & Hrun & Hargv & _).
      * vm_compute. discriminate.
      * change (Z.of_nat _) with 6 in Hrun. cbn [app] in Hrun.
        rewrite Hrun. exact Hargv.
  - destruct (terminator_captures_rest "zeta" [] ["-i"] Tests.world5 Tests.world5)
      as [H _].
    + cbn. tauto.
    + vm_compute. reflexivity.
    + change (Z.of_nat _) with 3 in H. cbn [app] in H.
      rewrite H; reflexivity.
Defined.



(** ** Splitting a token on its first '=' *)

Section Split.

Import Std.

Lemma append_nil_l (t : string) : ("" ++ t)%string = t.
Proof. reflexivity. Qed.

Lemma append_cons (a : ascii) (s t : string) :
  (String a s ++ t)%string = String a (s ++ t).
Proof. reflexivity. Qed.

Lemma find_append (c : ascii) (names value : string) :
  find c names = None ->
  find c (names ++ String c value) = Some (String.length names).
Proof.
  induction names as [|a names IH].
  - intros _. rewrite append_nil_l. cbn [find String.length].
    by rewrite Ascii.eqb_refl.
  - rewrite append_cons. cbn [find String.length].
    destruct (Ascii.eqb a c); [done|].
    destruct (find c names); [done|]. intros _. by rewrite IH.
Qed.

Lemma substr_all (s : string) (count : nat) :
  (String.length s <= count)%nat -> substr 0 count s = s.
Proof.
  unfold substr. revert count.
  induction s as [|a s IH]; intros [|count] Hle; cbn in *; try done; try lia.
  rewrite IH; [done|lia].
Qed.

Lemma substr_prefix (names rest : string) :
  substr 0 (String.length names) (names ++ rest) = names.
Proof.
  unfold substr. induction names as [|a names IH].
  - rewrite append_nil_l. by destruct rest.
  - rewrite append_cons. cbn [String.length substring]. by rewrite IH.
Qed.

Lemma substr_suffix (names value : string) (c : ascii) (count : nat) :
  (String.length value <= count)%nat ->
  substr (String.length names + 1) count (names ++ String c value) = value.
Proof.
  intros Hle. induction names as [|a names IH].
  - rewrite append_nil_l. cbn [String.length Nat.add].
    change (substr 1 count (String c value)) with (substr 0 count value).
    by apply substr_all.
  - rewrite append_cons. exact IH.
Qed.

Lemma length_append (s t : string) :
  String.length (s ++ t) = (String.length s + String.length t)%nat.
Proof.
  induction s as [|a s IH]; [done|].
  rewrite append_cons. cbn [String.length]. by rewrite IH.
Qed.

(** The three values the two token parsers compute from a token with a
    '='. *)
Lemma split_at_first_eq (names value : string) :
  find "=" names = None ->
  find "=" (names ++ String "=" value) = Some (String.length names)
  /\ substr 0 (String.length names) (names ++ String "=" value) = names
  /\ substr (String.length names + 1)
            (String.length (names ++ String "=" value))
            (names ++ String "=" value) = value.
Proof.
  intros Hnames. split; [by apply find_append|].
  split; [apply substr_prefix|].
  apply substr_suffix. rewrite length_append. cbn [String.length]. lia.
Qed.

Lemma at_append (prefix todo : string) (c : ascii) :
  at_ (prefix ++ String c todo) (String.length prefix) = c.
Proof.
  unfold at_. induction prefix as [|a prefix IH]; [done|].
  rewrite append_cons. exact IH.
Qed.

Lemma append_assoc (s t u : string) :
  ((s ++ t) ++ u)%string = (s ++ (t ++ u))%string.
Proof.
  induction s as [|a s IH]; [done|].
  rewrite !append_cons. by rewrite IH.
Qed.

End Split.

Lemma parseLongName_no_value (name : string) (w : World) :
  Std.find "=" name = None ->
  parseLongName name w = parse_long name false "" w.
Proof. intros Hname. unfold parseLongName. by rewrite Hname. Qed.

Lemma parseLongName_value (name value : string) (w : World) :
  Std.find "=" name = None ->
  parseLongName (name ++ String "=" value) w = parse_long name true value w.
Proof.
  intros Hname. unfold parseLongName.
  destruct (split_at_first_eq name value Hname) as (-> & -> & ->). done.
Qed.

(** A token of two or more characters that starts with "--" and is not
    "--" itself goes to the long-name parser. *)
Lemma scan_long_token (body : string) (w : World) :
  body <> "" ->
  scan [String "-" (String "-" body)] w = parseLongName body w.
Proof.
  intros Hbody. destruct body as [|c body]; [done|].
  cbn [scan String.length Nat.ltb Nat.leb Std.at_ String.get advance].
  change (String.eqb _ "--") with (String.eqb (String c body) "").
  cbn [String.eqb Ascii.eqb Bool.eqb]. apply bind_ret_r.
Qed.

(** A token of two or more characters that starts with one '-' only goes
    to the short-name parser. *)
Lemma scan_short_token (c : ascii) (body : string) (w : World) :
  c <> "-"%char ->
  scan [String "-" (String c body)] w = parseShortName (String c body) w.
Proof.
  intros Hc. apply Ascii.eqb_neq in Hc.
  cbn [scan String.length Nat.ltb Nat.leb Std.at_ String.get advance].
  change (String.eqb _ "--") with (Ascii.eqb c "-" && String.eqb body "")%bool.
  rewrite Hc. cbn [andb Ascii.eqb Bool.eqb]. apply bind_ret_r.
Qed.

(** ** Coercion of the Boolean and string classes *)

Lemma BoolOpt_sets (this : Opt) (b : bool) (h : callback bool) (value : string) :
  fields this = BoolFields b h ->
  defaultHandler this false value
  = (set_fields this (BoolFields true h), invoke h true).
Proof. intros Hf. unfold defaultHandler. by rewrite Hf. Qed.

Lemma BoolOpt_refuses (this : Opt) (b : bool) (h : callback bool) (value : string) :
  fields this = BoolFields b h ->
  defaultHandler this true value
  = (this, Throw (ParseException "Argument does not expect a value")).
Proof. intros Hf. unfold defaultHandler. by rewrite Hf. Qed.

Lemma StrOpt_stores (this : Opt) (v : string) (h : callback string) (value : string) :
  fields this = StrFields v h ->
  defaultHandler this true value
  = (set_fields this (StrFields value h), invoke h value).
Proof. intros Hf. unfold defaultHandler. by rewrite Hf. Qed.

(** C8. The text after "--" is split on its first '=' only. Without a '='
    the whole text is the name and no value is passed. With a '=' the name is
    what precedes the first one and the value is all that follows it, be it
    empty or with further '='. A string option found under that name stores
    this value as it is (the only failure left is the one of its callback)
    and is marked present. *)
Theorem long_option_split :
  (forall (name : string) (w : World),
      Std.find "=" name = None ->
      parseLongName name w = parse_long name false "" w)
  /\ (forall (name value : string) (w : World),
         Std.find "=" name = None ->
         parseLongName (name ++ String "=" value) w = parse_long name true value w)
  /\ (forall (argv0 name value : string) (w : World) (it : nat) (o : Opt)
             (v : string) (h : callback string),
         Std.find "=" name = None ->
         findArgByLongName name w = Some it ->
         objects w !! it = Some o ->
         fields o = StrFields v h ->
         exists (w' : World) (o' : Opt),
           parse 2 [argv0; String "-" (String "-" (name ++ String "=" value))] w
           = (w', wrap_failure name (invoke h value))
           /\ objects w' !! it = Some o'
           /\ get_str o' = Some value
           /\ present o' = true
           /\ (forall r, r <> it -> objects w' !! r = objects w !! r)).
Proof.
  split; [exact parseLongName_no_value|].
  split; [exact parseLongName_value|].
  intros argv0 name value w it o v h Hname Hfind Ho Hf.
  change 2 with (Z.of_nat (length [argv0; String "-" (String "-" (name ++ String "=" value))])).
  rewrite parse_all, scan_long_token.
  2:{ destruct name; [rewrite append_nil_l|rewrite append_cons]; discriminate. }
  rewrite parseLongName_value by done.
  rewrite (parse_long_found _ _ _ _ it o) by done.
  rewrite (StrOpt_stores _ v h) by done. cbn [fst snd].
  eexists. eexists. split; [reflexivity|]. cbn [objects].
  pose proof (lookup_lt_Some _ _ _ Ho) as Hlt.
  split; [by apply list_lookup_insert_eq|].
  split; [reflexivity|]. split; [reflexivity|].
  intros r Hr. by apply list_lookup_insert_ne.
Qed.

Lemma long_option_split_witness :
  (get_str <$> objects
     (fst (parse 2 ["zeta"; "--ls=some other value"] Tests.world3)) !! 3%nat)
  = Some (Some "some other value")
  /\ parseLongName "ls=a=b" Tests.world3 = parse_long "ls" true "a=b" Tests.world3
  /\ parseLongName "is" Tests.world3 = parse_long "is" false "" Tests.world3.
Proof.
  destruct long_option_split as (Hno & Hval & Hstr).
  split; [|split].
  - destruct (Hstr "zeta" "ls" "some other value" Tests.world3 3%nat Tests.ls_long
                "Blah" None) as (w' & o' & Hrun & Ho' & Hget & _).
    + reflexivity.
    + reflexivity.
    + reflexivity.
    + reflexivity.
    + change (parse 2 ["zeta"; "--ls=some other value"] Tests.world3)
        with (parse 2 ["zeta"; String "-" (String "-" ("ls" ++ String "=" "some other value"))]
                Tests.world3).
      rewrite Hrun. cbn [fst]. rewrite Ho'. cbn. by rewrite Hget.
  - apply (Hval "ls" "a=b"). reflexivity.
  - apply Hno. reflexivity.
Defined.

(** ** Short clusters *)

Lemma for_each_flags (names : string) (w : World) :
  for_each names (fun argName => parse_short argName false "") w
  = resolve_each (flags (list_ascii_of_string names)) w.
Proof.
  revert w. induction names as [|c names IH]; intros w; [done|].
  cbn [for_each list_ascii_of_string flags map resolve_each resolve].
  apply bind_ext. intros _ w'. apply IH.
Qed.

Lemma flags_then_value_cons (c c' : ascii) (names : list ascii) (value : string) :
  flags_then_value (c :: c' :: names) value
  = (c, None) :: flags_then_value (c' :: names) value.
Proof. reflexivity. Qed.

(** The indexed loop over the names before the '=': the characters still to
    visit are [todo], those already visited are [prefix]. *)
Lemma for_range_cluster (value todo prefix : string) (w : World) :
  for_range (String.length todo) (String.length prefix)
    (fun i =>
       if negb (Nat.eqb i (String.length (prefix ++ todo) - 1))
       then parse_short (Std.at_ (prefix ++ todo) i) false ""
       else parse_short (Std.at_ (prefix ++ todo) i) true value) w
  = resolve_each (flags_then_value (list_ascii_of_string todo) value) w.
Proof.
  revert prefix w. induction todo as [|c todo IH]; intros prefix w; [done|].
  cbn [String.length for_range list_ascii_of_string].
  rewrite at_append.
  destruct todo as [|c' todo].
  - assert (Hlast : Nat.eqb (String.length prefix)
                      (String.length (prefix ++ String c "") - 1) = true).
    { apply Nat.eqb_eq. rewrite length_append. cbn [String.length]. lia. }
    rewrite Hlast. reflexivity.
  - assert (Hne : Nat.eqb (String.length prefix)
                    (String.length (prefix ++ String c (String c' todo)) - 1)
                  = false).
    { apply Nat.eqb_neq. rewrite length_append. cbn [String.length]. lia. }
    rewrite Hne. cbn [negb list_ascii_of_string].
    rewrite flags_then_value_cons. cbn [resolve_each resolve].
    apply bind_ext. intros _ w'.
    specialize (IH (prefix ++ String c "")%string w').
    rewrite append_assoc, append_cons, append_nil_l in IH.
    rewrite length_append in IH. cbn [String.length] in IH.
    replace (String.length prefix + 1)%nat with (S (String.length prefix)) in IH
      by lia.
    exact IH.
Qed.

Lemma parseShortName_flags (names : string) (w : World) :
  Std.find "=" names = None ->
  parseShortName names w = resolve_each (flags (list_ascii_of_string names)) w.
Proof.
  intros Hnames. unfold parseShortName. rewrite Hnames. apply for_each_flags.
Qed.

Lemma parseShortName_value (names value : string) (w : World) :
  Std.find "=" names = None ->
  parseShortName (names ++ String "=" value) w
  = resolve_each (flags_then_value (list_ascii_of_string names) value) w.
Proof.
  intros Hnames. unfold parseShortName.
  destruct (split_at_first_eq names value Hnames) as (-> & -> & ->).
  apply (for_range_cluster value names "").
Qed.

(** Whatever the coercion does, the resolution of a registered short name
    leaves its descriptor present. *)
Lemma parse_short_marks_present (key : ascii) (isValPresent : bool) (value : string)
    (w : World) (it : nat) :
  findArgByShortName key w = Some it ->
  exists o', objects (fst (parse_short key isValPresent value w)) !! it = Some o'
             /\ present o' = true.
Proof.
  intros Hfind. destruct (findArgByShortName_Some _ _ _ Hfind) as (o & Ho & _).
  rewrite (parse_short_found _ _ _ _ it o) by done. cbn [fst objects].
  rewrite list_lookup_insert_eq by (by eapply lookup_lt_Some).
  eexists. split; [reflexivity|].
  apply (ev_present _ _ (defaultHandler_evolves (setPresent o) isValPresent value)).
  reflexivity.
Qed.

(** The cluster "ij=100" on a Boolean 'i' and a signed-integer 'j' whose
    callbacks, if any, return. *)
Lemma cluster_ij_100 (argv0 : string) (w : World) (ri rj : nat) (oi oj : Opt)
    (bi : bool) (hi : callback bool) (vj : Z) (hj : callback Z) :
  findArgByShortName "i" w = Some ri ->
  objects w !! ri = Some oi ->
  fields oi = BoolFields bi hi ->
  invoke hi true = Normal tt ->
  findArgByShortName "j" w = Some rj ->
  objects w !! rj = Some oj ->
  fields oj = IntFields vj hj ->
  invoke hj 100 = Normal tt ->
  parse 2 [argv0; "-ij=100"] w
  = (mkWorld (<[rj := set_fields (setPresent oj) (IntFields 100 hj)]>
                (<[ri := set_fields (setPresent oi) (BoolFields true hi)]>
                   (objects w)))
             (self w),
     Normal tt).
Proof.
  intros Hi Hoi Hfi Hhi Hj Hoj Hfj Hhj.
  assert (Hij : ri <> rj) by (intros ->; congruence).
  change 2 with (Z.of_nat (length [argv0; "-ij=100"])).
  rewrite parse_all, (scan_short_token "i" "j=100") by discriminate.
  change "ij=100" with ("ij" ++ String "=" "100")%string.
  rewrite parseShortName_value by reflexivity.
  change (resolve_each _ w)
    with (bind (parse_short "i" false "")
               (fun _ => bind (parse_short "j" true "100") (fun _ => ret tt)) w).
  unfold bind at 1.
  rewrite (parse_short_found _ _ _ _ ri oi) by done.
  rewrite (BoolOpt_sets _ bi hi) by done. cbn [fst snd]. rewrite Hhi.
  cbn [wrap_failure]. rewrite bind_ret_r.
  set (w1 := mkWorld _ _).
  assert (Hev : world_evolves w w1).
  { apply (world_evolves_insert w ri oi); [done|].
    eapply evolves_trans; [apply setPresent_evolves|].
    split; [reflexivity|reflexivity|reflexivity|auto|].
    cbn [fields set_fields setPresent]. rewrite Hfi. cbn. auto. }
  assert (Hj1 : findArgByShortName "j" w1 = Some rj)
    by (by rewrite (findArgByShortName_evolves _ w w1)).
  assert (Hoj1 : objects w1 !! rj = Some oj)
    by (subst w1; cbn [objects]; by rewrite list_lookup_insert_ne).
  rewrite (parse_short_found _ _ _ _ rj oj) by done.
  assert (Hstoll : Std.stoll "100" = Normal 100) by (vm_compute; reflexivity).
  rewrite (IntOpt_stores _ vj hj "100" 100) by done.
  cbn [fst snd]. rewrite Hhj. reflexivity.
Qed.

(** C1. A cluster with a '=' resolves every character before the '=' but the
    last as a value-less flag and the last one with the text after the '='
    as its value; a cluster without '=' resolves every character as a
    value-less flag, left to right; every resolution of a registered name
    marks its descriptor present. Parsing "-ij=100" on a registered Boolean
    'i' and signed-integer 'j' ends normally with 'i' present and true, 'j'
    present with value 100, and every other descriptor as it was. *)
Theorem short_cluster :
  (forall (names value : string) (w : World),
      Std.find "=" names = None ->
      parseShortName (names ++ String "=" value) w
      = resolve_each (flags_then_value (list_ascii_of_string names) value) w)
  /\ (forall (names : string) (w : World),
         Std.find "=" names = None ->
         parseShortName names w
         = resolve_each (flags (list_ascii_of_string names)) w)
  /\ (forall (c : ascii) (v : option string) (w : World) (it : nat),
         findArgByShortName c w = Some it ->
         exists o', objects (fst (resolve (c, v) w)) !! it = Some o'
                    /\ present o' = true)
  /\ (forall (argv0 : string) (w : World) (ri rj : nat) (oi oj : Opt)
             (bi : bool) (hi : callback bool) (vj : Z) (hj : callback Z),
         findArgByShortName "i" w = Some ri ->
         objects w !! ri = Some oi ->
         fields oi = BoolFields bi hi ->
         invoke hi true = Normal tt ->
         findArgByShortName "j" w = Some rj ->
         objects w !! rj = Some oj ->
         fields oj = IntFields vj hj ->
         invoke hj 100 = Normal tt ->
         exists (w' : World) (oi' oj' : Opt),
           parse 2 [argv0; "-ij=100"] w = (w', Normal tt)
           /\ objects w' !! ri = Some oi'
           /\ present oi' = true /\ get_bool oi' = Some true
           /\ objects w' !! rj = Some oj'
           /\ present oj' = true /\ get_int oj' = Some 100
           /\ (forall r, r <> ri -> r <> rj -> objects w' !! r = objects w !! r)).
Proof.
  split; [exact parseShortName_value|].
  split; [exact parseShortName_flags|].
  split.
  { intros c [v|] w it Hfind; cbn [resolve];
      by apply parse_short_marks_present. }
  intros argv0 w ri rj oi oj bi hi vj hj Hi Hoi Hfi Hhi Hj Hoj Hfj Hhj.
  assert (Hij : ri <> rj) by (intros ->; congruence).
  pose proof (lookup_lt_Some _ _ _ Hoi) as Hlti.
  pose proof (lookup_lt_Some _ _ _ Hoj) as Hltj.
  rewrite (cluster_ij_100 argv0 w ri rj oi oj bi hi vj hj) by done.
  eexists. exists (set_fields (setPresent oi) (BoolFields true hi)).
  exists (set_fields (setPresent oj) (IntFields 100 hj)).
  split; [reflexivity|]. cbn [objects].
  split.
  { rewrite list_lookup_insert_ne by done. by apply list_lookup_insert_eq. }
  split; [reflexivity|]. split; [reflexivity|].
  split.
  { apply list_lookup_insert_eq. by rewrite length_insert. }
  split; [reflexivity|]. split; [reflexivity|].
  intros r Hri Hrj. by rewrite !list_lookup_insert_ne.
Qed.

Lemma short_cluster_witness :
  (exists w' : World,
      parse 2 ["zeta"; "-ij=100"] Tests.world5 = (w', Normal tt)
      /\ (present <$> objects w' !! 0%nat) = Some true
      /\ (get_bool <$> objects w' !! 0%nat) = Some (Some true)
      /\ (present <$> objects w' !! 1%nat) = Some true
      /\ (get_int <$> objects w' !! 1%nat) = Some (Some 100)
      /\ objects w' !! 2%nat = Some Tests.ks
      /\ objects w' !! 3%nat = Some Tests.ls)
  /\ parseShortName "ij=100" Tests.world5
     = resolve_each [("i"%char, None); ("j"%char, Some "100")] Tests.world5
  /\ parseShortName "ij" Tests.world5
     = resolve_each [("i"%char, None); ("j"%char, None)] Tests.world5.
Proof.
  destruct short_cluster as (Hval & Hflags & Hmark & Hij).
  split; [|split].
  - destruct (Hij "zeta" Tests.world5 0%nat 1%nat Tests.is_ Tests.js
                false None 1100 None)
      as (w' & oi' & oj' & Hrun & Hoi & Hpi & Hbi & Hoj & Hpj & Hvj & Hother).
    1-8: reflexivity.
    exists w'. split; [exact Hrun|].
    rewrite Hoi, Hoj, (Hother 2%nat), (Hother 3%nat) by discriminate.
    cbn [fmap option_fmap option_map]. rewrite Hpi, Hbi, Hpj, Hvj.
    repeat split.
  - apply (Hval "ij" "100"). reflexivity.
  - apply (Hflags "ij"). reflexivity.
Defined.

(** ** Unknown names *)

Lemma resolve_each_app (l1 l2 : list resolution) (w : World) :
  resolve_each (l1 ++ l2) w = bind (resolve_each l1) (fun _ => resolve_each l2) w.
Proof.
  revert w. induction l1 as [|r l1 IH]; intros w; [done|].
  cbn [app resolve_each]. rewrite bind_assoc. apply bind_ext. intros _ w'. apply IH.
Qed.

Lemma find_split (c : ascii) (s : string) (idx : nat) :
  Std.find c s = Some idx ->
  exists names value, s = (names ++ String c value)%string /\ Std.find c names = None.
Proof.
  revert idx. induction s as [|a s IH]; intros idx; cbn [Std.find]; [done|].
  destruct (Ascii.eqb_spec a c) as [->|Hne].
  - intros _. by exists ""%string, s.
  - destruct (Std.find c s) as [i|] eqn:Hs; [|done].
    intros _. destruct (IH i eq_refl) as (names & value & -> & Hnames).
    exists (String a names), value. split; [done|].
    cbn [Std.find]. apply Ascii.eqb_neq in Hne. by rewrite Hne, Hnames.
Qed.

Lemma find_append_None (c : ascii) (s t : string) :
  Std.find c s = None -> Std.find c t = None -> Std.find c (s ++ t) = None.
Proof.
  intros Hs Ht. induction s as [|a s IH]; [done|].
  rewrite append_cons. cbn [Std.find] in *.
  destruct (Ascii.eqb a c); [done|].
  destruct (Std.find c s); [done|]. by rewrite IH.
Qed.

Lemma list_ascii_of_string_append (s t : string) :
  list_ascii_of_string (s ++ t)
  = (list_ascii_of_string s ++ list_ascii_of_string t)%list.
Proof.
  induction s as [|a s IH]; [done|].
  rewrite append_cons. cbn [list_ascii_of_string app]. by rewrite IH.
Qed.

Lemma flags_then_value_app (l1 : list ascii) (c : ascii) (l2 : list ascii)
    (value : string) :
  flags_then_value (l1 ++ c :: l2) value
  = (flags l1 ++ flags_then_value (c :: l2) value)%list.
Proof.
  induction l1 as [|a l1 IH]; [done|].
  destruct l1 as [|a' l1].
  - cbn [app]. by rewrite flags_then_value_cons.
  - cbn [app] in *. rewrite flags_then_value_cons, IH. reflexivity.
Qed.

Lemma resolve_unknown (x : ascii) (v : option string) (w : World) :
  findArgByShortName x w = None ->
  resolve (x, v) w = (w, Throw (ParseException ("No such option " ++ String x ""))).
Proof. intros Hx. destruct v; cbn [resolve]; by apply parse_short_unknown. Qed.

(** A cluster whose character [x] is unknown: the flags before it are
    resolved, then the resolution of [x] fails. *)
Lemma parseShortName_unknown (known : string) (x : ascii) (after : string)
    (w w1 : World) :
  Std.find "=" known = None ->
  x <> "="%char ->
  findArgByShortName x w = None ->
  resolve_each (flags (list_ascii_of_string known)) w = (w1, Normal tt) ->
  parseShortName (known ++ String x after) w
  = (w1, Throw (ParseException ("No such option " ++ String x ""))).
Proof.
  intros Hknown Hx Hfind Hrun. apply Ascii.eqb_neq in Hx.
  assert (Hfind1 : findArgByShortName x w1 = None).
  { rewrite <- Hfind. apply findArgByShortName_evolves.
    pose proof (resolve_each_options_only (flags (list_ascii_of_string known)) w)
      as [H _].
    by rewrite Hrun in H. }
  destruct (Std.find "=" after) as [idx|] eqn:Hafter.
  - destruct (find_split _ _ _ Hafter) as (more & value & -> & Hmore).
    rewrite <- append_cons, <- append_assoc.
    rewrite parseShortName_value.
    2:{ apply find_append_None; [done|]. cbn [Std.find]. by rewrite Hx, Hmore. }
    rewrite list_ascii_of_string_append. cbn [list_ascii_of_string].
    rewrite flags_then_value_app, resolve_each_app.
    unfold bind at 1. rewrite Hrun.
    destruct (list_ascii_of_string more) as [|c' l].
    + change (flags_then_value [x] value) with [(x, Some value)].
      cbn [resolve_each]. unfold bind. by rewrite resolve_unknown.
    + rewrite flags_then_value_cons.
      cbn [resolve_each]. unfold bind. by rewrite resolve_unknown.
  - rewrite parseShortName_flags.
    2:{ apply find_append_None; [done|]. cbn [Std.find]. by rewrite Hx, Hafter. }
    rewrite list_ascii_of_string_append. cbn [list_ascii_of_string].
    unfold flags. rewrite map_app. cbn [map]. rewrite resolve_each_app.
    unfold bind at 1. fold (flags (list_ascii_of_string known)). rewrite Hrun.
    cbn [resolve_each]. unfold bind. by rewrite resolve_unknown.
Qed.

Lemma parse_one (argv0 tok : string) : parse 2 [argv0; tok] = scan [tok].
Proof. exact (parse_all argv0 [tok]). Qed.

(** C6, as stated, fails on a short cluster: in "-ix=4" the character 'x'
    names no registered option and the parse fails with "No such option x",
    but the token has by then marked 'i' present and set its value. *)
Lemma unknown_option_after_flag :
  findArgByShortName "x" Tests.world5 = None
  /\ snd (parse 2 ["zeta"; "-ix=4"] Tests.world5)
     = Throw (ParseException "No such option x")
  /\ objects Tests.world5 !! 0%nat = Some Tests.is_
  /\ objects (fst (parse 2 ["zeta"; "-ix=4"] Tests.world5)) !! 0%nat
     = Some (setPresent (set_fields Tests.is_ (BoolFields true None)))
  /\ objects (fst (parse 2 ["zeta"; "-ix=4"] Tests.world5)) <> objects Tests.world5.
Proof.
  repeat split; try (vm_compute; reflexivity).
  vm_compute. discriminate.
Qed.

(** C6, amended. The resolution of a name, short or long, that no registered
    descriptor bears fails with "No such option <name>" and leaves the world
    as it was. Hence a short-option token whose first character is unknown
    and a long-option token whose name is unknown leave every descriptor as
    it was before the token. In a short cluster, the flags before the
    unknown character are resolved and the world is as they left it. *)
Theorem unknown_option_fails :
  (forall (key : ascii) (isValPresent : bool) (value : string) (w : World),
      findArgByShortName key w = None ->
      parse_short key isValPresent value w
      = (w, Throw (ParseException ("No such option " ++ String key ""))))
  /\ (forall (key : string) (isValPresent : bool) (value : string) (w : World),
         findArgByLongName key w = None ->
         parse_long key isValPresent value w
         = (w, Throw (ParseException ("No such option " ++ key))))
  /\ (forall (argv0 : string) (x : ascii) (after : string) (w : World),
         x <> "-"%char -> x <> "="%char ->
         findArgByShortName x w = None ->
         parse 2 [argv0; String "-" (String x after)] w
         = (w, Throw (ParseException ("No such option " ++ String x ""))))
  /\ (forall (argv0 name : string) (w : World),
         name <> "" -> Std.find "=" name = None ->
         findArgByLongName name w = None ->
         parse 2 [argv0; String "-" (String "-" name)] w
         = (w, Throw (ParseException ("No such option " ++ name))))
  /\ (forall (argv0 name value : string) (w : World),
         Std.find "=" name = None ->
         findArgByLongName name w = None ->
         parse 2 [argv0; String "-" (String "-" (name ++ String "=" value))] w
         = (w, Throw (ParseException ("No such option " ++ name))))
  /\ (forall (known : string) (x : ascii) (after : string) (w w1 : World),
         Std.find "=" known = None ->
         x <> "="%char ->
         findArgByShortName x w = None ->
         resolve_each (flags (list_ascii_of_string known)) w = (w1, Normal tt) ->
         parseShortName (known ++ String x after) w
         = (w1, Throw (ParseException ("No such option " ++ String x "")))).
Proof.
  split; [exact parse_short_unknown|].
  split; [exact parse_long_unknown|].
  split; [|split; [|split]].
  - intros argv0 x after w Hdash Heq Hfind.
    rewrite parse_one, scan_short_token by done.
    by apply (parseShortName_unknown "" x after w w).
  - intros argv0 name w Hname Hno Hfind.
    rewrite parse_one, scan_long_token by done.
    rewrite parseLongName_no_value by done. by apply parse_long_unknown.
  - intros argv0 name value w Hno Hfind.
    rewrite parse_one, scan_long_token.
    2:{ destruct name; [rewrite append_nil_l|rewrite append_cons]; discriminate. }
    rewrite parseLongName_value by done. by apply parse_long_unknown.
  - exact parseShortName_unknown.
Qed.

Lemma unknown_option_fails_witness :
  parse 3 ["zeta"; "--is"; "-x=4"] Tests.world5
  = (fst (parse 2 ["zeta"; "--is"] Tests.world5),
     Throw (ParseException "No such option x"))
  /\ parse 2 ["zeta"; "--xs=4"] Tests.world5
     = (Tests.world5, Throw (ParseException "No such option xs"))
  /\ parseShortName "ix=4" Tests.world5
     = (fst (parse_short "i" false "" Tests.world5),
        Throw (ParseException "No such option x")).
Proof.
  destruct unknown_option_fails as (Hshort & Hlong & Htok & Hname & Hvalue & Hcluster).
  split; [|split].
  - change (parse 3 ["zeta"; "--is"; "-x=4"] Tests.world5)
      with (bind (scan ["--is"]) (fun _ => parse 2 ["zeta"; "-x=4"]) Tests.world5).
    unfold bind.
    change (scan ["--is"] Tests.world5)
      with (fst (parse 2 ["zeta"; "--is"] Tests.world5), @Normal unit tt).
    apply (Htok "zeta" "x"%char "=4"); [discriminate|discriminate|reflexivity].
  - apply (Hvalue "zeta" "xs" "4"); reflexivity.
  - apply (Hcluster "i" "x"%char "=4"); [reflexivity|discriminate|reflexivity|].
    vm_compute. reflexivity.
Defined.

(** ** Failures of the coercion *)

Lemma what_without_NUL (msg : string) :
  ~ In Ascii.zero (list_ascii_of_string msg) -> what msg = msg.
Proof.
  unfold what. induction msg as [|c msg IH]; cbn [Std.c_str list_ascii_of_string In];
    [done|].
  intros Hno. destruct (Ascii.eqb_spec c Ascii.zero) as [->|Hc].
  - exfalso. apply Hno. by left.
  - rewrite IH; [done|]. intros Hin. apply Hno. by right.
Qed.

(** A [ParseException] or an exception of no class the header knows, thrown
    by the callback, leaves the coercion routine as it is. *)
Lemma defaultHandler_callback_raises (o : Opt) (isValPresent : bool)
    (value : string) (e : exn) :
  callback_raises o isValPresent value e ->
  (forall msg, e <> std_out_of_range msg) ->
  (forall msg, e <> std_invalid_argument msg) ->
  snd (defaultHandler o isValPresent value) = Throw e.
Proof.
  intros Hraise Hrange Hformat. unfold defaultHandler.
  destruct Hraise as [o b f value e Hf He|o v f value z e Hf Hz He
                     |o v f value z e Hf Hu Hz He|o v f value e Hf He];
    rewrite Hf; cbn [negb orb]; rewrite ?Hu, ?Hz; cbn [negb orb snd invoke];
    rewrite He; try reflexivity;
    destruct e as [m|m|m|m]; try reflexivity;
    solve [by destruct (Hrange m) | by destruct (Hformat m)].
Qed.

Lemma callback_raises_setPresent (o : Opt) (isValPresent : bool) (value : string)
    (e : exn) :
  callback_raises o isValPresent value e ->
  callback_raises (setPresent o) isValPresent value e.
Proof.
  intros [o' b f value' e' Hf He|o' v f value' z e' Hf Hz He
         |o' v f value' z e' Hf Hu Hz He|o' v f value' e' Hf He].
  - by eapply raises_bool.
  - by eapply raises_int.
  - by eapply raises_uint.
  - by eapply raises_str.
Qed.

(** C9, as stated, fails: the checker of [testOptParser0] throws "Value is
    more that 1000", and the caller of [parse] observes that message behind
    the prefix the resolution adds. *)
Lemma callback_failure_is_prefixed :
  invoke Tests.customChecker 2000
  = Throw (ParseException "Value is more that 1000")
  /\ snd (defaultHandler Tests.js_checked true "2000")
     = Throw (ParseException "Value is more that 1000")
  /\ snd (parse 2 ["zeta"; "--js=2000"] Tests.world_checked)
     = Throw (ParseException "Parsing of js failed: Value is more that 1000")
  /\ snd (parse 2 ["zeta"; "--js=2000"] Tests.world_checked)
     <> Throw (ParseException "Value is more that 1000").
Proof.
  repeat split; try (vm_compute; reflexivity).
  vm_compute. discriminate.
Qed.

(** C9, amended. When the callback of an option throws a [ParseException]
    during coercion, the coercion routine lets it through unchanged and the
    resolution by name prefixes it: the caller of [parse] observes
    "Parsing of <name> failed: " followed by the callback's message (as
    [what()] gives it, which is the message itself when it holds no NUL).
    An exception of a class the header does not name reaches the caller
    unchanged. *)
Theorem callback_failure_propagates (w : World) (it : nat) (o : Opt)
    (isValPresent : bool) (value : string) :
  objects w !! it = Some o ->
  (forall m : string,
      callback_raises o isValPresent value (ParseException m) ->
      snd (defaultHandler o isValPresent value) = Throw (ParseException m)
      /\ (forall key : string,
             findArgByLongName key w = Some it ->
             snd (parse_long key isValPresent value w)
             = Throw (ParseException ("Parsing of " ++ key ++ " failed: " ++ what m)))
      /\ (forall key : ascii,
             findArgByShortName key w = Some it ->
             snd (parse_short key isValPresent value w)
             = Throw (ParseException
                        ("Parsing of " ++ String key "" ++ " failed: " ++ what m)))
      /\ (forall (argv0 key : string) (rest : list string),
             isValPresent = true ->
             Std.find "=" key = None ->
             findArgByLongName key w = Some it ->
             snd (parse (Z.of_nat (length (argv0 :: String "-" (String "-" (key ++ String "=" value)) :: rest)))
                        (argv0 :: String "-" (String "-" (key ++ String "=" value)) :: rest) w)
             = Throw (ParseException ("Parsing of " ++ key ++ " failed: " ++ what m)))
      /\ (~ In Ascii.zero (list_ascii_of_string m) -> what m = m))
  /\ (forall m : string,
         callback_raises o isValPresent value (other_exception m) ->
         snd (defaultHandler o isValPresent value) = Throw (other_exception m)
         /\ (forall key : string,
                findArgByLongName key w = Some it ->
                snd (parse_long key isValPresent value w) = Throw (other_exception m))
         /\ (forall key : ascii,
                findArgByShortName key w = Some it ->
                snd (parse_short key isValPresent value w)
                = Throw (other_exception m))).
Proof.
  intros Ho. split.
  - intros m Hraise.
    assert (Hset : snd (defaultHandler (setPresent o) isValPresent value)
                   = Throw (ParseException m)).
    { apply defaultHandler_callback_raises; [|done..].
      by apply callback_raises_setPresent. }
    assert (Hlong : forall key : string,
               findArgByLongName key w = Some it ->
               snd (parse_long key isValPresent value w)
               = Throw (ParseException ("Parsing of " ++ key ++ " failed: " ++ what m))).
    { intros key Hfind. rewrite (parse_long_found _ _ _ _ it o) by done.
      cbn [snd]. by rewrite Hset. }
    split; [by apply defaultHandler_callback_raises|].
    split; [exact Hlong|]. split; [|split].
    + intros key Hfind. rewrite (parse_short_found _ _ _ _ it o) by done.
      cbn [snd]. by rewrite Hset.
    + intros argv0 key rest -> Hkey Hfind. rewrite parse_all.
      specialize (Hlong key Hfind).
      destruct (parse_long key true value w) as [w' r] eqn:Hres.
      cbn [snd] in Hlong. subst r.
      assert (Htok : scan [String "-" (String "-" (key ++ String "=" value))] w
                     = (w', Throw (ParseException
                                     ("Parsing of " ++ key ++ " failed: " ++ what m)))).
      { rewrite scan_long_token.
        2:{ destruct key; [rewrite append_nil_l|rewrite append_cons]; discriminate. }
        by rewrite parseLongName_value. }
      by rewrite (scan_abort _ rest _ _ _ Htok).
    + apply what_without_NUL.
  - intros m Hraise.
    assert (Hset : snd (defaultHandler (setPresent o) isValPresent value)
                   = Throw (other_exception m)).
    { apply defaultHandler_callback_raises; [|done..].
      by apply callback_raises_setPresent. }
    split; [by apply defaultHandler_callback_raises|]. split.
    + intros key Hfind. rewrite (parse_long_found _ _ _ _ it o) by done.
      cbn [snd]. by rewrite Hset.
    + intros key Hfind. rewrite (parse_short_found _ _ _ _ it o) by done.
      cbn [snd]. by rewrite Hset.
Qed.

Lemma callback_failure_propagates_witness :
  snd (parse 3 ["zeta"; "--js=2000"; "--is"] Tests.world_checked)
  = Throw (ParseException "Parsing of js failed: Value is more that 1000")
  /\ snd (parse_short "j" true "2000" Tests.world_checked)
     = Throw (ParseException "Parsing of j failed: Value is more that 1000").
Proof.
  destruct (callback_failure_propagates Tests.world_checked 1%nat Tests.js_checked
              true "2000") as [Hparse _]; [reflexivity|].
  destruct (Hparse "Value is more that 1000")
    as (_ & _ & Hshort & Hchain & Hwhat).
  - eapply raises_int; [reflexivity|vm_compute; reflexivity|reflexivity].
  - split.
    + exact (Hchain "zeta" "js" ["--is"] eq_refl eq_refl eq_refl).
    + exact (Hshort "j"%char eq_refl).
Defined.

(** ** What the conversions throw, and the text after a name of a cluster *)

(** [stoll] and [stoull] only throw the two exceptions the integer classes
    catch. *)
Lemma stoll_throws (s : string) (e : exn) :
  Std.stoll s = Throw e ->
  e = std_invalid_argument "stoll" \/ e = std_out_of_range "stoll".
Proof.
  unfold Std.stoll. destruct (Std.take_sign _) as [neg body].
  destruct (Std.magnitude body) as [m|]; [|intros [= <-]; by left].
  destruct (_ && _); [done|]. intros [= <-]. by right.
Qed.

Lemma stoull_throws (s : string) (e : exn) :
  Std.stoull s = Throw e ->
  e = std_invalid_argument "stoull" \/ e = std_out_of_range "stoull".
Proof.
  unfold Std.stoull. destruct (Std.take_sign _) as [neg body].
  destruct (Std.magnitude body) as [m|]; [|intros [= <-]; by left].
  destruct (_ <=? _); [done|]. intros [= <-]. by right.
Qed.

Lemma attached_value (value : string) : attached (String "=" value) = (true, value).
Proof. reflexivity. Qed.

Lemma attached_none (a : ascii) (after : string) :
  a <> "="%char -> attached (String a after) = (false, "").
Proof. intros Ha. apply Ascii.eqb_neq in Ha. cbn [attached]. by rewrite Ha. Qed.

Lemma find_cons_None (c a : ascii) (s : string) :
  a <> c -> Std.find c s = None -> Std.find c (String a s) = None.
Proof.
  intros Ha Hs. apply Ascii.eqb_neq in Ha. cbn [Std.find]. by rewrite Ha, Hs.
Qed.


(** ** The header with handlers that write *)

(** *** Sequencing *)

Section LiveSequencing.

Context {Mem : Type}.

Lemma live_bind_assoc {A B C : Type} (m : Live.M Mem A) (k : A -> Live.M Mem B)
    (h : B -> Live.M Mem C) (w : Live.World Mem) :
  Live.bind (Live.bind m k) h w = Live.bind m (fun a => Live.bind (k a) h) w.
Proof. unfold Live.bind. by destruct (m w) as [w' [a|e]]. Qed.

Lemma live_bind_ret_r (m : Live.M Mem unit) (w : Live.World Mem) :
  Live.bind m (fun _ => Live.ret tt) w = m w.
Proof. unfold Live.bind, Live.ret. by destruct (m w) as [w' [[]|e]]. Qed.

Lemma live_bind_ext {A B : Type} (m : Live.M Mem A) (k k' : A -> Live.M Mem B)
    (w : Live.World Mem) :
  (forall a w', k a w' = k' a w') -> Live.bind m k w = Live.bind m k' w.
Proof. intros H. unfold Live.bind. by destruct (m w) as [w' [a|e]]. Qed.

Lemma live_bind_cong_l {A B : Type} (m m' : Live.M Mem A) (k : A -> Live.M Mem B)
    (w : Live.World Mem) :
  m w = m' w -> Live.bind m k w = Live.bind m' k w.
Proof. intros H. unfold Live.bind. by rewrite H. Qed.

Lemma live_bind_normal {A B : Type} (m : Live.M Mem A) (k : A -> Live.M Mem B)
    (w w' : Live.World Mem) (a : A) :
  m w = (w', Normal a) -> Live.bind m k w = k a w'.
Proof. intros H. unfold Live.bind. by rewrite H. Qed.

(** The world a sequence ends in is the one its first part ends in, or one
    the second part reaches from there. *)
Lemma live_bind_fst {A B : Type} (m : Live.M Mem A) (k : A -> Live.M Mem B)
    (w : Live.World Mem) :
  fst (Live.bind m k w) = fst (m w)
  \/ exists a, fst (Live.bind m k w) = fst (k a (fst (m w))).
Proof.
  unfold Live.bind. destruct (m w) as [w' [a|e]]; cbn [fst]; eauto.
Qed.

End LiveSequencing.

(** *** Lookup and resolution *)

Lemma live_find_if_Some (p : Live.Opt -> bool) (objs : list Live.Opt)
    (refs : list nat) (it : nat) :
  Live.find_if p objs refs = Some it ->
  In it refs /\ exists o, objs !! it = Some o /\ p o = true.
Proof.
  induction refs as [|r refs IH]; cbn [Live.find_if]; [done|].
  destruct (objs !! r) as [o|] eqn:Ho.
  - destruct (p o) eqn:Hp.
    + intros [= <-]. split; [by left|eauto].
    + intros H. destruct (IH H) as [Hin Hex]. split; [by right|done].
  - intros H. destruct (IH H) as [Hin Hex]. split; [by right|done].
Qed.

(** The lookup only reads, for each reference, whether the predicate holds
    of the object it designates. *)
Lemma live_find_if_ext (p : Live.Opt -> bool) (objs objs' : list Live.Opt)
    (refs : list nat) :
  (forall r, In r refs -> option_map p (objs' !! r) = option_map p (objs !! r)) ->
  Live.find_if p objs' refs = Live.find_if p objs refs.
Proof.
  induction refs as [|r refs IH]; intros Hext; [done|].
  cbn [Live.find_if]. pose proof (Hext r (or_introl eq_refl)) as Hr.
  rewrite IH by (intros r' Hr'; apply Hext; by right).
  destruct (objs' !! r) as [o'|], (objs !! r) as [o|]; cbn [option_map] in Hr;
    try done.
  by injection Hr as ->.
Qed.

Section LiveResolution.

Context {Mem : Type} (hs : Live.Handlers Mem).

Lemma live_findArgByLongName_Some (key : string) (w : Live.World Mem) (it : nat) :
  Live.findArgByLongName key w = Some it ->
  In it (argOptions (Live.self w))
  /\ exists o, Live.objects w !! it = Some o /\ Live.longName o = key.
Proof.
  intros H. apply live_find_if_Some in H as [Hin (o & Ho & Hp)].
  split; [done|]. exists o. split; [done|]. by apply String.eqb_eq.
Qed.

Lemma live_findArgByShortName_Some (key : ascii) (w : Live.World Mem) (it : nat) :
  Live.findArgByShortName key w = Some it ->
  In it (argOptions (Live.self w))
  /\ exists o, Live.objects w !! it = Some o /\ Live.shortName o = key.
Proof.
  intros H. apply live_find_if_Some in H as [Hin (o & Ho & Hp)].
  split; [done|]. exists o. split; [done|]. by apply Ascii.eqb_eq.
Qed.

(** What the [try] block of the two resolution functions does once the name
    is found: the descriptor is marked present, then coerced. *)
Lemma live_setPresent_at (it : nat) (o : Live.Opt) (w : Live.World Mem) :
  Live.objects w !! it = Some o ->
  Live.setPresent it w = (Live.store it (Live.mark o) w, Normal tt).
Proof. intros Ho. unfold Live.setPresent. by rewrite Ho. Qed.

Lemma live_store_lookup (it : nat) (o o' : Live.Opt) (w : Live.World Mem) :
  Live.objects w !! it = Some o ->
  Live.objects (Live.store it o' w) !! it = Some o'.
Proof.
  intros Ho. cbn [Live.store Live.objects].
  apply list_lookup_insert_eq. by eapply lookup_lt_Some.
Qed.

Lemma live_store_store (it : nat) (o o' : Live.Opt) (w : Live.World Mem) :
  Live.store it o' (Live.store it o w) = Live.store it o' w.
Proof.
  unfold Live.store. cbn [Live.objects Live.self Live.captured].
  by rewrite list_insert_insert_eq.
Qed.

Lemma live_try_catch_wrap (name : string) (body : Live.M Mem unit)
    (w : Live.World Mem) :
  Live.try_catch_ParseException body
    (fun msg =>
       Live.throw (ParseException ("Parsing of " ++ name ++ " failed: " ++ what msg)))
    w
  = (fst (body w), wrap_failure name (snd (body w))).
Proof.
  unfold Live.try_catch_ParseException, Live.throw.
  destruct (body w) as [w' [[]|[msg|msg|msg|msg]]]; reflexivity.
Qed.

Lemma live_parse_long_found (key : string) (isValPresent : bool) (value : string)
    (w : Live.World Mem) (it : nat) (o : Live.Opt) :
  Live.findArgByLongName key w = Some it ->
  Live.objects w !! it = Some o ->
  Live.parse_long hs key isValPresent value w
  = (fst (Live.defaultHandler hs it isValPresent value
            (Live.store it (Live.mark o) w)),
     wrap_failure key
       (snd (Live.defaultHandler hs it isValPresent value
               (Live.store it (Live.mark o) w)))).
Proof.
  intros Hfind Ho. unfold Live.parse_long. rewrite Hfind.
  rewrite live_try_catch_wrap.
  by rewrite (live_bind_normal _ _ _ _ _ (live_setPresent_at it o w Ho)).
Qed.

Lemma live_parse_short_found (key : ascii) (isValPresent : bool) (value : string)
    (w : Live.World Mem) (it : nat) (o : Live.Opt) :
  Live.findArgByShortName key w = Some it ->
  Live.objects w !! it = Some o ->
  Live.parse_short hs key isValPresent value w
  = (fst (Live.defaultHandler hs it isValPresent value
            (Live.store it (Live.mark o) w)),
     wrap_failure (String key "")
       (snd (Live.defaultHandler hs it isValPresent value
               (Live.store it (Live.mark o) w)))).
Proof.
  intros Hfind Ho. unfold Live.parse_short. rewrite Hfind.
  rewrite live_try_catch_wrap.
  by rewrite (live_bind_normal _ _ _ _ _ (live_setPresent_at it o w Ho)).
Qed.

Lemma live_parse_long_unknown (key : string) (isValPresent : bool) (value : string)
    (w : Live.World Mem) :
  Live.findArgByLongName key w = None ->
  Live.parse_long hs key isValPresent value w
  = (w, Throw (ParseException ("No such option " ++ key))).
Proof. intros Hfind. unfold Live.parse_long. by rewrite Hfind. Qed.

Lemma live_parse_short_unknown (key : ascii) (isValPresent : bool) (value : string)
    (w : Live.World Mem) :
  Live.findArgByShortName key w = None ->
  Live.parse_short hs key isValPresent value w
  = (w, Throw (ParseException ("No such option " ++ String key ""))).
Proof. intros Hfind. unfold Live.parse_short. by rewrite Hfind. Qed.

(** The coercion of a Boolean option. *)
Lemma live_BoolOpt_refuses (this : nat) (o : Live.Opt) (b : bool) (h : option nat)
    (value : string) (w : Live.World Mem) :
  Live.objects w !! this = Some o ->
  Live.fields o = Live.BoolFields b h ->
  Live.defaultHandler hs this true value w
  = (w, Throw (ParseException "Argument does not expect a value")).
Proof. intros Ho Hf. unfold Live.defaultHandler. by rewrite Ho, Hf. Qed.

Lemma live_BoolOpt_sets (this : nat) (o : Live.Opt) (b : bool) (h : option nat)
    (value : string) (w : Live.World Mem) :
  Live.objects w !! this = Some o ->
  Live.fields o = Live.BoolFields b h ->
  Live.defaultHandler hs this false value w
  = Live.invoke (Live.on_bool hs) h true
      (Live.store this (Live.set_fields o (Live.BoolFields true h)) w).
Proof. intros Ho Hf. unfold Live.defaultHandler. by rewrite Ho, Hf. Qed.

End LiveResolution.

(** *** What every parse run maintains, given that the handlers do *)

Section LiveCarried.

Context {Mem : Type} (hs : Live.Handlers Mem).
Variable R : Live.World Mem -> Live.World Mem -> Prop.
Hypothesis R_refl : forall w, R w w.
Hypothesis R_trans : forall w1 w2 w3, R w1 w2 -> R w2 w3 -> R w1 w3.
Hypothesis R_own : forall w w', Live.own_step w w' -> R w w'.
Hypothesis R_handlers : Live.maintained hs R.

Lemma live_bind_carries {A B : Type} (m : Live.M Mem A) (k : A -> Live.M Mem B) :
  (forall w, R w (fst (m w))) ->
  (forall a w, R w (fst (k a w))) ->
  forall w, R w (fst (Live.bind m k w)).
Proof.
  intros Hm Hk w. destruct (live_bind_fst m k w) as [->|[a ->]]; [apply Hm|].
  eapply R_trans; [apply Hm|apply Hk].
Qed.

Lemma live_for_each_carries (str : string) (body : ascii -> Live.M Mem unit) :
  (forall c w, R w (fst (body c w))) ->
  forall w, R w (fst (Live.for_each str body w)).
Proof.
  intros Hbody. induction str as [|c str IH]; cbn [Live.for_each]; [apply R_refl|].
  by apply live_bind_carries.
Qed.

Lemma live_for_range_carries (count from : nat) (body : nat -> Live.M Mem unit) :
  (forall i w, R w (fst (body i w))) ->
  forall w, R w (fst (Live.for_range count from body w)).
Proof.
  intros Hbody. revert from.
  induction count as [|count IH]; intros from; cbn [Live.for_range]; [apply R_refl|].
  apply live_bind_carries; [done|]. intros _. apply IH.
Qed.

Lemma live_invoke_carries {A : Type} (code : nat -> A -> Live.M Mem unit)
    (userHandler : option nat) (v : A) :
  (forall h v w, R w (fst (code h v w))) ->
  forall w, R w (fst (Live.invoke code userHandler v w)).
Proof. intros Hcode w. destruct userHandler as [h|]; [apply Hcode|apply R_refl]. Qed.

Lemma live_defaultHandler_carries (this : nat) (isPresent : bool) (value : string)
    (w : Live.World Mem) :
  In this (argOptions (Live.self w)) ->
  R w (fst (Live.defaultHandler hs this isPresent value w)).
Proof.
  intros Hin. destruct R_handlers as (Hb & Hi & Hu & Hs).
  unfold Live.defaultHandler.
  destruct (Live.objects w !! this) as [o|] eqn:Ho; [|apply R_refl].
  destruct (Live.fields o) as [|b h|v h|v h|v h] eqn:Hf; [apply R_refl|..].
  - destruct isPresent; [apply R_refl|].
    eapply R_trans; [|by apply live_invoke_carries].
    apply R_own, Live.step_assign; [done..|]. by rewrite Hf.
  - destruct (negb isPresent); [apply R_refl|].
    destruct (Std.stoll value) as [z|e]; [|apply R_refl].
    unfold Live.try_catch.
    match goal with |- context [Live.invoke ?c ?h ?v ?w0] =>
      pose proof (live_invoke_carries c h v Hi w0) as Hrun;
      destruct (Live.invoke c h v w0) as [w' r] end.
    cbn [fst] in *. eapply R_trans; [|exact Hrun].
    apply R_own, Live.step_assign; [done..|]. by rewrite Hf.
  - destruct (negb isPresent || negb (isUint value)); [apply R_refl|].
    destruct (Std.stoull value) as [z|e]; [|apply R_refl].
    unfold Live.try_catch.
    match goal with |- context [Live.invoke ?c ?h ?v ?w0] =>
      pose proof (live_invoke_carries c h v Hu w0) as Hrun;
      destruct (Live.invoke c h v w0) as [w' r] end.
    cbn [fst] in *. eapply R_trans; [|exact Hrun].
    apply R_own, Live.step_assign; [done..|]. by rewrite Hf.
  - destruct (negb isPresent); [apply R_refl|].
    eapply R_trans; [|by apply live_invoke_carries].
    apply R_own, Live.step_assign; [done..|]. by rewrite Hf.
Qed.

Lemma live_resolved_carries (it : nat) (o : Live.Opt) (isPresent : bool)
    (value : string) (w : Live.World Mem) :
  In it (argOptions (Live.self w)) ->
  Live.objects w !! it = Some o ->
  R w (fst (Live.defaultHandler hs it isPresent value (Live.store it (Live.mark o) w))).
Proof.
  intros Hin Ho. eapply R_trans.
  - by apply R_own, (Live.step_mark w it o).
  - by apply live_defaultHandler_carries.
Qed.

Lemma live_parse_long_carries (key : string) (isValPresent : bool) (value : string)
    (w : Live.World Mem) :
  R w (fst (Live.parse_long hs key isValPresent value w)).
Proof.
  destruct (Live.findArgByLongName key w) as [it|] eqn:Hfind.
  - destruct (live_findArgByLongName_Some _ _ _ Hfind) as (Hin & o & Ho & _).
    rewrite (live_parse_long_found hs _ _ _ _ it o) by done.
    by apply live_resolved_carries.
  - rewrite live_parse_long_unknown by done. apply R_refl.
Qed.

Lemma live_parse_short_carries (key : ascii) (isValPresent : bool) (value : string)
    (w : Live.World Mem) :
  R w (fst (Live.parse_short hs key isValPresent value w)).
Proof.
  destruct (Live.findArgByShortName key w) as [it|] eqn:Hfind.
  - destruct (live_findArgByShortName_Some _ _ _ Hfind) as (Hin & o & Ho & _).
    rewrite (live_parse_short_found hs _ _ _ _ it o) by done.
    by apply live_resolved_carries.
  - rewrite live_parse_short_unknown by done. apply R_refl.
Qed.

Lemma live_parseShortName_carries (token : string) (w : Live.World Mem) :
  R w (fst (Live.parseShortName hs token w)).
Proof.
  unfold Live.parseShortName. destruct (Std.find "=" token) as [idx|].
  - revert w. apply live_for_range_carries.
    intros i w. destruct (negb _); apply live_parse_short_carries.
  - revert w. apply live_for_each_carries.
    intros c w. apply live_parse_short_carries.
Qed.

Lemma live_parseLongName_carries (token : string) (w : Live.World Mem) :
  R w (fst (Live.parseLongName hs token w)).
Proof.
  unfold Live.parseLongName. destruct (Std.find "=" token) as [idx|];
    apply live_parse_long_carries.
Qed.

Lemma live_parseProgramName_carries (name : string) (w : Live.World Mem) :
  R w (fst (Live.parseProgramName name w)).
Proof.
  unfold Live.parseProgramName.
  destruct (String.eqb_spec (programName (Live.self w)) "") as [Hname|Hname];
    cbn [negb]; [|apply R_refl].
  by apply R_own, Live.step_programName.
Qed.

Lemma live_scan_carries (tokens : list string) (w : Live.World Mem) :
  R w (fst (Live.scan hs tokens w)).
Proof.
  revert w. induction tokens as [|current rest IH]; intros w; cbn [Live.scan].
  - apply R_refl.
  - destruct (String.length current <? 2)%nat.
    { revert w. apply live_bind_carries; [apply live_parseProgramName_carries|].
      intros _. apply IH. }
    destruct (String.eqb current "--").
    { destruct (String.eqb_spec (programName (Live.self w)) "") as [Hname|Hname];
        [apply R_refl|].
      by apply R_own, Live.step_programArgs. }
    destruct (Ascii.eqb (Std.at_ current 0) "-").
    + revert w. apply live_bind_carries; [|intros _; apply IH].
      intros w. destruct (Ascii.eqb (Std.at_ current 1) "-");
        [apply live_parseLongName_carries|apply live_parseShortName_carries].
    + revert w. apply live_bind_carries; [apply live_parseProgramName_carries|].
      intros _. apply IH.
Qed.

(** A parse run is a sequence of writes of the parser's own and of runs of
    the handlers: a reflexive and transitive relation that holds of both
    holds of the run, however it ends. *)
Lemma live_parse_carries (argc : Z) (argv : list string) (w : Live.World Mem) :
  R w (fst (Live.parse hs argc argv w)).
Proof. unfold Live.parse. apply live_scan_carries. Qed.

End LiveCarried.

(** *** Three relations the parser's own writes maintain *)

Section LiveRelations.

Context {Mem : Type}.
Implicit Types w : Live.World Mem.

Lemma Booleans_kept_refl w : Live.Booleans_kept w w.
Proof. intros it o b Ho Hb. exists o, b. by repeat split. Qed.

Lemma Booleans_kept_trans w1 w2 w3 :
  Live.Booleans_kept w1 w2 -> Live.Booleans_kept w2 w3 -> Live.Booleans_kept w1 w3.
Proof.
  intros H12 H23 it o b Ho Hb.
  destruct (H12 it o b Ho Hb) as (o2 & b2 & Ho2 & Hb2 & Hv2 & Hp2).
  destruct (H23 it o2 b2 Ho2 Hb2) as (o3 & b3 & Ho3 & Hb3 & Hv3 & Hp3).
  exists o3, b3. repeat split; auto.
Qed.

(** Writing at [it] a descriptor that is as Boolean, as true and as present
    as the one it replaces. *)
Lemma Booleans_kept_store w (it : nat) (o o' : Live.Opt) :
  Live.objects w !! it = Some o ->
  (forall b, Live.get_bool o = Some b ->
             exists b', Live.get_bool o' = Some b' /\ (b = true -> b' = true)) ->
  (Live.present o = true -> Live.present o' = true) ->
  Live.Booleans_kept w (Live.store it o' w).
Proof.
  intros Ho Hval Hpres r o0 b Ho0 Hb. cbn [Live.store Live.objects].
  destruct (decide (r = it)) as [->|Hne].
  - rewrite Ho in Ho0. injection Ho0 as <-.
    destruct (Hval b Hb) as (b' & Hb' & Hv).
    exists o', b'. rewrite list_lookup_insert_eq by (by eapply lookup_lt_Some).
    by repeat split.
  - exists o0, b. rewrite list_lookup_insert_ne by done. by repeat split.
Qed.

Lemma Booleans_kept_own w w' : Live.own_step w w' -> Live.Booleans_kept w w'.
Proof.
  intros [w0 it o Hin Ho|w0 it o f' Hin Ho Hf|w0 name Hname|w0 argv Hname].
  - apply (Booleans_kept_store w0 it o); [done| |done]. intros b Hb. by exists b.
  - apply (Booleans_kept_store w0 it o); [done| |done].
    intros b. unfold Live.get_bool. cbn [Live.set_fields Live.fields].
    destruct (Live.fields o) as [|b0 h| | |], f' as [|b' h'| | |]; try done.
    destruct Hf as [_ ->]. intros _. by exists true.
  - intros r o b Ho Hb. exists o, b. by repeat split.
  - intros r o b Ho Hb. exists o, b. by repeat split.
Qed.

Lemma same_class_refl (f : Live.Fields) : Live.same_class f f.
Proof. by destruct f. Qed.

Lemma same_class_trans (f g h : Live.Fields) :
  Live.same_class f g -> Live.same_class g h -> Live.same_class f h.
Proof. destruct f, g, h; cbn; try done; congruence. Qed.

Lemma assigned_same_class (f f' : Live.Fields) :
  Live.assigned f f' -> Live.same_class f f'.
Proof. destruct f, f'; cbn; try done. by intros [-> _]. Qed.

Lemma kept_refl (o : Live.Opt) : Live.kept o o.
Proof. split; try done. apply same_class_refl. Qed.

Lemma kept_trans (o1 o2 o3 : Live.Opt) :
  Live.kept o1 o2 -> Live.kept o2 o3 -> Live.kept o1 o3.
Proof.
  intros [] []. split; try congruence; [auto|]. by eapply same_class_trans.
Qed.

Lemma descriptors_kept_refl w : Live.descriptors_kept w w.
Proof.
  split; [|done]. apply Forall_Forall2_diag, Forall_forall.
  intros o _. apply kept_refl.
Qed.

Lemma descriptors_kept_trans w1 w2 w3 :
  Live.descriptors_kept w1 w2 -> Live.descriptors_kept w2 w3 ->
  Live.descriptors_kept w1 w3.
Proof.
  intros [H12 Ha12] [H23 Ha23]. split; [|congruence].
  eapply Forall2_trans; [|exact H12|exact H23]. apply kept_trans.
Qed.

Lemma descriptors_kept_store w (it : nat) (o o' : Live.Opt) :
  Live.objects w !! it = Some o -> Live.kept o o' ->
  Live.descriptors_kept w (Live.store it o' w).
Proof.
  intros Ho Hk. split; [|done]. cbn [Live.store Live.objects].
  rewrite <- (list_insert_id (Live.objects w) it o Ho) at 1.
  apply Forall2_insert; [|done]. apply (descriptors_kept_refl w).
Qed.

Lemma descriptors_kept_own w w' : Live.own_step w w' -> Live.descriptors_kept w w'.
Proof.
  intros [w0 it o Hin Ho|w0 it o f' Hin Ho Hf|w0 name Hname|w0 argv Hname].
  - apply (descriptors_kept_store w0 it o); [done|].
    split; try done. apply same_class_refl.
  - apply (descriptors_kept_store w0 it o); [done|].
    split; try done. by apply assigned_same_class.
  - split; [|done]. apply (descriptors_kept_refl w0).
  - split; [|done]. apply (descriptors_kept_refl w0).
Qed.

Lemma unregistered_untouched_refl w : Live.unregistered_untouched w w.
Proof. by split. Qed.

Lemma unregistered_untouched_trans w1 w2 w3 :
  Live.unregistered_untouched w1 w2 -> Live.unregistered_untouched w2 w3 ->
  Live.unregistered_untouched w1 w3.
Proof.
  intros [Ha12 H12] [Ha23 H23]. split; [congruence|].
  intros r Hr. rewrite H23 by (by rewrite Ha12). by apply H12.
Qed.

Lemma unregistered_untouched_own w w' :
  Live.own_step w w' -> Live.unregistered_untouched w w'.
Proof.
  intros [w0 it o Hin Ho|w0 it o f' Hin Ho Hf|w0 name Hname|w0 argv Hname];
    (split; [done|]); intros r Hr; cbn [Live.store Live.objects fst
                                          Live.set_programName Live.set_programArgs];
    try done; apply list_lookup_insert_ne; intros ->; by apply Hr.
Qed.

(** Handlers that leave the descriptors and the parser alone maintain any
    relation that only looks at them. *)
Lemma quiet_maintains (hs : Live.Handlers Mem)
    (R : Live.World Mem -> Live.World Mem -> Prop) :
  (forall w w', Live.objects w' = Live.objects w -> Live.self w' = Live.self w ->
                R w w') ->
  Live.quiet hs -> Live.maintained hs R.
Proof.
  intros HR (Hb & Hi & Hu & Hs).
  repeat split; intros h v w; apply HR;
    solve [apply Hb | apply Hi | apply Hu | apply Hs].
Qed.

Lemma quiet_Booleans_kept (hs : Live.Handlers Mem) :
  Live.quiet hs -> Live.maintained hs Live.Booleans_kept.
Proof.
  apply quiet_maintains. intros w w' Ho _ it o b Hit Hb.
  exists o, b. rewrite Ho. by repeat split.
Qed.

Lemma quiet_descriptors_kept (hs : Live.Handlers Mem) :
  Live.quiet hs -> Live.maintained hs Live.descriptors_kept.
Proof.
  apply quiet_maintains. intros w w' Ho Hs. split; [|by rewrite Hs].
  rewrite Ho. apply (descriptors_kept_refl w).
Qed.

Lemma quiet_unregistered_untouched (hs : Live.Handlers Mem) :
  Live.quiet hs -> Live.maintained hs Live.unregistered_untouched.
Proof.
  apply quiet_maintains. intros w w' Ho Hs. split; [by rewrite Hs|].
  intros r _. by rewrite Ho.
Qed.

End LiveRelations.

(** *** Tokens and clusters *)

Section LiveTokens.

Context {Mem : Type} (hs : Live.Handlers Mem).
Implicit Types w : Live.World Mem.

Lemma live_parse_all (argv0 : string) (tokens : list string) :
  Live.parse hs (Z.of_nat (length (argv0 :: tokens))) (argv0 :: tokens)
  = Live.scan hs tokens.
Proof. unfold Live.parse. rewrite Nat2Z.id. by rewrite firstn_all. Qed.

Lemma live_scan_cons (current : string) (rest : list string) w :
  current <> "--" ->
  Live.scan hs (current :: rest) w
  = Live.bind (Live.scan hs [current]) (fun _ => Live.scan hs rest) w.
Proof.
  intros Hne. apply String.eqb_neq in Hne. cbn [Live.scan]. rewrite Hne.
  destruct (String.length current <? 2)%nat.
  { rewrite live_bind_assoc. apply live_bind_ext. intros _ w'. reflexivity. }
  destruct (Ascii.eqb (Std.at_ current 0) "-").
  - rewrite live_bind_assoc. apply live_bind_ext. intros _ w'. reflexivity.
  - rewrite live_bind_assoc. apply live_bind_ext. intros _ w'. reflexivity.
Qed.

Lemma live_scan_app (pre tokens : list string) w :
  ~ In "--" pre ->
  Live.scan hs (pre ++ tokens) w
  = Live.bind (Live.scan hs pre) (fun _ => Live.scan hs tokens) w.
Proof.
  revert w. induction pre as [|current pre IH]; intros w Hpre.
  - reflexivity.
  - cbn [In] in Hpre.
    assert (Hne : current <> "--") by (intros ->; apply Hpre; by left).
    rewrite <- app_comm_cons, live_scan_cons by done.
    rewrite (live_bind_cong_l (Live.scan hs (current :: pre))
               (Live.bind (Live.scan hs [current]) (fun _ => Live.scan hs pre)))
      by (by apply live_scan_cons).
    rewrite live_bind_assoc. apply live_bind_ext. intros _ w'. apply IH. tauto.
Qed.

Lemma live_scan_long_token (body : string) w :
  body <> "" ->
  Live.scan hs [String "-" (String "-" body)] w = Live.parseLongName hs body w.
Proof.
  intros Hbody. destruct body as [|c body]; [done|].
  cbn [Live.scan String.length Nat.ltb Nat.leb Std.at_ String.get advance].
  change (String.eqb _ "--") with (String.eqb (String c body) "").
  cbn [String.eqb Ascii.eqb Bool.eqb]. apply live_bind_ret_r.
Qed.

Lemma live_scan_short_body (body : string) w :
  Std.at_ body 0 <> "-"%char ->
  body <> "" ->
  Live.scan hs [String "-" body] w = Live.parseShortName hs body w.
Proof.
  intros Hdash Hne. destruct body as [|c body]; [done|].
  assert (Hc : c <> "-"%char) by exact Hdash.
  apply Ascii.eqb_neq in Hc.
  cbn [Live.scan String.length Nat.ltb Nat.leb Std.at_ String.get advance].
  change (String.eqb _ "--") with (Ascii.eqb c "-" && String.eqb body "")%bool.
  rewrite Hc. cbn [andb Ascii.eqb Bool.eqb]. apply live_bind_ret_r.
Qed.

Lemma live_parseLongName_no_value (name : string) w :
  Std.find "=" name = None ->
  Live.parseLongName hs name w = Live.parse_long hs name false "" w.
Proof. intros Hname. unfold Live.parseLongName. by rewrite Hname. Qed.

Lemma live_parseLongName_value (name value : string) w :
  Std.find "=" name = None ->
  Live.parseLongName hs (name ++ String "=" value) w
  = Live.parse_long hs name true value w.
Proof.
  intros Hname. unfold Live.parseLongName.
  destruct (split_at_first_eq name value Hname) as (-> & -> & ->). done.
Qed.

Lemma live_resolve_each_app (l1 l2 : list resolution) w :
  Live.resolve_each hs (l1 ++ l2) w
  = Live.bind (Live.resolve_each hs l1) (fun _ => Live.resolve_each hs l2) w.
Proof.
  revert w. induction l1 as [|r l1 IH]; intros w; [done|].
  cbn [app Live.resolve_each]. rewrite live_bind_assoc.
  apply live_bind_ext. intros _ w'. apply IH.
Qed.

Lemma live_for_each_flags (names : string) w :
  Live.for_each names (fun argName => Live.parse_short hs argName false "") w
  = Live.resolve_each hs (flags (list_ascii_of_string names)) w.
Proof.
  revert w. induction names as [|c names IH]; intros w; [done|].
  cbn [Live.for_each list_ascii_of_string flags map Live.resolve_each Live.resolve].
  apply live_bind_ext. intros _ w'. apply IH.
Qed.

(** The indexed loop over the names before the '=': the characters still to
    visit are [todo], those already visited are [prefix]. *)
Lemma live_for_range_cluster (value todo prefix : string) w :
  Live.for_range (String.length todo) (String.length prefix)
    (fun i =>
       if negb (Nat.eqb i (String.length (prefix ++ todo) - 1))
       then Live.parse_short hs (Std.at_ (prefix ++ todo) i) false ""
       else Live.parse_short hs (Std.at_ (prefix ++ todo) i) true value) w
  = Live.resolve_each hs (flags_then_value (list_ascii_of_string todo) value) w.
Proof.
  revert prefix w. induction todo as [|c todo IH]; intros prefix w; [done|].
  cbn [String.length Live.for_range list_ascii_of_string].
  rewrite at_append.
  destruct todo as [|c' todo].
  - assert (Hlast : Nat.eqb (String.length prefix)
                      (String.length (prefix ++ String c "") - 1) = true).
    { apply Nat.eqb_eq. rewrite length_append. cbn [String.length]. lia. }
    rewrite Hlast. reflexivity.
  - assert (Hne : Nat.eqb (String.length prefix)
                    (String.length (prefix ++ String c (String c' todo)) - 1)
                  = false).
    { apply Nat.eqb_neq. rewrite length_append. cbn [String.length]. lia. }
    rewrite Hne. cbn [negb list_ascii_of_string].
    rewrite flags_then_value_cons. cbn [Live.resolve_each Live.resolve].
    apply live_bind_ext. intros _ w'.
    specialize (IH (prefix ++ String c "")%string w').
    rewrite append_assoc, append_cons, append_nil_l in IH.
    rewrite length_append in IH. cbn [String.length] in IH.
    replace (String.length prefix + 1)%nat with (S (String.length prefix)) in IH
      by lia.
    exact IH.
Qed.

Lemma live_parseShortName_flags (names : string) w :
  Std.find "=" names = None ->
  Live.parseShortName hs names w
  = Live.resolve_each hs (flags (list_ascii_of_string names)) w.
Proof.
  intros Hnames. unfold Live.parseShortName. rewrite Hnames.
  apply live_for_each_flags.
Qed.

Lemma live_parseShortName_value (names value : string) w :
  Std.find "=" names = None ->
  Live.parseShortName hs (names ++ String "=" value) w
  = Live.resolve_each hs (flags_then_value (list_ascii_of_string names) value) w.
Proof.
  intros Hnames. unfold Live.parseShortName.
  destruct (split_at_first_eq names value Hnames) as (-> & -> & ->).
  apply (live_for_range_cluster value names "").
Qed.

(** A name [c] of a cluster: the flags before it are resolved, then [c] is,
    with the value if a '=' follows it, then the names after it, if any. *)
Lemma live_parseShortName_at (known : string) (c : ascii) (after : string) :
  Std.find "=" known = None ->
  c <> "="%char ->
  exists l : list resolution,
    forall w,
      Live.parseShortName hs (known ++ String c after) w
      = Live.bind (Live.resolve_each hs (flags (list_ascii_of_string known)))
          (fun _ =>
             Live.bind
               (Live.parse_short hs c (fst (attached after)) (snd (attached after)))
               (fun _ => Live.resolve_each hs l)) w.
Proof.
  intros Hknown Hc. pose proof Hc as Hc'. apply Ascii.eqb_neq in Hc'.
  destruct after as [|a after].
  - (* [c] is the last character and there is no '=' *)
    exists []. intros w. cbn [attached fst snd].
    rewrite live_parseShortName_flags.
    2:{ apply find_append_None; [done|]. cbn [Std.find]. by rewrite Hc'. }
    rewrite list_ascii_of_string_append. cbn [list_ascii_of_string].
    unfold flags. rewrite map_app. cbn [map]. by rewrite live_resolve_each_app.
  - destruct (Ascii.eqb_spec a "=") as [->|Ha].
    + (* [c] is the last name and takes the value *)
      exists []. intros w. rewrite attached_value. cbn [fst snd].
      change (String c (String "=" after))
        with (String c "" ++ String "=" after)%string.
      rewrite <- append_assoc.
      rewrite live_parseShortName_value.
      2:{ apply find_append_None; [done|]. cbn [Std.find]. by rewrite Hc'. }
      rewrite list_ascii_of_string_append.
      change (list_ascii_of_string (String c "")) with [c].
      by rewrite flags_then_value_app, live_resolve_each_app.
    + (* another name follows [c], which is a flag *)
      rewrite (attached_none a after Ha). cbn [fst snd].
      destruct (Std.find "=" (String a after)) as [idx|] eqn:Hafter.
      * destruct (find_split _ _ _ Hafter) as (more & value & Heq & Hmore).
        exists (flags_then_value (list_ascii_of_string more) value).
        intros w. rewrite Heq. rewrite <- append_cons, <- append_assoc.
        rewrite live_parseShortName_value.
        2:{ apply find_append_None; [done|]. cbn [Std.find]. by rewrite Hc', Hmore. }
        rewrite list_ascii_of_string_append. cbn [list_ascii_of_string].
        rewrite flags_then_value_app, live_resolve_each_app.
        apply live_bind_ext. intros _ w'.
        destruct more as [|a' more].
        { rewrite append_nil_l in Heq. injection Heq as Ha' Hv. by destruct Ha. }
        cbn [list_ascii_of_string]. by rewrite flags_then_value_cons.
      * exists (flags (list_ascii_of_string (String a after))).
        intros w. rewrite live_parseShortName_flags.
        2:{ apply find_append_None; [done|]. by apply find_cons_None. }
        rewrite list_ascii_of_string_append. cbn [list_ascii_of_string].
        unfold flags. rewrite map_app. cbn [map]. by rewrite live_resolve_each_app.
Qed.

End LiveTokens.

(** *** Where a token leaves the memory, and what the run reaches from there *)

Section LiveReached.

Context {Mem : Type} (hs : Live.Handlers Mem).
Variable R : Live.World Mem -> Live.World Mem -> Prop.
Hypothesis R_refl : forall w, R w w.
Hypothesis R_trans : forall w1 w2 w3, R w1 w2 -> R w2 w3 -> R w1 w3.
Hypothesis R_own : forall w w', Live.own_step w w' -> R w w'.
Hypothesis R_handlers : Live.maintained hs R.

Lemma live_resolve_each_carries (l : list resolution) (w : Live.World Mem) :
  R w (fst (Live.resolve_each hs l w)).
Proof.
  revert w. induction l as [|[c [value|]] l IH]; cbn [Live.resolve_each Live.resolve].
  - apply R_refl.
  - apply (live_bind_carries R R_trans); [|intros _; apply IH].
    intros w. by apply (live_parse_short_carries hs R).
  - apply (live_bind_carries R R_trans); [|intros _; apply IH].
    intros w. by apply (live_parse_short_carries hs R).
Qed.

(** The run ends in a world reached from the one a token left. *)
Lemma live_token_reached (argv0 : string) (pre : list string) (tok : string)
    (rest : list string) (w0 w : Live.World Mem) :
  ~ In "--" pre ->
  Live.parse hs (Z.of_nat (length (argv0 :: pre))) (argv0 :: pre) w0 = (w, Normal tt) ->
  tok <> "--" ->
  R (fst (Live.scan hs [tok] w))
    (fst (Live.parse hs (Z.of_nat (length (argv0 :: pre ++ tok :: rest)))
            (argv0 :: pre ++ tok :: rest) w0)).
Proof.
  intros Hpre Hrun Htok. rewrite live_parse_all in *.
  rewrite live_scan_app by done.
  rewrite (live_bind_normal _ _ _ _ _ Hrun).
  rewrite (live_scan_cons hs tok rest) by done.
  destruct (live_bind_fst (Live.scan hs [tok]) (fun _ => Live.scan hs rest) w)
    as [->|[a ->]]; [apply R_refl|].
  by apply (live_scan_carries hs R).
Qed.

(** The cluster ends in a world reached from the one the resolution of one
    of its names left. *)
Lemma live_name_reached (known : string) (c : ascii) (after : string)
    (w1 w : Live.World Mem) :
  Std.find "=" known = None ->
  c <> "="%char ->
  Live.resolve_each hs (flags (list_ascii_of_string known)) w1 = (w, Normal tt) ->
  R (fst (Live.parse_short hs c (fst (attached after)) (snd (attached after)) w))
    (fst (Live.parseShortName hs (known ++ String c after) w1)).
Proof.
  intros Hknown Hc Hrun.
  destruct (live_parseShortName_at hs known c after Hknown Hc) as [l ->].
  rewrite (live_bind_normal _ _ _ _ _ Hrun).
  match goal with |- context [Live.bind ?m ?k w] =>
    destruct (live_bind_fst m k w) as [->|[a ->]] end; [apply R_refl|].
  apply live_resolve_each_carries.
Qed.

End LiveReached.

(** The parse ends where a token fails. *)
Lemma live_parse_aborted_at {Mem : Type} (hs : Live.Handlers Mem) (argv0 : string)
    (pre : list string) (tok : string) (rest : list string)
    (w0 w1 w' : Live.World Mem) (e : exn) :
  ~ In "--" pre ->
  Live.parse hs (Z.of_nat (length (argv0 :: pre))) (argv0 :: pre) w0 = (w1, Normal tt) ->
  tok <> "--" ->
  Live.scan hs [tok] w1 = (w', Throw e) ->
  Live.parse hs (Z.of_nat (length (argv0 :: pre ++ tok :: rest)))
    (argv0 :: pre ++ tok :: rest) w0
  = (w', Throw e).
Proof.
  intros Hpre Hrun Hne Htok. rewrite live_parse_all in *.
  rewrite live_scan_app by done. rewrite (live_bind_normal _ _ _ _ _ Hrun).
  rewrite live_scan_cons by done. unfold Live.bind. by rewrite Htok.
Qed.

(** *** A Boolean option resolved without a value *)

Section LiveBoolean.

Context {Mem : Type} (hs : Live.Handlers Mem).

Lemma live_Bool_resolved (it : nat) (o : Live.Opt) (b : bool) (h : option nat)
    (value : string) (w : Live.World Mem) :
  Live.objects w !! it = Some o ->
  Live.fields o = Live.BoolFields b h ->
  Live.defaultHandler hs it false value (Live.store it (Live.mark o) w)
  = Live.invoke (Live.on_bool hs) h true
      (Live.store it (Live.set_fields (Live.mark o) (Live.BoolFields true h)) w).
Proof.
  intros Ho Hf.
  rewrite (live_BoolOpt_sets hs it (Live.mark o) b h);
    [by rewrite live_store_store|by apply (live_store_lookup it o)|done].
Qed.

Lemma live_Bool_settled (it : nat) (o : Live.Opt) (h : option nat)
    (w w' : Live.World Mem) :
  Live.objects w !! it = Some o ->
  Live.Booleans_kept
    (Live.store it (Live.set_fields (Live.mark o) (Live.BoolFields true h)) w) w' ->
  exists o', Live.objects w' !! it = Some o'
             /\ Live.present o' = true /\ Live.get_bool o' = Some true.
Proof.
  intros Ho Hk.
  destruct (Hk it (Live.set_fields (Live.mark o) (Live.BoolFields true h)) true)
    as (o' & b' & Ho' & Hb' & Hv & Hp).
  { by apply (live_store_lookup it o). }
  { reflexivity. }
  exists o'. split; [done|]. split; [by apply Hp|]. by rewrite Hb', Hv.
Qed.

Lemma live_invoke_maintained (R : Live.World Mem -> Live.World Mem -> Prop)
    (h : option nat) (v : bool) (w : Live.World Mem) :
  (forall w, R w w) -> Live.maintained hs R ->
  R w (fst (Live.invoke (Live.on_bool hs) h v w)).
Proof. intros Hrefl (Hb & _). destruct h as [h|]; [apply Hb|apply Hrefl]. Qed.

End LiveBoolean.

(** *** Coercions that fail, and what is left of the run *)

Section LiveFailures.

Context {Mem : Type} (hs : Live.Handlers Mem).
Implicit Types w : Live.World Mem.

Lemma live_bind_throws {A B : Type} (m : Live.M Mem A) (k : A -> Live.M Mem B) w
    (e : exn) :
  snd (m w) = Throw e -> Live.bind m k w = (fst (m w), Throw e).
Proof.
  unfold Live.bind. destruct (m w) as [w' [a|e']]; cbn [fst snd]; congruence.
Qed.








Lemma live_cluster_name_aborts (argv0 : string) (pre : list string) (known : string)
    (c : ascii) (after : string) (rest : list string) w0 w1 w (e : exn) :
  ~ In "--" pre ->
  Live.parse hs (Z.of_nat (length (argv0 :: pre))) (argv0 :: pre) w0 = (w1, Normal tt) ->
  Std.at_ (known ++ String c after) 0 <> "-"%char ->
  Std.find "=" known = None ->
  c <> "="%char ->
  Live.resolve_each hs (flags (list_ascii_of_string known)) w1 = (w, Normal tt) ->
  snd (Live.parse_short hs c (fst (attached after)) (snd (attached after)) w)
  = Throw e ->
  Live.parse hs
    (Z.of_nat (length (argv0 :: pre ++ String "-" (known ++ String c after) :: rest)))
    (argv0 :: pre ++ String "-" (known ++ String c after) :: rest) w0
  = (fst (Live.parse_short hs c (fst (attached after)) (snd (attached after)) w),
     Throw e).
Proof.
  intros Hpre Hrun Hdash Hknown Hc Hflags Hfail.
  assert (Hbody : (known ++ String c after)%string <> "").
  { destruct known; [rewrite append_nil_l|rewrite append_cons]; discriminate. }
  apply (live_parse_aborted_at hs argv0 pre _ rest w0 w1); [done|done| |].
  { intros [= Heq]. rewrite Heq in Hdash. by apply Hdash. }
  rewrite live_scan_short_body by done.
  destruct (live_parseShortName_at hs known c after Hknown Hc) as [l ->].
  rewrite (live_bind_normal _ _ _ _ _ Hflags).
  by apply live_bind_throws.
Qed.

End LiveFailures.

Section LivePresence.

Context {Mem : Type}.
Implicit Types w : Live.World Mem.







End LivePresence.

(** *** The Boolean options *)

Lemma counting_quiet : Live.quiet LiveTests.counting.
Proof. repeat split. Qed.

(** C7, as stated, fails twice. The coercion of a Boolean option sets the
    stored value and nothing else: run on the descriptor [is] of the tests
    it returns with the value true and the presence flag still false (it is
    the resolution by name that sets the flag, before it calls the coercion).
    And a parse run can set a stored Boolean to false, through a handler: when
    the handler of [js] is a closure that assigns a fresh descriptor to [is],
    the arguments "--is --js=5" end normally with [is] absent and false,
    though "--is" alone had left it present and true; and from a default of
    true, "--js=5" leaves [is] false. *)
Lemma BoolOpt_reset_by_handler :
  Live.defaultHandler LiveTests.resetting 0 false "" LiveTests.world
  = (Live.mkWorld
       [Live.mkOpt "i" "is" "the value of some field is" false
          (Live.BoolFields true None);
        LiveTests.js]
       LiveTests.parser2 tt,
     Normal tt)
  /\ present (fst (defaultHandler Tests.is_ false "")) = false
  /\ get_bool (fst (defaultHandler Tests.is_ false "")) = Some true
  /\ Live.parse LiveTests.resetting 2 ["zeta"; "--is"] LiveTests.world
     = (Live.mkWorld
          [Live.mkOpt "i" "is" "the value of some field is" true
             (Live.BoolFields true None);
           LiveTests.js]
          LiveTests.parser2 tt,
        Normal tt)
  /\ Live.parse LiveTests.resetting 3 ["zeta"; "--is"; "--js=5"] LiveTests.world
     = (Live.mkWorld
          [Live.mkOpt "i" "is" "the value of some field is" false
             (Live.BoolFields false None);
           Live.mkOpt "j" "js" "the value of some field js" true
             (Live.IntFields 5 (Some 0%nat))]
          LiveTests.parser2 tt,
        Normal tt)
  /\ Live.get_bool LiveTests.is_on = Some true
  /\ Live.parse LiveTests.resetting 2 ["zeta"; "--js=5"] LiveTests.world_on
     = (Live.mkWorld
          [Live.mkOpt "i" "is" "the value of some field is" false
             (Live.BoolFields false None);
           Live.mkOpt "j" "js" "the value of some field js" true
             (Live.IntFields 5 (Some 0%nat))]
          LiveTests.parser2 tt,
        Normal tt).
Proof. repeat split; vm_compute; reflexivity. Qed.

(** C7, amended. The coercion of a Boolean option fails when a value is
    attached. Without one it sets the stored value to true, leaves the
    presence flag as it is, and runs the user handler, if any, on the memory
    so changed. The resolution by short or by long name marks the descriptor
    present before it runs the coercion, so that the handler runs on a
    descriptor that is present with value true, and the resolution ends as
    the handler does, a [ParseException] prefixed. In a parse run: a long
    token, or a short cluster, that attaches a value to a Boolean option
    aborts the run, with the option marked present and its value as it was; when no user handler
    turns a stored Boolean from true to false, clears the presence flag of a
    Boolean option or makes it another class, a Boolean option named by a
    long token without value, or by a flag of a short cluster, is present
    with value true when the run ends, however it ends, and no parse run
    turns a stored Boolean from true to false nor clears the presence of a
    Boolean option. Handlers that write neither a descriptor nor the parser
    are of that kind. *)
Theorem BoolOpt_set_unless_reset :
  (forall (Mem : Type) (hs : Live.Handlers Mem) (w : Live.World Mem) (this : nat)
          (o : Live.Opt) (b : bool) (h : option nat) (value : string),
      Live.objects w !! this = Some o ->
      Live.fields o = Live.BoolFields b h ->
      Live.defaultHandler hs this true value w
      = (w, Throw (ParseException "Argument does not expect a value")))
  /\ (forall (Mem : Type) (hs : Live.Handlers Mem) (w : Live.World Mem) (this : nat)
             (o : Live.Opt) (b : bool) (h : option nat) (value : string),
         Live.objects w !! this = Some o ->
         Live.fields o = Live.BoolFields b h ->
         Live.defaultHandler hs this false value w
         = Live.invoke (Live.on_bool hs) h true
             (Live.store this
                (Live.mkOpt (Live.shortName o) (Live.longName o) (Live.description o)
                   (Live.present o) (Live.BoolFields true h))
                w))
  /\ (forall (Mem : Type) (hs : Live.Handlers Mem) (w : Live.World Mem) (key : ascii)
             (it : nat) (o : Live.Opt) (b : bool) (h : option nat),
         Live.findArgByShortName key w = Some it ->
         Live.objects w !! it = Some o ->
         Live.fields o = Live.BoolFields b h ->
         Live.parse_short hs key false "" w
         = (fst (Live.invoke (Live.on_bool hs) h true
                   (Live.store it
                      (Live.mkOpt (Live.shortName o) (Live.longName o)
                         (Live.description o) true (Live.BoolFields true h))
                      w)),
            wrap_failure (String key "")
              (snd (Live.invoke (Live.on_bool hs) h true
                      (Live.store it
                         (Live.mkOpt (Live.shortName o) (Live.longName o)
                            (Live.description o) true (Live.BoolFields true h))
                         w)))))
  /\ (forall (Mem : Type) (hs : Live.Handlers Mem) (w : Live.World Mem) (key : string)
             (it : nat) (o : Live.Opt) (b : bool) (h : option nat),
         Live.findArgByLongName key w = Some it ->
         Live.objects w !! it = Some o ->
         Live.fields o = Live.BoolFields b h ->
         Live.parse_long hs key false "" w
         = (fst (Live.invoke (Live.on_bool hs) h true
                   (Live.store it
                      (Live.mkOpt (Live.shortName o) (Live.longName o)
                         (Live.description o) true (Live.BoolFields true h))
                      w)),
            wrap_failure key
              (snd (Live.invoke (Live.on_bool hs) h true
                      (Live.store it
                         (Live.mkOpt (Live.shortName o) (Live.longName o)
                            (Live.description o) true (Live.BoolFields true h))
                         w)))))
  /\ (forall (Mem : Type) (hs : Live.Handlers Mem) (argv0 : string)
             (pre : list string) (key value : string) (rest : list string)
             (w0 w : Live.World Mem) (it : nat) (o : Live.Opt) (b : bool)
             (h : option nat),
         ~ In "--" pre ->
         Live.parse hs (Z.of_nat (length (argv0 :: pre))) (argv0 :: pre) w0
         = (w, Normal tt) ->
         Std.find "=" key = None ->
         Live.findArgByLongName key w = Some it ->
         Live.objects w !! it = Some o ->
         Live.fields o = Live.BoolFields b h ->
         Live.parse hs
           (Z.of_nat (length (argv0 :: pre
                                ++ String "-" (String "-" (key ++ String "=" value))
                                :: rest)))
           (argv0 :: pre ++ String "-" (String "-" (key ++ String "=" value)) :: rest)
           w0
         = (Live.store it
              (Live.mkOpt (Live.shortName o) (Live.longName o) (Live.description o)
                 true (Live.BoolFields b h))
              w,
            Throw (ParseException
                     ("Parsing of " ++ key
                      ++ " failed: Argument does not expect a value"))))
  /\ (forall (Mem : Type) (hs : Live.Handlers Mem) (argv0 : string)
             (pre : list string) (known : string) (c : ascii) (value : string)
             (rest : list string) (w0 w1 w : Live.World Mem) (it : nat)
             (o : Live.Opt) (b : bool) (h : option nat),
         ~ In "--" pre ->
         Live.parse hs (Z.of_nat (length (argv0 :: pre))) (argv0 :: pre) w0
         = (w1, Normal tt) ->
         Std.at_ (known ++ String c (String "=" value)) 0 <> "-"%char ->
         Std.find "=" known = None ->
         c <> "="%char ->
         Live.resolve_each hs (flags (list_ascii_of_string known)) w1
         = (w, Normal tt) ->
         Live.findArgByShortName c w = Some it ->
         Live.objects w !! it = Some o ->
         Live.fields o = Live.BoolFields b h ->
         Live.parse hs
           (Z.of_nat (length (argv0 :: pre
                                ++ String "-" (known ++ String c (String "=" value))
                                :: rest)))
           (argv0 :: pre ++ String "-" (known ++ String c (String "=" value)) :: rest)
           w0
         = (Live.store it
              (Live.mkOpt (Live.shortName o) (Live.longName o) (Live.description o)
                 true (Live.BoolFields b h))
              w,
            Throw (ParseException
                     ("Parsing of " ++ String c ""
                      ++ " failed: Argument does not expect a value"))))
  /\ (forall (Mem : Type) (hs : Live.Handlers Mem) (argv0 : string)
             (pre : list string) (key : string) (rest : list string)
             (w0 w : Live.World Mem) (it : nat) (o : Live.Opt) (b : bool)
             (h : option nat),
         Live.maintained hs Live.Booleans_kept ->
         ~ In "--" pre ->
         Live.parse hs (Z.of_nat (length (argv0 :: pre))) (argv0 :: pre) w0
         = (w, Normal tt) ->
         key <> "" ->
         Std.find "=" key = None ->
         Live.findArgByLongName key w = Some it ->
         Live.objects w !! it = Some o ->
         Live.fields o = Live.BoolFields b h ->
         exists o',
           Live.objects
             (fst (Live.parse hs
                     (Z.of_nat (length (argv0 :: pre
                                          ++ String "-" (String "-" key) :: rest)))
                     (argv0 :: pre ++ String "-" (String "-" key) :: rest) w0))
           !! it = Some o'
           /\ Live.present o' = true /\ Live.get_bool o' = Some true)
  /\ (forall (Mem : Type) (hs : Live.Handlers Mem) (argv0 : string)
             (pre : list string) (known : string) (c : ascii) (after : string)
             (rest : list string) (w0 w1 w : Live.World Mem) (it : nat)
             (o : Live.Opt) (b : bool) (h : option nat),
         Live.maintained hs Live.Booleans_kept ->
         ~ In "--" pre ->
         Live.parse hs (Z.of_nat (length (argv0 :: pre))) (argv0 :: pre) w0
         = (w1, Normal tt) ->
         Std.at_ (known ++ String c after) 0 <> "-"%char ->
         Std.find "=" known = None ->
         c <> "="%char ->
         fst (attached after) = false ->
         Live.resolve_each hs (flags (list_ascii_of_string known)) w1
         = (w, Normal tt) ->
         Live.findArgByShortName c w = Some it ->
         Live.objects w !! it = Some o ->
         Live.fields o = Live.BoolFields b h ->
         exists o',
           Live.objects
             (fst (Live.parse hs
                     (Z.of_nat (length (argv0 :: pre
                                          ++ String "-" (known ++ String c after)
                                          :: rest)))
                     (argv0 :: pre ++ String "-" (known ++ String c after) :: rest)
                     w0))
           !! it = Some o'
           /\ Live.present o' = true /\ Live.get_bool o' = Some true)
  /\ (forall (Mem : Type) (hs : Live.Handlers Mem) (argc : Z) (argv : list string)
             (w : Live.World Mem) (it : nat) (o : Live.Opt) (b : bool),
         Live.maintained hs Live.Booleans_kept ->
         Live.objects w !! it = Some o ->
         Live.get_bool o = Some b ->
         exists (o' : Live.Opt) (b' : bool),
           Live.objects (fst (Live.parse hs argc argv w)) !! it = Some o'
           /\ Live.get_bool o' = Some b'
           /\ (b = true -> b' = true)
           /\ (Live.present o = true -> Live.present o' = true))
  /\ (forall (Mem : Type) (hs : Live.Handlers Mem),
         Live.quiet hs -> Live.maintained hs Live.Booleans_kept).
Proof.
  assert (Hmark : forall (o : Live.Opt) (b : bool) (h : option nat),
             Live.fields o = Live.BoolFields b h ->
             Live.mkOpt (Live.shortName o) (Live.longName o) (Live.description o)
               true (Live.BoolFields b h) = Live.mark o).
  { intros [s l d p f] b h. cbn. by intros ->. }
  assert (Hkept : forall (Mem : Type) (hs : Live.Handlers Mem) (argc : Z)
                         (argv : list string) (w : Live.World Mem),
             Live.maintained hs Live.Booleans_kept ->
             Live.Booleans_kept w (fst (Live.parse hs argc argv w))).
  { intros Mem hs argc argv w Hhs.
    apply (live_parse_carries hs Live.Booleans_kept Booleans_kept_refl
             Booleans_kept_trans Booleans_kept_own Hhs). }
  split; [intros Mem hs w this o b h value; apply live_BoolOpt_refuses|].
  split; [intros Mem hs w this o b h value Ho Hf;
          by rewrite (live_BoolOpt_sets hs this o b h)|].
  split; [|split; [|split; [|split; [|split; [|split; [|split]]]]]].
  - intros Mem hs w key it o b h Hfind Ho Hf.
    rewrite (live_parse_short_found hs _ _ _ _ it o) by done.
    by rewrite (live_Bool_resolved hs it o b h).
  - intros Mem hs w key it o b h Hfind Ho Hf.
    rewrite (live_parse_long_found hs _ _ _ _ it o) by done.
    by rewrite (live_Bool_resolved hs it o b h).
  - intros Mem hs argv0 pre key value rest w0 w it o b h Hpre Hrun Hkey Hfind Ho Hf.
    rewrite (Hmark o b h Hf).
    apply (live_parse_aborted_at hs argv0 pre _ rest w0 w); [done|done| |].
    { destruct key; [rewrite append_nil_l|rewrite append_cons]; discriminate. }
    rewrite live_scan_long_token.
    2:{ destruct key; [rewrite append_nil_l|rewrite append_cons]; discriminate. }
    rewrite live_parseLongName_value by done.
    rewrite (live_parse_long_found hs _ _ _ _ it o) by done.
    rewrite (live_BoolOpt_refuses hs it (Live.mark o) b h);
      [reflexivity|by apply (live_store_lookup it o)|done].
  - intros Mem hs argv0 pre known c value rest w0 w1 w it o b h Hpre Hrun Hdash
      Hknown Hc Hflags Hfind Ho Hf.
    rewrite (Hmark o b h Hf).
    assert (Hres : Live.parse_short hs c true value w
                   = (Live.store it (Live.mark o) w,
                      Throw (ParseException
                               ("Parsing of " ++ String c ""
                                ++ " failed: Argument does not expect a value")))).
    { rewrite (live_parse_short_found hs _ _ _ _ it o) by done.
      rewrite (live_BoolOpt_refuses hs it (Live.mark o) b h);
        [reflexivity|by apply (live_store_lookup it o)|done]. }
    rewrite (live_cluster_name_aborts hs argv0 pre known c (String "=" value) rest
               w0 w1 w
               (ParseException
                  ("Parsing of " ++ String c ""
                   ++ " failed: Argument does not expect a value"))
               Hpre Hrun Hdash Hknown Hc Hflags);
      rewrite attached_value; cbn [fst snd]; by rewrite Hres.
  - intros Mem hs argv0 pre key rest w0 w it o b h Hhs Hpre Hrun Hne Hkey Hfind Ho Hf.
    apply (live_Bool_settled it o h w); [done|].
    assert (Htok : String "-" (String "-" key) <> "--").
    { destruct key; [done|discriminate]. }
    eapply Booleans_kept_trans;
      [|apply (live_token_reached hs Live.Booleans_kept Booleans_kept_refl
                 Booleans_kept_trans Booleans_kept_own Hhs argv0 pre _ rest w0 w
                 Hpre Hrun Htok)].
    rewrite live_scan_long_token, live_parseLongName_no_value by done.
    rewrite (live_parse_long_found hs _ _ _ _ it o) by done.
    rewrite (live_Bool_resolved hs it o b h) by done. cbn [fst].
    apply live_invoke_maintained; [apply Booleans_kept_refl|done].
  - intros Mem hs argv0 pre known c after rest w0 w1 w it o b h Hhs Hpre Hrun Hdash
      Hknown Hc Hflag Hflags Hfind Ho Hf.
    apply (live_Bool_settled it o h w); [done|].
    assert (Hbody : (known ++ String c after)%string <> "").
    { destruct known; [rewrite append_nil_l|rewrite append_cons]; discriminate. }
    assert (Htok : String "-" (known ++ String c after) <> "--").
    { intros [= Heq]. rewrite Heq in Hdash. by apply Hdash. }
    eapply Booleans_kept_trans;
      [|apply (live_token_reached hs Live.Booleans_kept Booleans_kept_refl
                 Booleans_kept_trans Booleans_kept_own Hhs argv0 pre _ rest w0 w1
                 Hpre Hrun Htok)].
    rewrite live_scan_short_body by done.
    eapply Booleans_kept_trans;
      [|apply (live_name_reached hs Live.Booleans_kept Booleans_kept_refl
                 Booleans_kept_trans Booleans_kept_own Hhs known c after w1 w
                 Hknown Hc Hflags)].
    rewrite Hflag.
    rewrite (live_parse_short_found hs _ _ _ _ it o) by done.
    rewrite (live_Bool_resolved hs it o b h) by done. cbn [fst].
    apply live_invoke_maintained; [apply Booleans_kept_refl|done].
  - intros Mem hs argc argv w it o b Hhs Ho Hb.
    by apply (Hkept Mem hs argc argv w Hhs it o b).
  - intros Mem hs. apply quiet_Booleans_kept.
Qed.

Lemma BoolOpt_set_unless_reset_witness :
  Live.parse LiveTests.counting 3 ["zeta"; "--js=4"; "--is=no"] LiveTests.counted_world
  = (Live.mkWorld
       [Live.mkOpt "i" "is" "the value of some field is" true
          (Live.BoolFields false None);
        Live.mkOpt "j" "js" "the value of some field js" true
          (Live.IntFields 4 (Some 0%nat))]
       LiveTests.parser2 1%nat,
     Throw (ParseException "Parsing of is failed: Argument does not expect a value"))
  /\ Live.parse LiveTests.counting 3 ["zeta"; "-i=1"; "--js=4"] LiveTests.counted_world
     = (Live.mkWorld
          [Live.mkOpt "i" "is" "the value of some field is" true
             (Live.BoolFields false None);
           LiveTests.js]
          LiveTests.parser2 0%nat,
        Throw (ParseException "Parsing of i failed: Argument does not expect a value"))
  /\ (exists o',
         Live.objects
           (fst (Live.parse LiveTests.counting 4 ["zeta"; "--is"; "--js=4"; "--js=5"]
                   LiveTests.counted_world))
         !! 0%nat = Some o'
         /\ Live.present o' = true /\ Live.get_bool o' = Some true)
  /\ (exists o',
         Live.objects
           (fst (Live.parse LiveTests.counting 3 ["zeta"; "-ij=4"; "--nope"]
                   LiveTests.counted_world))
         !! 0%nat = Some o'
         /\ Live.present o' = true /\ Live.get_bool o' = Some true)
  /\ (exists o',
         Live.objects
           (fst (Live.parse LiveTests.counting 3 ["zeta"; "--js=4"; "--is=no"]
                   LiveTests.counted_world_on))
         !! 0%nat = Some o'
         /\ Live.get_bool o' = Some true).
Proof.
  destruct BoolOpt_set_unless_reset
    as (_ & _ & _ & _ & Hvalue & Hattached & Hlong & Hshort & Hrun & Hquiet).
  pose proof (Hquiet nat LiveTests.counting counting_quiet) as Hhs.
  split; [|split; [|split; [|split]]].
  - refine (Hvalue nat LiveTests.counting "zeta" ["--js=4"] "is" "no" []
              LiveTests.counted_world
              (fst (Live.parse LiveTests.counting 2 ["zeta"; "--js=4"]
                      LiveTests.counted_world))
              0%nat LiveTests.is_ false None _ _ _ _ _ _);
      [cbn; intros [[=]|[]]|reflexivity..].
  - refine (Hattached nat LiveTests.counting "zeta" [] "" "i"%char "1" ["--js=4"]
              LiveTests.counted_world LiveTests.counted_world
              LiveTests.counted_world 0%nat LiveTests.is_ false None
              _ _ _ _ _ _ _ _ _);
      [cbn; intros []|reflexivity|discriminate|reflexivity|discriminate
      |reflexivity..].
  - refine (Hlong nat LiveTests.counting "zeta" [] "is" ["--js=4"; "--js=5"]
              LiveTests.counted_world LiveTests.counted_world 0%nat LiveTests.is_
              false None Hhs _ _ _ _ _ _ _);
      [cbn; intros []|reflexivity|discriminate|reflexivity..].
  - refine (Hshort nat LiveTests.counting "zeta" [] "" "i"%char "j=4" ["--nope"]
              LiveTests.counted_world LiveTests.counted_world
              LiveTests.counted_world 0%nat LiveTests.is_ false None Hhs
              _ _ _ _ _ _ _ _ _ _);
      [cbn; intros []|reflexivity|discriminate|reflexivity|discriminate
      |reflexivity..].
  - destruct (Hrun nat LiveTests.counting 3 ["zeta"; "--js=4"; "--is=no"]
                LiveTests.counted_world_on 0%nat LiveTests.is_on true Hhs
                eq_refl eq_refl) as (o' & b' & Ho' & Hb' & Hv & _).
    exists o'. split; [done|]. by rewrite Hb', Hv.
Defined.

(** *** The presence flag when the coercion fails *)




(** * Further properties of the header *)

(** ** More on the integer conversions *)

Lemma digits_all_of (d : Decimal.uint) :
  Std.all_of Std.isdigit (NilEmpty.string_of_uint d) = true.
Proof.
  induction d; cbn [NilEmpty.string_of_uint Std.all_of]; [done|..];
    change (Std.isdigit _) with true; exact IHd.
Qed.

Lemma isUint_decimal (z : Z) : 0 <= z -> isUint (decimal z) = true.
Proof.
  intros Hz. destruct z as [|p|p]; [reflexivity| |lia].
  rewrite decimal_positive. apply digits_all_of.
Qed.

Lemma stoull_decimal (z : Z) :
  0 <= z ->
  Std.stoull (decimal z)
  = if z <=? Std.ULLONG_MAX then Normal z else Throw (std_out_of_range "stoull").
Proof.
  intros Hz. destruct z as [|p|p]; [reflexivity| |lia].
  unfold Std.stoull. rewrite decimal_positive.
  by destruct (magnitude_positive p) as [-> ->].
Qed.

(** Digits followed by something that is no digit: the rest is not read. *)
Lemma accumulate_stops (s rest : string) (c : ascii) (acc : Z) :
  Std.all_of Std.isdigit s = true ->
  Std.isdigit c = false ->
  Std.accumulate (s ++ String c rest) acc = Std.accumulate s acc.
Proof.
  intros Hs Hc. revert acc. induction s as [|a s IH]; intros acc.
  - rewrite append_nil_l. cbn [Std.accumulate]. by rewrite Hc.
  - rewrite append_cons. cbn [Std.accumulate Std.all_of] in *.
    destruct (Std.isdigit a); [|done]. apply IH. exact Hs.
Qed.

Lemma magnitude_stops (d : Decimal.uint) (rest : string) (c : ascii) :
  d <> Decimal.Nil ->
  Std.isdigit c = false ->
  Std.magnitude (NilEmpty.string_of_uint d ++ String c rest)
  = Std.magnitude (NilEmpty.string_of_uint d).
Proof.
  intros Hd Hc.
  pose proof (accumulate_stops _ rest c 0 (digits_all_of d) Hc) as Hacc.
  destruct d; [done|..]; cbn [NilEmpty.string_of_uint] in *;
    rewrite append_cons in *; unfold Std.magnitude;
    change (Std.isdigit _) with true; cbv iota; by rewrite Hacc.
Qed.

Lemma stoll_trailing (z : Z) (c : ascii) (rest : string) :
  Std.LLONG_MIN <= z <= Std.LLONG_MAX ->
  Std.isdigit c = false ->
  Std.stoll (decimal z ++ String c rest) = Normal z.
Proof.
  intros Hz Hc. rewrite <- (stoll_decimal z Hz). unfold Std.stoll.
  pose proof (Unsigned.to_uint_nonnil) as Hnn.
  destruct z as [|p|p].
  - change (decimal 0) with "0"%string. rewrite append_cons, append_nil_l.
    cbn [Std.skip_space Std.take_sign Std.magnitude Std.accumulate].
    change (Std.isspace "0") with false. change (Std.isdigit "0") with true.
    cbv iota. cbn [Std.take_sign Std.magnitude Std.accumulate].
    change (Std.isdigit "0") with true. cbv iota. by rewrite Hc.
  - rewrite decimal_positive.
    assert (Hpre : forall t,
               Std.take_sign (Std.skip_space (NilEmpty.string_of_uint (Pos.to_uint p) ++ t))
               = (false, (NilEmpty.string_of_uint (Pos.to_uint p) ++ t)%string)).
    { intros t. specialize (Hnn p). destruct (Pos.to_uint p); [done|..];
        cbn [NilEmpty.string_of_uint]; rewrite append_cons; reflexivity. }
    rewrite Hpre. destruct (magnitude_positive p) as [-> _].
    by rewrite magnitude_stops.
  - rewrite decimal_negative, append_cons.
    change (Std.skip_space (String "-" ?s)) with (String "-"%char s).
    cbn [Std.take_sign]. by rewrite magnitude_stops.
Qed.

(** X1. An unsigned-integer option stores exactly the integer its decimal
    text denotes, for every integer of [0, 2^64-1] (the only failure left is
    the one of the callback); above 2^64-1 the text is refused with the range
    message, and the empty text with the format message, the descriptor
    being left as it was. *)
Theorem UintOpt_round_trip (this : Opt) (v0 : Z) (userHandler : callback Z) (z : Z) :
  fields this = UintFields v0 userHandler ->
  0 <= z ->
  (z <= 2 ^ 64 - 1 ->
   defaultHandler this true (decimal z)
   = (set_fields this (UintFields z userHandler),
      UintOpt_catch (invoke userHandler z)))
  /\ (2 ^ 64 - 1 < z ->
      defaultHandler this true (decimal z)
      = (this, Throw (ParseException
                        "Value is not in range of a 64 bit unsigned integer")))
  /\ defaultHandler this true ""
     = (this, Throw (ParseException "Argument expects an non negative int value")).
Proof.
  intros Hf Hz. pose proof (stoull_decimal z Hz) as Hst.
  pose proof (isUint_decimal z Hz) as Hu.
  split; [|split].
  - intros Hle. apply (UintOpt_stores this v0); [done..|].
    rewrite Hst. destruct (Z.leb_spec z Std.ULLONG_MAX); [done|].
    unfold Std.ULLONG_MAX in *. lia.
  - intros Hgt. unfold defaultHandler. rewrite Hf, Hu, Hst. cbn [negb orb].
    destruct (Z.leb_spec z Std.ULLONG_MAX); [|done].
    unfold Std.ULLONG_MAX in *. lia.
  - unfold defaultHandler. by rewrite Hf.
Qed.

Lemma UintOpt_round_trip_witness :
  get_uint (fst (defaultHandler Tests.ks true (decimal (2 ^ 64 - 1))))
  = Some (2 ^ 64 - 1)
  /\ defaultHandler Tests.ks true (decimal (2 ^ 64))
     = (Tests.ks, Throw (ParseException
                           "Value is not in range of a 64 bit unsigned integer")).
Proof.
  split.
  - destruct (UintOpt_round_trip Tests.ks 2200 None (2 ^ 64 - 1)) as [H _];
      [reflexivity|lia|].
    rewrite H by lia. reflexivity.
  - destruct (UintOpt_round_trip Tests.ks 2200 None (2 ^ 64)) as (_ & H & _);
      [reflexivity|lia|].
    apply H. lia.
Defined.

(** X2. A signed-integer option refuses the decimal text of every integer
    outside [-2^63, 2^63-1] with the range message; it refuses the empty
    text, a text whose first character is neither white space, a sign nor a
    digit, and a missing value with the format message. The descriptor is
    left as it was in each case. *)
Theorem IntOpt_refused_texts (this : Opt) (v0 : Z) (userHandler : callback Z) :
  fields this = IntFields v0 userHandler ->
  (forall z : Z,
      ~ (- 2 ^ 63 <= z <= 2 ^ 63 - 1) ->
      defaultHandler this true (decimal z)
      = (this, Throw (ParseException "Value is not in range of a 64 bit int")))
  /\ (forall (c : ascii) (rest : string),
         Std.isspace c = false -> Std.isdigit c = false ->
         c <> "-"%char -> c <> "+"%char ->
         defaultHandler this true (String c rest)
         = (this, Throw (ParseException "Argument expects an integer value")))
  /\ defaultHandler this true ""
     = (this, Throw (ParseException "Argument expects an integer value"))
  /\ (forall value : string,
         defaultHandler this false value
         = (this, Throw (ParseException "Argument expects an integer value"))).
Proof.
  intros Hf. split; [|split; [|split]].
  - intros z Hz.
    by rewrite (IntOpt_refuses this v0 userHandler _ _ Hf
                  (stoll_decimal_out_of_range z Hz)).
  - intros c rest Hsp Hd Hm Hp.
    assert (Hst : Std.stoll (String c rest) = Throw (std_invalid_argument "stoll")).
    { unfold Std.stoll. cbn [Std.skip_space]. rewrite Hsp.
      assert (Hsign : Std.take_sign (String c rest) = (false, String c rest)).
      { unfold Std.take_sign.
        destruct c as [[] [] [] [] [] [] [] []]; try reflexivity; congruence. }
      rewrite Hsign. unfold Std.magnitude. by rewrite Hd. }
    by rewrite (IntOpt_refuses this v0 userHandler _ _ Hf Hst).
  - by rewrite (IntOpt_refuses this v0 userHandler "" (std_invalid_argument "stoll") Hf).
  - intros value. unfold defaultHandler. by rewrite Hf.
Qed.

Lemma IntOpt_refused_texts_witness :
  defaultHandler Tests.js true (decimal (- 2 ^ 63 - 1))
  = (Tests.js, Throw (ParseException "Value is not in range of a 64 bit int"))
  /\ defaultHandler Tests.js true "x4"
     = (Tests.js, Throw (ParseException "Argument expects an integer value")).
Proof.
  destruct (IntOpt_refused_texts Tests.js 1100 None) as (Hrange & Hformat & _);
    [reflexivity|].
  split.
  - apply Hrange. lia.
  - apply Hformat; [reflexivity|reflexivity|discriminate|discriminate].
Defined.

(** X3. Text after the digits: a signed-integer option reads the decimal
    text of an integer and ignores whatever follows it from the first
    character that is no digit on, storing the integer; an unsigned-integer
    option refuses the same text and keeps its value. *)
Theorem trailing_text (z : Z) (c : ascii) (rest : string) :
  - 2 ^ 63 <= z <= 2 ^ 63 - 1 ->
  Std.isdigit c = false ->
  (forall (this : Opt) (v0 : Z) (h : callback Z),
      fields this = IntFields v0 h ->
      defaultHandler this true (decimal z ++ String c rest)
      = (set_fields this (IntFields z h), IntOpt_catch (invoke h z)))
  /\ (forall (this : Opt) (v0 : Z) (h : callback Z),
         fields this = UintFields v0 h ->
         defaultHandler this true (decimal z ++ String c rest)
         = (this, Throw (ParseException "Argument expects an non negative int value"))).
Proof.
  intros Hz Hc. split.
  - intros this v0 h Hf. apply (IntOpt_stores this v0); [done|].
    by apply stoll_trailing.
  - intros this v0 h Hf. apply (UintOpt_refuses this v0 h); [done|]. right.
    apply (all_of_In _ _ c); [|done].
    rewrite list_ascii_of_string_append. apply in_or_app. right. by left.
Qed.

Lemma trailing_text_witness :
  get_int (fst (defaultHandler Tests.js true "12px")) = Some 12
  /\ get_uint (fst (defaultHandler Tests.ks true "12px")) = Some 2200.
Proof.
  destruct (trailing_text 12 "p" "x") as [Hint Huint];
    [lia|reflexivity|].
  split.
  - change "12px"%string with (decimal 12 ++ String "p" "x")%string.
    by rewrite (Hint Tests.js 1100 None eq_refl).
  - change "12px"%string with (decimal 12 ++ String "p" "x")%string.
    by rewrite (Huint Tests.ks 2200 None eq_refl).
Defined.

(** ** Value given where none is expected, or missing where one is *)

(** X4. A value attached to a Boolean option, or no value attached to a
    signed-integer, unsigned-integer or string option, makes the resolution
    fail with "Parsing of <name> failed: " followed by the message of the
    class; the option is left marked present and nothing else changes. *)
Theorem value_presence_mismatch (w : World) (it : nat) (o : Opt) (key : string) :
  findArgByLongName key w = Some it ->
  objects w !! it = Some o ->
  (forall (b : bool) (h : callback bool) (value : string),
      fields o = BoolFields b h ->
      parse_long key true value w
      = (mkWorld (<[it := setPresent o]> (objects w)) (self w),
         Throw (ParseException
                  ("Parsing of " ++ key ++ " failed: Argument does not expect a value"))))
  /\ (forall (v : Z) (h : callback Z),
         fields o = IntFields v h ->
         parse_long key false "" w
         = (mkWorld (<[it := setPresent o]> (objects w)) (self w),
            Throw (ParseException
                     ("Parsing of " ++ key ++ " failed: Argument expects an integer value"))))
  /\ (forall (v : Z) (h : callback Z),
         fields o = UintFields v h ->
         parse_long key false "" w
         = (mkWorld (<[it := setPresent o]> (objects w)) (self w),
            Throw (ParseException
                     ("Parsing of " ++ key
                      ++ " failed: Argument expects an non negative int value"))))
  /\ (forall (v : string) (h : callback string),
         fields o = StrFields v h ->
         parse_long key false "" w
         = (mkWorld (<[it := setPresent o]> (objects w)) (self w),
            Throw (ParseException
                     ("Parsing of " ++ key ++ " failed: Argument expects a value")))).
Proof.
  intros Hfind Ho. split; [|split; [|split]].
  - intros b h value Hf. rewrite (parse_long_found _ _ _ _ it o) by done.
    by rewrite (BoolOpt_refuses _ b h).
  - intros v h Hf. rewrite (parse_long_found _ _ _ _ it o) by done.
    unfold defaultHandler. cbn [setPresent fields]. by rewrite Hf.
  - intros v h Hf. rewrite (parse_long_found _ _ _ _ it o) by done.
    unfold defaultHandler. cbn [setPresent fields]. by rewrite Hf.
  - intros v h Hf. rewrite (parse_long_found _ _ _ _ it o) by done.
    unfold defaultHandler. cbn [setPresent fields]. by rewrite Hf.
Qed.

Lemma value_presence_mismatch_witness :
  parse_long "js" false "" Tests.world5
  = (mkWorld [Tests.is_; setPresent Tests.js; Tests.ks; Tests.ls] Tests.parser4,
     Throw (ParseException "Parsing of js failed: Argument expects an integer value"))
  /\ snd (parse_long "is" true "1" Tests.world5)
     = Throw (ParseException "Parsing of is failed: Argument does not expect a value").
Proof.
  split.
  - destruct (value_presence_mismatch Tests.world5 1%nat Tests.js "js")
      as (_ & Hint & _); [reflexivity..|].
    exact (Hint 1100 None eq_refl).
  - destruct (value_presence_mismatch Tests.world5 0%nat Tests.is_ "is")
      as (Hbool & _); [reflexivity..|].
    by rewrite (Hbool false None "1" eq_refl).
Defined.

(** X5. A descriptor of the base class [Opt] accepts anything: resolved by
    its long or short name, with or without a value, it is marked present,
    nothing else changes and the resolution returns. *)
Theorem plain_Opt_only_marked (w : World) (it : nat) (o : Opt)
    (isValPresent : bool) (value : string) :
  objects w !! it = Some o ->
  fields o = OptFields ->
  (forall key : string,
      findArgByLongName key w = Some it ->
      parse_long key isValPresent value w
      = (mkWorld (<[it := setPresent o]> (objects w)) (self w), Normal tt))
  /\ (forall key : ascii,
         findArgByShortName key w = Some it ->
         parse_short key isValPresent value w
         = (mkWorld (<[it := setPresent o]> (objects w)) (self w), Normal tt)).
Proof.
  intros Ho Hf.
  assert (Hh : defaultHandler (setPresent o) isValPresent value
               = (setPresent o, Normal tt)).
  { unfold defaultHandler. cbn [setPresent fields]. by rewrite Hf. }
  split; intros key Hfind.
  - rewrite (parse_long_found _ _ _ _ it o) by done. by rewrite Hh.
  - rewrite (parse_short_found _ _ _ _ it o) by done. by rewrite Hh.
Qed.

Lemma plain_Opt_only_marked_witness :
  parse_long "verbose" true "anything"
    (mkWorld [mkOpt "v" "verbose" "plain" false OptFields]
             (add new_OptParser 0%nat))
  = (mkWorld [mkOpt "v" "verbose" "plain" true OptFields] (add new_OptParser 0%nat),
     Normal tt).
Proof.
  destruct (plain_Opt_only_marked
              (mkWorld [mkOpt "v" "verbose" "plain" false OptFields]
                       (add new_OptParser 0%nat))
              0%nat (mkOpt "v" "verbose" "plain" false OptFields) true "anything")
    as [Hlong _]; [reflexivity..|].
  exact (Hlong "verbose" eq_refl).
Defined.

(** ** The registry *)

Section FindIf.

Variable p : Opt -> bool.
Variable objs : list Opt.

Lemma find_if_None (refs : list nat) :
  find_if p objs refs = None
  <-> forall r o, In r refs -> objs !! r = Some o -> p o = false.
Proof.
  induction refs as [|r0 refs IH]; cbn [find_if In].
  - split; [intros _ r o []|done].
  - destruct (objs !! r0) as [o0|] eqn:Ho0.
    + destruct (p o0) eqn:Hp0.
      * split; [done|]. intros H. specialize (H r0 o0 (or_introl eq_refl) Ho0).
        congruence.
      * rewrite IH. split.
        -- intros H r o [<-|Hin] Ho; [congruence|by eapply H].
        -- intros H r o Hin. apply H. by right.
    + rewrite IH. split.
      * intros H r o [<-|Hin] Ho; [congruence|by eapply H].
      * intros H r o Hin. apply H. by right.
Qed.

Lemma find_if_app (refs1 refs2 : list nat) :
  find_if p objs (refs1 ++ refs2)
  = match find_if p objs refs1 with
    | Some r => Some r
    | None => find_if p objs refs2
    end.
Proof.
  induction refs1 as [|r0 refs1 IH]; cbn [app find_if]; [done|].
  destruct (objs !! r0) as [o0|]; [|exact IH].
  by destruct (p o0).
Qed.

(** The reference found is the first one, in registration order, whose
    descriptor satisfies [p]. *)
Lemma find_if_first (refs : list nat) (r : nat) :
  find_if p objs refs = Some r
  <-> exists pre post o,
      refs = (pre ++ r :: post)%list
      /\ objs !! r = Some o /\ p o = true
      /\ find_if p objs pre = None.
Proof.
  split.
  - induction refs as [|r0 refs IH]; cbn [find_if]; [done|].
    destruct (objs !! r0) as [o0|] eqn:Ho0.
    + destruct (p o0) eqn:Hp0.
      * intros [= <-]. by exists [], refs, o0.
      * intros H. destruct (IH H) as (pre & post & o & -> & Ho & Hp & Hpre).
        exists (r0 :: pre), post, o. repeat split; try done.
        cbn [find_if]. by rewrite Ho0, Hp0.
    + intros H. destruct (IH H) as (pre & post & o & -> & Ho & Hp & Hpre).
      exists (r0 :: pre), post, o. repeat split; try done.
      cbn [find_if]. by rewrite Ho0.
  - intros (pre & post & o & -> & Ho & Hp & Hpre).
    rewrite find_if_app, Hpre. cbn [find_if]. by rewrite Ho, Hp.
Qed.

End FindIf.

(** X6. The lookup by long name, and by short name, finds the first
    registered reference, in registration order, whose descriptor bears the
    name, and reports no match exactly when no registered descriptor bears
    it. *)
Theorem lookup_first_match (w : World) :
  (forall (name : string) (it : nat),
      findArgByLongName name w = Some it
      <-> exists pre post o,
          argOptions (self w) = (pre ++ it :: post)%list
          /\ objects w !! it = Some o /\ longName o = name
          /\ forall r o', In r pre -> objects w !! r = Some o' -> longName o' <> name)
  /\ (forall name : string,
         findArgByLongName name w = None
         <-> forall r o, In r (argOptions (self w)) -> objects w !! r = Some o ->
                         longName o <> name)
  /\ (forall (c : ascii) (it : nat),
         findArgByShortName c w = Some it
         <-> exists pre post o,
             argOptions (self w) = (pre ++ it :: post)%list
             /\ objects w !! it = Some o /\ shortName o = c
             /\ forall r o', In r pre -> objects w !! r = Some o' -> shortName o' <> c)
  /\ (forall c : ascii,
         findArgByShortName c w = None
         <-> forall r o, In r (argOptions (self w)) -> objects w !! r = Some o ->
                         shortName o <> c).
Proof.
  unfold findArgByLongName, findArgByShortName, getLongName, getShortName.
  split; [|split; [|split]].
  - intros name it. rewrite find_if_first. split.
    + intros (pre & post & o & Hrefs & Ho & Hp & Hpre).
      exists pre, post, o. repeat split; try done; [by apply String.eqb_eq|].
      intros r o' Hin Ho'. apply String.eqb_neq.
      by apply (proj1 (find_if_None _ _ pre) Hpre r o').
    + intros (pre & post & o & Hrefs & Ho & Hp & Hpre).
      exists pre, post, o. repeat split; try done; [by apply String.eqb_eq|].
      apply find_if_None. intros r o' Hin Ho'. apply String.eqb_neq. by eapply Hpre.
  - intros name. rewrite find_if_None. split.
    + intros H r o Hin Ho. apply String.eqb_neq. by eapply H.
    + intros H r o Hin Ho. apply String.eqb_neq. by eapply H.
  - intros c it. rewrite find_if_first. split.
    + intros (pre & post & o & Hrefs & Ho & Hp & Hpre).
      exists pre, post, o. repeat split; try done; [by apply Ascii.eqb_eq|].
      intros r o' Hin Ho'. apply Ascii.eqb_neq.
      by apply (proj1 (find_if_None _ _ pre) Hpre r o').
    + intros (pre & post & o & Hrefs & Ho & Hp & Hpre).
      exists pre, post, o. repeat split; try done; [by apply Ascii.eqb_eq|].
      apply find_if_None. intros r o' Hin Ho'. apply Ascii.eqb_neq. by eapply Hpre.
  - intros c. rewrite find_if_None. split.
    + intros H r o Hin Ho. apply Ascii.eqb_neq. by eapply H.
    + intros H r o Hin Ho. apply Ascii.eqb_neq. by eapply H.
Qed.

Lemma lookup_first_match_witness :
  findArgByLongName "ls"
    (mkWorld [Tests.ls; Tests.ls_long] (add (add new_OptParser 1%nat) 0%nat))
  = Some 1%nat.
Proof.
  destruct (lookup_first_match
              (mkWorld [Tests.ls; Tests.ls_long] (add (add new_OptParser 1%nat) 0%nat)))
    as (Hlong & _).
  apply Hlong. exists [], [0%nat], Tests.ls_long.
  repeat split. intros r o' [].
Defined.

(** X7. Registering one more descriptor never changes the answer for a name
    that was already found; a name that was not found is found afterwards
    exactly when the new descriptor bears it. *)
Theorem add_then_lookup (w : World) (r : nat) (o : Opt) :
  objects w !! r = Some o ->
  (forall name : string,
      findArgByLongName name (mkWorld (objects w) (add (self w) r))
      = match findArgByLongName name w with
        | Some it => Some it
        | None => if String.eqb (longName o) name then Some r else None
        end)
  /\ (forall c : ascii,
         findArgByShortName c (mkWorld (objects w) (add (self w) r))
         = match findArgByShortName c w with
           | Some it => Some it
           | None => if Ascii.eqb (shortName o) c then Some r else None
           end).
Proof.
  intros Ho. unfold findArgByLongName, findArgByShortName, getLongName, getShortName.
  cbn [objects self add argOptions].
  split; intros k; rewrite find_if_app; cbn [find_if]; by rewrite Ho.
Qed.

Lemma add_then_lookup_witness :
  findArgByLongName "ls"
    (mkWorld (objects Tests.world5) (add (self Tests.world5) 3%nat))
  = Some 3%nat
  /\ findArgByLongName "ks"
       (mkWorld [Tests.ks] (add new_OptParser 0%nat))
     = Some 0%nat.
Proof.
  split.
  - destruct (add_then_lookup Tests.world5 3%nat Tests.ls eq_refl) as [H _].
    by rewrite H.
  - destruct (add_then_lookup (mkWorld [Tests.ks] new_OptParser) 0%nat Tests.ks eq_refl)
      as [H _].
    exact (H "ks").
Defined.

(** X8. Adding the references one by one to a fresh parser gives the parser
    the vector constructor builds from the same references. *)
Theorem registry_from_vector (refs : list nat) :
  fold_left add refs new_OptParser = new_OptParser_from refs.
Proof.
  unfold new_OptParser, new_OptParser_from.
  change refs with ([] ++ refs)%list at 2. generalize (@nil nat) as done_.
  induction refs as [|r refs IH]; intros done_; cbn [fold_left].
  - by rewrite app_nil_r.
  - unfold add at 2. cbn [argOptions programName programArgc programArgv].
    rewrite IH. by rewrite <- app_assoc.
Qed.

(** ** Relations every scan carries *)

(** A reflexive and transitive relation that the four parts of the loop
    body carry is carried by the whole scan. The assignment of the residual
    arguments only matters when a "--" is among the tokens. *)
Section ScanCarries.

Variable R : World -> World -> Prop.
Hypothesis R_refl : forall w, R w w.
Hypothesis R_trans : forall w1 w2 w3, R w1 w2 -> R w2 w3 -> R w1 w3.
Hypothesis R_name : forall name w, R w (fst (parseProgramName name w)).
Hypothesis R_long : forall tok w, R w (fst (parseLongName tok w)).
Hypothesis R_short : forall tok w, R w (fst (parseShortName tok w)).


End ScanCarries.

(** X9. When no user handler writes a descriptor that is not registered
    with the parser nor changes the registry (as when the handlers write
    neither a descriptor nor the parser), a parse run, whatever the arguments
    and however it ends, leaves every descriptor that is not registered
    exactly as it was: the parser's own code only writes the descriptors it
    resolved. *)
Theorem parse_writes_registered_only :
  (forall (Mem : Type) (hs : Live.Handlers Mem) (argc : Z) (argv : list string)
          (w : Live.World Mem) (r : nat),
      Live.maintained hs Live.unregistered_untouched ->
      ~ In r (argOptions (Live.self w)) ->
      Live.objects (fst (Live.parse hs argc argv w)) !! r = Live.objects w !! r)
  /\ (forall (Mem : Type) (hs : Live.Handlers Mem),
         Live.quiet hs -> Live.maintained hs Live.unregistered_untouched).
Proof.
  split.
  - intros Mem hs argc argv w r Hhs Hr.
    by apply (live_parse_carries hs Live.unregistered_untouched
                unregistered_untouched_refl unregistered_untouched_trans
                unregistered_untouched_own Hhs argc argv w).
  - intros Mem hs. apply quiet_unregistered_untouched.
Qed.

Lemma parse_writes_registered_only_witness :
  Live.objects
    (fst (Live.parse LiveTests.counting 4 ["zeta"; "-ij=5"; "--js=6"; "--is"]
            (Live.mkWorld [LiveTests.is_; LiveTests.js; LiveTests.is_on]
               LiveTests.parser2 0%nat)))
  !! 2%nat
  = Some LiveTests.is_on.
Proof.
  destruct parse_writes_registered_only as [Hrun Hquiet].
  rewrite Hrun; [reflexivity|by apply Hquiet, counting_quiet|].
  cbn. intros [[=]|[[=]|[]]].
Defined.

(** ** The program name and the residual arguments *)













(** ** What a parse run keeps *)

(** The searches by name give the same answer once the descriptors are
    [kept]. *)
Lemma live_find_if_kept (p : Live.Opt -> bool) (objs objs' : list Live.Opt)
    (refs : list nat) :
  Forall2 Live.kept objs objs' ->
  (forall o o', Live.kept o o' -> p o' = p o) ->
  Live.find_if p objs' refs = Live.find_if p objs refs.
Proof.
  intros Hobjs Hp. apply live_find_if_ext. intros r _.
  destruct (objs !! r) as [o|] eqn:Ho.
  - destruct (Forall2_lookup_l _ _ _ _ _ Hobjs Ho) as (o' & -> & Hk).
    cbn [option_map]. by rewrite (Hp o o').
  - destruct (objs' !! r) as [o'|] eqn:Ho'; [|done].
    destruct (Forall2_lookup_r _ _ _ _ _ Hobjs Ho') as (o & Ho0 & _). congruence.
Qed.

(** X12. When no user handler changes the names, the description, the class
    or the handler pointer of a descriptor, clears a presence flag, adds or
    removes a descriptor or changes the registry (as when the handlers write
    neither a descriptor nor the parser), a parse run keeps all of these,
    whatever the arguments and however it ends, and so every name is looked
    up to the same descriptor after the run as before. *)
Theorem parse_keeps_descriptors_unless_handler :
  (forall (Mem : Type) (hs : Live.Handlers Mem) (argc : Z) (argv : list string)
          (w : Live.World Mem),
      Live.maintained hs Live.descriptors_kept ->
      (forall (it : nat) (o : Live.Opt),
          Live.objects w !! it = Some o ->
          exists o',
            Live.objects (fst (Live.parse hs argc argv w)) !! it = Some o'
            /\ Live.shortName o' = Live.shortName o
            /\ Live.longName o' = Live.longName o
            /\ Live.description o' = Live.description o
            /\ (Live.present o = true -> Live.present o' = true)
            /\ Live.same_class (Live.fields o) (Live.fields o'))
      /\ length (Live.objects (fst (Live.parse hs argc argv w)))
         = length (Live.objects w)
      /\ argOptions (Live.self (fst (Live.parse hs argc argv w)))
         = argOptions (Live.self w)
      /\ (forall name : string,
             Live.findArgByLongName name (fst (Live.parse hs argc argv w))
             = Live.findArgByLongName name w)
      /\ (forall c : ascii,
             Live.findArgByShortName c (fst (Live.parse hs argc argv w))
             = Live.findArgByShortName c w))
  /\ (forall (Mem : Type) (hs : Live.Handlers Mem),
         Live.quiet hs -> Live.maintained hs Live.descriptors_kept).
Proof.
  split; [|intros Mem hs; apply quiet_descriptors_kept].
  intros Mem hs argc argv w Hhs.
  pose proof (live_parse_carries hs Live.descriptors_kept descriptors_kept_refl
                descriptors_kept_trans descriptors_kept_own Hhs argc argv w)
    as [Hobjs Hregs].
  split; [|split; [|split; [|split]]].
  - intros it o Ho.
    destruct (Forall2_lookup_l _ _ _ _ _ Hobjs Ho) as (o' & Ho' & []).
    exists o'. by repeat split.
  - symmetry. by eapply Forall2_length.
  - done.
  - intros name. unfold Live.findArgByLongName. rewrite Hregs.
    apply live_find_if_kept; [done|]. intros o o' []. congruence.
  - intros c. unfold Live.findArgByShortName. rewrite Hregs.
    apply live_find_if_kept; [done|]. intros o o' []. congruence.
Qed.

Lemma parse_keeps_descriptors_unless_handler_witness :
  exists o',
    Live.objects
      (fst (Live.parse LiveTests.counting 4 ["zeta"; "-j=5"; "--js=6"; "--is"]
              LiveTests.counted_world))
    !! 1%nat = Some o'
    /\ Live.shortName o' = "j"%char /\ Live.longName o' = "js"
    /\ (Live.present LiveTests.js = true -> Live.present o' = true)
    /\ Live.same_class (Live.fields LiveTests.js) (Live.fields o').
Proof.
  destruct parse_keeps_descriptors_unless_handler as [Hrun Hquiet].
  destruct (Hrun nat LiveTests.counting 4 ["zeta"; "-j=5"; "--js=6"; "--is"]
              LiveTests.counted_world (Hquiet _ _ counting_quiet))
    as (Hobj & _).
  destruct (Hobj 1%nat LiveTests.js eq_refl) as (o' & Ho' & Hs & Hl & _ & Hp & Hc).
  exists o'. by repeat split.
Defined.

(** ** Edge cases of the tokens *)

(** X13. The token "-=value" names no option: it is accepted and changes
    nothing. The token "--=value" is resolved as the long name "" with that
    value. *)
Theorem empty_names (argv0 value : string) (w : World) :
  parse 2 [argv0; String "-" (String "=" value)] w = (w, Normal tt)
  /\ parse 2 [argv0; String "-" (String "-" (String "=" value))] w
     = parse_long "" true value w.
Proof.
  split.
  - rewrite parse_one, scan_short_token by discriminate. reflexivity.
  - rewrite parse_one, scan_long_token by discriminate.
    exact (parseLongName_value "" value w eq_refl).
Qed.

(** X14. With [argc] at most 1 the parse returns at once and changes
    nothing; the token at index 0 is never looked at. *)
Theorem parse_skips_index_0 :
  (forall (argc : Z) (argv : list string) (w : World),
      argc <= 1 -> parse argc argv w = (w, Normal tt))
  /\ (forall (argc : Z) (a0 b0 : string) (tokens : list string) (w : World),
         parse argc (a0 :: tokens) w = parse argc (b0 :: tokens) w).
Proof.
  split.
  - intros argc argv w Hle. unfold parse.
    assert (Hn : (Z.to_nat argc = 0 \/ Z.to_nat argc = 1)%nat) by lia.
    destruct Hn as [-> | ->]; [done|]. by destruct argv.
  - intros argc a0 b0 tokens w. unfold parse. by destruct (Z.to_nat argc).
Qed.

Lemma parse_skips_index_0_witness :
  parse 1 ["--nope"; "-x"] Tests.world5 = (Tests.world5, Normal tt).
Proof.
  destruct parse_skips_index_0 as [H _]. apply H. lia.
Defined.

(** X15. As soon as a registered descriptor has the short name '-' (the one
    the constructors without a short name pass), the character '-' met in a
    short cluster is not unknown: it is resolved to a registered
    descriptor with that short name, which is left present. *)
Theorem dash_resolves_nameless (w : World) (r : nat) (o : Opt)
    (isValPresent : bool) (value : string) :
  In r (argOptions (self w)) ->
  objects w !! r = Some o ->
  shortName o = no_short ->
  exists it o0 o',
    findArgByShortName "-" w = Some it
    /\ objects w !! it = Some o0
    /\ shortName o0 = "-"%char
    /\ objects (fst (parse_short "-" isValPresent value w)) !! it = Some o'
    /\ isPresent o' = true.
Proof.
  intros Hin Ho Hs.
  destruct (findArgByShortName "-" w) as [it|] eqn:Hfind.
  - destruct (findArgByShortName_Some _ _ _ Hfind) as (o0 & Ho0 & Hs0).
    destruct (parse_short_marks_present "-" isValPresent value w it Hfind)
      as (o' & Ho' & Hp').
    exists it, o0, o'. by repeat split.
  - exfalso. unfold findArgByShortName in Hfind.
    pose proof (proj1 (find_if_None _ _ _) Hfind r o Hin Ho) as Hp.
    unfold getShortName in Hp. rewrite Hs in Hp. discriminate.
Qed.

Lemma dash_resolves_nameless_witness :
  exists it o0 o',
    findArgByShortName "-" Tests.world3 = Some it
    /\ objects Tests.world3 !! it = Some o0
    /\ shortName o0 = "-"%char
    /\ objects (fst (parse_short "-" true "7" Tests.world3)) !! it = Some o'
    /\ isPresent o' = true.
Proof.
  apply (dash_resolves_nameless Tests.world3 3%nat Tests.ls_long true "7").
  - cbn. auto.
  - reflexivity.
  - reflexivity.
Defined.

(** ** An option given more than once *)

Section LiveRepeated.

Context {Mem : Type} (hs : Live.Handlers Mem).
Variable fb : nat -> bool -> outcome unit.
Variables fi fu : nat -> Z -> outcome unit.
Variable fs : nat -> string -> outcome unit.
Hypothesis Hvalue_only : Live.value_only hs fb fi fu fs.

Lemma live_store_id (it : nat) (o : Live.Opt) (w : Live.World Mem) :
  Live.objects w !! it = Some o -> Live.store it o w = w.
Proof.
  intros Ho. destruct w as [objs self0 mem]. unfold Live.store.
  cbn [Live.objects Live.self Live.captured] in *. by rewrite list_insert_id.
Qed.

Lemma live_invoke_value_only_bool (h : option nat) (v : bool) (w : Live.World Mem) :
  Live.invoke (Live.on_bool hs) h v w
  = (w, match h with Some n => fb n v | None => Normal tt end).
Proof. destruct Hvalue_only as (H & _). destruct h as [n|]; [apply H|done]. Qed.

Lemma live_invoke_value_only_int (h : option nat) (v : Z) (w : Live.World Mem) :
  Live.invoke (Live.on_int hs) h v w
  = (w, match h with Some n => fi n v | None => Normal tt end).
Proof. destruct Hvalue_only as (_ & H & _). destruct h as [n|]; [apply H|done]. Qed.

Lemma live_invoke_value_only_uint (h : option nat) (v : Z) (w : Live.World Mem) :
  Live.invoke (Live.on_uint hs) h v w
  = (w, match h with Some n => fu n v | None => Normal tt end).
Proof. destruct Hvalue_only as (_ & _ & H & _). destruct h as [n|]; [apply H|done]. Qed.

Lemma live_invoke_value_only_str (h : option nat) (v : string) (w : Live.World Mem) :
  Live.invoke (Live.on_str hs) h v w
  = (w, match h with Some n => fs n v | None => Normal tt end).
Proof. destruct Hvalue_only as (_ & _ & _ & H). destruct h as [n|]; [apply H|done]. Qed.

(** With such handlers the coercion writes the descriptor it is called on,
    and only its value. *)
Lemma live_defaultHandler_writes_value (it : nat) (o : Live.Opt) (isPresent : bool)
    (value : string) (w : Live.World Mem) :
  Live.objects w !! it = Some o ->
  exists o', Live.same_but_value o o'
             /\ fst (Live.defaultHandler hs it isPresent value w) = Live.store it o' w.
Proof.
  intros Ho.
  assert (Hid : exists o', Live.same_but_value o o' /\ w = Live.store it o' w).
  { exists o. split; [|by rewrite live_store_id].
    unfold Live.same_but_value. repeat split. by destruct (Live.fields o). }
  unfold Live.defaultHandler. rewrite Ho.
  destruct (Live.fields o) as [|b h|v h|v h|v h] eqn:Hf; [done|..].
  - destruct isPresent; [done|]. rewrite live_invoke_value_only_bool.
    eexists. split; [|reflexivity]. unfold Live.same_but_value.
    cbn [Live.set_fields Live.shortName Live.longName Live.description Live.present
           Live.fields]. rewrite Hf. by repeat split.
  - destruct (negb isPresent); [done|].
    destruct (Std.stoll value) as [z|e]; [|done].
    unfold Live.try_catch. rewrite live_invoke_value_only_int.
    eexists. split; [|reflexivity]. unfold Live.same_but_value.
    cbn [Live.set_fields Live.shortName Live.longName Live.description Live.present
           Live.fields]. rewrite Hf. by repeat split.
  - destruct (negb isPresent || negb (isUint value)); [done|].
    destruct (Std.stoull value) as [z|e]; [|done].
    unfold Live.try_catch. rewrite live_invoke_value_only_uint.
    eexists. split; [|reflexivity]. unfold Live.same_but_value.
    cbn [Live.set_fields Live.shortName Live.longName Live.description Live.present
           Live.fields]. rewrite Hf. by repeat split.
  - destruct (negb isPresent); [done|]. rewrite live_invoke_value_only_str.
    eexists. split; [|reflexivity]. unfold Live.same_but_value.
    cbn [Live.set_fields Live.shortName Live.longName Live.description Live.present
           Live.fields]. rewrite Hf. by repeat split.
Qed.

(** With such handlers the coercion does not look at the value stored
    before. *)
Lemma live_defaultHandler_forgets (it : nat) (o1 o2 : Live.Opt) (isPresent : bool)
    (value : string) (w1 w2 : Live.World Mem) :
  Live.same_but_value o1 o2 ->
  Live.objects w1 !! it = Some o1 ->
  Live.objects w2 !! it = Some o2 ->
  snd (Live.defaultHandler hs it isPresent value w2)
  = snd (Live.defaultHandler hs it isPresent value w1)
  /\ (snd (Live.defaultHandler hs it isPresent value w1) = Normal tt ->
      exists o',
        fst (Live.defaultHandler hs it isPresent value w1) = Live.store it o' w1
        /\ fst (Live.defaultHandler hs it isPresent value w2) = Live.store it o' w2).
Proof.
  destruct o1 as [s l d p f], o2 as [s' l' d' p' f'].
  unfold Live.same_but_value.
  cbn [Live.shortName Live.longName Live.description Live.present Live.fields].
  intros (-> & -> & -> & -> & Hf) Ho1 Ho2.
  unfold Live.defaultHandler. rewrite Ho1, Ho2. cbn [Live.fields].
  destruct f as [|b h|v h|v h|v h], f' as [|b' h'|v' h'|v' h'|v' h']; try done;
    cbn [Live.same_class] in Hf; try subst h'.
  - split; [done|]. intros _. eexists. cbn [fst].
    split; symmetry; by apply live_store_id.
  - destruct isPresent; cbn [fst snd]; [by split|].
    rewrite !live_invoke_value_only_bool. cbn [fst snd]. split; [done|].
    intros _. by eexists.
  - destruct isPresent; cbn [negb fst snd]; [|by split].
    destruct (Std.stoll value) as [z|[]]; cbn [fst snd IntOpt_catch]; try by split.
    unfold Live.try_catch. rewrite !live_invoke_value_only_int. cbn [fst snd].
    split; [done|]. intros _. by eexists.
  - destruct (negb isPresent || negb (isUint value)); cbn [fst snd]; [by split|].
    destruct (Std.stoull value) as [z|[]]; cbn [fst snd UintOpt_catch]; try by split.
    unfold Live.try_catch. rewrite !live_invoke_value_only_uint. cbn [fst snd].
    split; [done|]. intros _. by eexists.
  - destruct isPresent; cbn [negb fst snd]; [|by split].
    rewrite !live_invoke_value_only_str. cbn [fst snd]. split; [done|].
    intros _. by eexists.
Qed.

End LiveRepeated.

(** A handler that keeps a count of its calls ends differently the second
    time: after "--js=4", "--js=7" fails, though alone it returns. *)
Example stateful_handler_second_call :
  snd (Live.parse_long LiveTests.counting "js" true "7"
         (fst (Live.parse_long LiveTests.counting "js" true "4"
                 LiveTests.counted_world)))
  = Throw (ParseException "Parsing of js failed: called twice")
  /\ snd (Live.parse_long LiveTests.counting "js" true "7" LiveTests.counted_world)
     = Normal tt.
Proof. split; vm_compute; reflexivity. Qed.

(** X16. An option given twice, when the user handlers write nothing and end
    as a function of the value they are given: the second resolution of a
    long name ends as it would have without the first, and when it returns
    the memory is the one the second resolution alone gives, so that the last
    value wins. *)
Theorem last_value_wins_value_only (Mem : Type) (hs : Live.Handlers Mem)
    (fb : nat -> bool -> outcome unit) (fi fu : nat -> Z -> outcome unit)
    (fs : nat -> string -> outcome unit)
    (w : Live.World Mem) (key : string) (it : nat) (o : Live.Opt)
    (isValPresent1 : bool) (value1 : string) (isValPresent2 : bool) (value2 : string) :
  Live.value_only hs fb fi fu fs ->
  Live.findArgByLongName key w = Some it ->
  Live.objects w !! it = Some o ->
  snd (Live.parse_long hs key isValPresent2 value2
         (fst (Live.parse_long hs key isValPresent1 value1 w)))
  = snd (Live.parse_long hs key isValPresent2 value2 w)
  /\ (snd (Live.parse_long hs key isValPresent2 value2 w) = Normal tt ->
      Live.parse_long hs key isValPresent2 value2
        (fst (Live.parse_long hs key isValPresent1 value1 w))
      = Live.parse_long hs key isValPresent2 value2 w).
Proof.
  intros Hhs Hfind Ho.
  destruct (live_defaultHandler_writes_value hs fb fi fu fs Hhs it (Live.mark o)
              isValPresent1 value1 (Live.store it (Live.mark o) w))
    as (o1 & Hsame & Hw1).
  { by apply (live_store_lookup it o). }
  rewrite live_store_store in Hw1.
  assert (Hfst : fst (Live.parse_long hs key isValPresent1 value1 w)
                 = Live.store it o1 w).
  { by rewrite (live_parse_long_found hs _ _ _ _ it o). }
  rewrite Hfst.
  assert (Ho1 : Live.objects (Live.store it o1 w) !! it = Some o1).
  { by apply (live_store_lookup it o). }
  assert (Hfind1 : Live.findArgByLongName key (Live.store it o1 w) = Some it).
  { rewrite <- Hfind. unfold Live.findArgByLongName.
    cbn [Live.store Live.objects Live.self]. apply live_find_if_ext. intros r _.
    destruct (decide (r = it)) as [->|Hne].
    - rewrite list_lookup_insert_eq by (by eapply lookup_lt_Some).
      rewrite Ho. cbn [option_map].
      destruct Hsame as (_ & Hl & _). by rewrite Hl.
    - by rewrite list_lookup_insert_ne. }
  rewrite (live_parse_long_found hs _ _ _ _ it o1 Hfind1 Ho1).
  rewrite (live_parse_long_found hs _ _ _ _ it o Hfind Ho).
  rewrite live_store_store. cbn [fst snd].
  assert (Hmarks : Live.same_but_value (Live.mark o) (Live.mark o1)).
  { destruct Hsame as (Hs & Hl & Hd & Hp & Hf). unfold Live.same_but_value.
    cbn [Live.mark Live.shortName Live.longName Live.description Live.present
           Live.fields] in *.
    by repeat split. }
  destruct (live_defaultHandler_forgets hs fb fi fu fs Hhs it (Live.mark o)
              (Live.mark o1) isValPresent2 value2
              (Live.store it (Live.mark o) w) (Live.store it (Live.mark o1) w) Hmarks)
    as [Hsnd Hfst2].
  { by apply (live_store_lookup it o). }
  { by apply (live_store_lookup it o). }
  rewrite Hsnd. split; [done|]. intros Hok.
  destruct (snd (Live.defaultHandler hs it isValPresent2 value2
                   (Live.store it (Live.mark o) w))) as [[]|e] eqn:Hr.
  - destruct (Hfst2 eq_refl) as (o' & -> & ->). by rewrite !live_store_store.
  - by destruct e.
Qed.

Lemma last_value_wins_value_only_witness :
  Live.parse_long LiveTests.checking "js" true "7"
    (fst (Live.parse_long LiveTests.checking "js" true "2000" LiveTests.world))
  = Live.parse_long LiveTests.checking "js" true "7" LiveTests.world.
Proof.
  destruct (last_value_wins_value_only unit LiveTests.checking
              (fun _ _ => Normal tt) (fun _ => LiveTests.customChecker)
              (fun _ _ => Normal tt) (fun _ _ => Normal tt)
              LiveTests.world "js" 1%nat LiveTests.js true "2000" true "7")
    as [_ H]; [by repeat split|reflexivity..|].
  apply H. reflexivity.
Defined.

(** ** The exceptions that leave [parse] *)

Lemma IntOpt_catch_only (r : outcome unit) :
  only_ParseException r \/ (exists m, r = Throw (std_out_of_range m))
  \/ (exists m, r = Throw (std_invalid_argument m)) ->
  only_ParseException (IntOpt_catch r).
Proof. intros [H|[[m ->]|[m ->]]]; [|done..]. by destruct r as [|[]]. Qed.

Lemma UintOpt_catch_only (r : outcome unit) :
  only_ParseException r \/ (exists m, r = Throw (std_out_of_range m))
  \/ (exists m, r = Throw (std_invalid_argument m)) ->
  only_ParseException (UintOpt_catch r).
Proof. intros [H|[[m ->]|[m ->]]]; [|done..]. by destruct r as [|[]]. Qed.

Lemma defaultHandler_contained (o : Opt) (isValPresent : bool) (value : string) :
  tame_fields (fields o) ->
  tame_fields (fields (fst (defaultHandler o isValPresent value)))
  /\ only_ParseException (snd (defaultHandler o isValPresent value)).
Proof.
  intros Ht. unfold defaultHandler.
  destruct (fields o) as [|b h|v h|v h|v h] eqn:Hf; cbn [tame_fields] in Ht.
  - cbn [fst snd]. rewrite Hf. by split.
  - destruct isValPresent; cbn [fst snd set_fields fields]; rewrite ?Hf;
      split; try done; apply Ht.
  - destruct isValPresent; cbn [negb fst snd]; [|rewrite Hf; by split].
    destruct (Std.stoll value) as [z|e] eqn:Hst; cbn [fst snd set_fields fields];
      rewrite ?Hf; (split; [done|]); apply IntOpt_catch_only.
    + left. apply Ht.
    + right. destruct (stoll_throws _ _ Hst) as [-> | ->]; eauto.
  - destruct (negb isValPresent || negb (isUint value)); cbn [fst snd];
      [rewrite Hf; by split|].
    destruct (Std.stoull value) as [z|e] eqn:Hst; cbn [fst snd set_fields fields];
      rewrite ?Hf; (split; [done|]); apply UintOpt_catch_only.
    + left. apply Ht.
    + right. destruct (stoull_throws _ _ Hst) as [-> | ->]; eauto.
  - destruct isValPresent; cbn [negb fst snd set_fields fields]; rewrite ?Hf;
      split; try done; apply Ht.
Qed.

Lemma wrap_failure_only (name : string) (r : outcome unit) :
  only_ParseException r -> only_ParseException (wrap_failure name r).
Proof. by destruct r as [|[]]. Qed.

Lemma resolved_contained (w : World) (it : nat) (o : Opt) (name : string)
    (isValPresent : bool) (value : string) :
  tame_world w ->
  objects w !! it = Some o ->
  tame_world (mkWorld (<[it := fst (defaultHandler (setPresent o) isValPresent value)]>
                         (objects w)) (self w))
  /\ only_ParseException
       (wrap_failure name (snd (defaultHandler (setPresent o) isValPresent value))).
Proof.
  intros Hw Ho.
  assert (Ht : tame_fields (fields (setPresent o)))
    by exact (Forall_lookup_1 _ _ _ _ Hw Ho).
  destruct (defaultHandler_contained (setPresent o) isValPresent value Ht) as [H1 H2].
  split; [|by apply wrap_failure_only].
  unfold tame_world. cbn [objects]. by apply Forall_insert.
Qed.

Lemma parse_long_contained (key : string) (isValPresent : bool) (value : string) :
  contained (parse_long key isValPresent value).
Proof.
  intros w Hw. destruct (findArgByLongName key w) as [it|] eqn:Hfind.
  - destruct (findArgByLongName_Some _ _ _ Hfind) as (o & Ho & _).
    rewrite (parse_long_found _ _ _ _ it o) by done. by apply resolved_contained.
  - by rewrite parse_long_unknown.
Qed.

Lemma parse_short_contained (key : ascii) (isValPresent : bool) (value : string) :
  contained (parse_short key isValPresent value).
Proof.
  intros w Hw. destruct (findArgByShortName key w) as [it|] eqn:Hfind.
  - destruct (findArgByShortName_Some _ _ _ Hfind) as (o & Ho & _).
    rewrite (parse_short_found _ _ _ _ it o) by done. by apply resolved_contained.
  - by rewrite parse_short_unknown.
Qed.

Lemma bind_contained (m : M unit) (k : unit -> M unit) :
  contained m -> (forall a, contained (k a)) -> contained (bind m k).
Proof.
  intros Hm Hk w Hw. unfold bind. destruct (Hm w Hw) as [H1 H2].
  destruct (m w) as [w' [a|e]]; cbn [fst snd] in *; [by apply Hk|done].
Qed.

Lemma ret_contained : contained (ret tt).
Proof. by intros w Hw. Qed.

Lemma for_each_contained (str : string) (body : ascii -> M unit) :
  (forall c, contained (body c)) -> contained (for_each str body).
Proof.
  intros Hbody. induction str as [|c str IH]; cbn [for_each];
    [apply ret_contained|]. by apply bind_contained.
Qed.

Lemma for_range_contained (count from : nat) (body : nat -> M unit) :
  (forall i, contained (body i)) -> contained (for_range count from body).
Proof.
  intros Hbody. revert from. induction count as [|count IH]; intros from;
    cbn [for_range]; [apply ret_contained|]. by apply bind_contained.
Qed.

Lemma parseShortName_contained (token : string) : contained (parseShortName token).
Proof.
  unfold parseShortName. destruct (Std.find "=" token) as [idx|].
  - apply for_range_contained. intros i.
    destruct (negb _); apply parse_short_contained.
  - apply for_each_contained. intros c. apply parse_short_contained.
Qed.

Lemma parseLongName_contained (token : string) : contained (parseLongName token).
Proof.
  unfold parseLongName. destruct (Std.find "=" token) as [idx|];
    apply parse_long_contained.
Qed.

Lemma parseProgramName_contained (name : string) : contained (parseProgramName name).
Proof. intros w Hw. unfold parseProgramName. by destruct (negb _). Qed.

Lemma scan_contained (tokens : list string) : contained (scan tokens).
Proof.
  induction tokens as [|current rest IH]; cbn [scan]; [apply ret_contained|].
  destruct (String.length current <? 2)%nat.
  { apply bind_contained; [apply parseProgramName_contained|done]. }
  destruct (String.eqb current "--").
  { intros w Hw. by destruct (String.eqb (programName (self w)) ""). }
  destruct (Ascii.eqb (Std.at_ current 0) "-").
  - apply bind_contained; [|done].
    destruct (Ascii.eqb (Std.at_ current 1) "-");
      [apply parseLongName_contained|apply parseShortName_contained].
  - apply bind_contained; [apply parseProgramName_contained|done].
Qed.

(** X17. When no callback throws anything but a [ParseException] (none at
    all, in particular), a parse run returns or throws a [ParseException]:
    the exceptions of the library conversions never leave [parse]. *)
Theorem parse_throws_only_ParseException (argc : Z) (argv : list string) (w : World) :
  tame_world w ->
  (snd (parse argc argv w) = Normal tt
   \/ exists msg, snd (parse argc argv w) = Throw (ParseException msg))
  /\ tame_world (fst (parse argc argv w)).
Proof.
  intros Hw.
  destruct (scan_contained (drop 1 (take (Z.to_nat argc) argv)) w Hw) as [H1 H2].
  fold (parse argc argv) in H1, H2. split; [|exact H1].
  destruct (snd (parse argc argv w)) as [[]|[msg| | |]]; try done; eauto.
Qed.

Lemma parse_throws_only_ParseException_witness :
  snd (parse 3 ["zeta"; "--js=99999999999999999999"; "-i"] Tests.world_checked)
  = Normal tt
  \/ exists msg,
      snd (parse 3 ["zeta"; "--js=99999999999999999999"; "-i"] Tests.world_checked)
      = Throw (ParseException msg).
Proof.
  apply parse_throws_only_ParseException.
  unfold tame_world. cbn [objects Tests.world_checked].
  repeat constructor; try (intros v; exact I).
  intros v. cbn [invoke Tests.customChecker]. by destruct (1000 <? v).
Defined.

(** ** How tokens compose *)

(** X18. When the first tokens hold no "--", parsing the concatenation of
    two token lists is parsing the first list and then, if that returned,
    the second one from the world it left. *)
Theorem parse_app (argv0 : string) (pre post : list string) (w : World) :
  ~ In "--" pre ->
  parse (Z.of_nat (length (argv0 :: pre ++ post))) (argv0 :: pre ++ post) w
  = bind (parse (Z.of_nat (length (argv0 :: pre))) (argv0 :: pre))
         (fun _ => parse (Z.of_nat (length (argv0 :: post))) (argv0 :: post)) w.
Proof.
  intros Hpre. rewrite parse_all, scan_app by done.
  unfold bind. rewrite parse_all.
  destruct (scan pre w) as [w' [[]|e]]; [|done]. by rewrite parse_all.
Qed.

Lemma parse_app_witness :
  parse 4 ["zeta"; "-i"; "--js=3"; "--ls=v"] Tests.world5
  = parse 2 ["zeta"; "--ls=v"] (fst (parse 3 ["zeta"; "-i"; "--js=3"] Tests.world5)).
Proof.
  etransitivity.
  - apply (parse_app "zeta" ["-i"; "--js=3"] ["--ls=v"] Tests.world5).
    cbn. intros [[=]|[[=]|[]]].
  - reflexivity.
Defined.

Lemma find_None_cons (c a : ascii) (s : string) :
  Std.find c (String a s) = None -> a <> c /\ Std.find c s = None.
Proof.
  cbn [Std.find]. destruct (Ascii.eqb_spec a c); [done|].
  by destruct (Std.find c s).
Qed.

Lemma find_None_In (c : ascii) (s : string) :
  Std.find c s = None -> ~ In c (list_ascii_of_string s).
Proof.
  induction s as [|a s IH]; cbn [list_ascii_of_string In]; [tauto|].
  intros H. destruct (find_None_cons _ _ _ H) as [Hne Hs].
  intros [->|Hin]; [done|]. by apply IH.
Qed.

(** One token per flag. *)
Lemma scan_separate_flags (names : string) (w : World) :
  Std.find "=" names = None ->
  Std.find "-" names = None ->
  scan (map (fun x => String "-" (String x "")) (list_ascii_of_string names)) w
  = resolve_each (flags (list_ascii_of_string names)) w.
Proof.
  revert w. induction names as [|c names IH]; intros w Heq Hdash; [done|].
  destruct (find_None_cons _ _ _ Heq) as [Hc_eq Heq'].
  destruct (find_None_cons _ _ _ Hdash) as [Hc_dash Hdash'].
  cbn [list_ascii_of_string map flags resolve_each resolve].
  rewrite scan_cons.
  2:{ intros [= ->]. done. }
  apply Ascii.eqb_neq in Hc_eq.
  unfold bind at 1. rewrite scan_short_token by done.
  unfold parseShortName. cbn [Std.find]. rewrite Hc_eq.
  cbn [for_each]. rewrite bind_ret_r. unfold bind.
  destruct (parse_short c false "" w) as [w' [[]|e]]; [|done].
  by apply IH.
Qed.

Lemma separate_flags_no_terminator (names : string) :
  Std.find "-" names = None ->
  ~ In "--" (map (fun x => String "-" (String x "")) (list_ascii_of_string names)).
Proof.
  intros Hdash Hin. apply in_map_iff in Hin as (x & [= ->] & Hin).
  by apply (find_None_In _ _ Hdash).
Qed.

(** X19. A cluster of flags holding neither '=' nor '-' is parsed as its
    characters given one token each, and a cluster whose last name carries a
    value as the flags given one token each followed by the token of the
    last name with its value. *)
Theorem cluster_or_separate_tokens :
  (forall (argv0 : string) (c : ascii) (names : string) (w : World),
      Std.find "=" (String c names) = None ->
      Std.find "-" (String c names) = None ->
      parse 2 [argv0; String "-" (String c names)] w
      = parse (Z.of_nat (length (argv0 :: map (fun x => String "-" (String x ""))
                                               (c :: list_ascii_of_string names))))
              (argv0 :: map (fun x => String "-" (String x ""))
                            (c :: list_ascii_of_string names)) w)
  /\ (forall (argv0 : string) (c : ascii) (names : string) (last : ascii)
             (value : string) (w : World),
         Std.find "=" (String c names) = None ->
         Std.find "-" (String c names) = None ->
         last <> "="%char -> last <> "-"%char ->
         parse 2 [argv0; String "-" (String c names ++ String last (String "=" value))] w
         = parse (Z.of_nat (length (argv0 :: map (fun x => String "-" (String x ""))
                                                  (c :: list_ascii_of_string names)
                                      ++ [String "-" (String last (String "=" value))])))
                 (argv0 :: map (fun x => String "-" (String x ""))
                               (c :: list_ascii_of_string names)
                    ++ [String "-" (String last (String "=" value))]) w).
Proof.
  split.
  - intros argv0 c names w Heq Hdash.
    destruct (find_None_cons _ _ _ Hdash) as [Hc _].
    rewrite parse_one, parse_all, scan_short_token by done.
    rewrite parseShortName_flags by done.
    by rewrite (scan_separate_flags (String c names)).
  - intros argv0 c names last value w Heq Hdash Hl_eq Hl_dash.
    destruct (find_None_cons _ _ _ Hdash) as [Hc _].
    rewrite parse_one, parse_all. rewrite append_cons.
    rewrite scan_short_token by done. rewrite <- append_cons.
    change (String last (String "=" value))
      with (String last "" ++ String "=" value)%string.
    rewrite <- append_assoc.
    assert (Hlast : Std.find "=" (String last "") = None).
    { cbn [Std.find]. apply Ascii.eqb_neq in Hl_eq. by rewrite Hl_eq. }
    rewrite parseShortName_value by (by apply find_append_None).
    rewrite list_ascii_of_string_append.
    change (list_ascii_of_string (String last "")) with [last].
    rewrite flags_then_value_app, resolve_each_app.
    rewrite scan_app
      by (apply (separate_flags_no_terminator (String c names)); done).
    change (c :: list_ascii_of_string names)
      with (list_ascii_of_string (String c names)).
    rewrite (bind_cong_l _ _ _ _ (scan_separate_flags (String c names) w Heq Hdash)).
    apply bind_ext. intros _ w'.
    change (String last "" ++ String "=" value)%string
      with (String last (String "=" value)).
    rewrite scan_short_token by done.
    exact (eq_sym (parseShortName_value (String last "") value w' Hlast)).
Qed.

Lemma cluster_or_separate_tokens_witness :
  parse 2 ["zeta"; "-il"] Tests.world5 = parse 3 ["zeta"; "-i"; "-l"] Tests.world5
  /\ parse 2 ["zeta"; "-ij=9"] Tests.world5
     = parse 3 ["zeta"; "-i"; "-j=9"] Tests.world5.
Proof.
  destruct cluster_or_separate_tokens as [Hflags Hvalue].
  split.
  - apply (Hflags "zeta" "i"%char "l"); reflexivity.
  - apply (Hvalue "zeta" "i"%char "" "j"%char "9"); try reflexivity; discriminate.
Defined.

(** ** The two embeddings agree on handlers that only look at the value *)

Section Simulation.

Context {Mem : Type} (hs : Live.Handlers Mem).
Variable fb : nat -> bool -> outcome unit.
Variables fi fu : nat -> Z -> outcome unit.
Variable fs : nat -> string -> outcome unit.
Hypothesis Hvalue_only : Live.value_only hs fb fi fu fs.

Lemma sim_ret {A : Type} (a : A) :
  simulates fb fi fu fs (Live.ret (Mem := Mem) a) (ret a).
Proof. by intros w. Qed.

Lemma sim_throw {A : Type} (e : exn) :
  simulates fb fi fu fs (Live.throw (Mem := Mem) (A := A) e) (throw e).
Proof. by intros w. Qed.

Lemma sim_bind {A B : Type} (m : Live.M Mem A) (m' : M A) (k : A -> Live.M Mem B)
    (k' : A -> M B) :
  simulates fb fi fu fs m m' ->
  (forall a, simulates fb fi fu fs (k a) (k' a)) ->
  simulates fb fi fu fs (Live.bind m k) (bind m' k').
Proof.
  intros Hm Hk w. unfold bind, Live.bind. rewrite Hm.
  destruct (m w) as [w' [a|e]]; cbn [fst snd]; [apply Hk|done].
Qed.

Lemma sim_try_catch_ParseException {A : Type} (body : Live.M Mem A) (body' : M A)
    (handler : string -> Live.M Mem A) (handler' : string -> M A) :
  simulates fb fi fu fs body body' ->
  (forall msg, simulates fb fi fu fs (handler msg) (handler' msg)) ->
  simulates fb fi fu fs (Live.try_catch_ParseException body handler)
      (try_catch_ParseException body' handler').
Proof.
  intros Hb Hh w. unfold try_catch_ParseException, Live.try_catch_ParseException.
  rewrite Hb. destruct (body w) as [w' [a|[msg|msg|msg|msg]]]; cbn [fst snd];
    solve [done | apply Hh].
Qed.

Lemma erased_lookup (w : Live.World Mem) (it : nat) :
  objects (erase_world fb fi fu fs w) !! it
  = erase fb fi fu fs <$> Live.objects w !! it.
Proof. cbn [erase_world objects]. apply list_lookup_fmap. Qed.

Lemma erased_store (w : Live.World Mem) (it : nat) (o : Live.Opt) :
  erase_world fb fi fu fs (Live.store it o w)
  = mkWorld (<[it := erase fb fi fu fs o]> (objects (erase_world fb fi fu fs w)))
      (self (erase_world fb fi fu fs w)).
Proof.
  unfold erase_world, Live.store. cbn [Live.objects Live.self objects self].
  by rewrite list_fmap_insert.
Qed.

Lemma erased_unchanged (w : Live.World Mem) (it : nat) (o : Live.Opt) :
  Live.objects w !! it = Some o ->
  mkWorld (<[it := erase fb fi fu fs o]> (objects (erase_world fb fi fu fs w)))
    (self (erase_world fb fi fu fs w))
  = erase_world fb fi fu fs w.
Proof.
  intros Ho. rewrite list_insert_id; [done|]. by rewrite erased_lookup, Ho.
Qed.

Lemma sim_setPresent (it : nat) :
  simulates fb fi fu fs (Live.setPresent (Mem := Mem) it)
    (call it (fun o => (setPresent o, Normal tt)) tt).
Proof.
  intros w. unfold call, Live.setPresent. rewrite erased_lookup.
  destruct (Live.objects w !! it) as [o|]; cbn [fmap option_fmap option_map fst snd];
    [|done].
  by rewrite erased_store.
Qed.

Lemma sim_invoke {A : Type} (code : nat -> A -> Live.M Mem unit)
    (f : nat -> A -> outcome unit) (h : option nat) (v : A) (w : Live.World Mem) :
  (forall n v w, code n v w = (w, f n v)) ->
  Live.invoke code h v w = (w, invoke (option_map f h) v).
Proof. intros Hcode. destruct h as [n|]; [apply Hcode|done]. Qed.

Lemma sim_defaultHandler (it : nat) (isPresent : bool) (value : string) :
  simulates fb fi fu fs (Live.defaultHandler hs it isPresent value)
      (call it (fun o => defaultHandler o isPresent value) tt).
Proof.
  destruct Hvalue_only as (Hb & Hi & Hu & Hs).
  intros w. unfold call, Live.defaultHandler. rewrite erased_lookup.
  destruct (Live.objects w !! it) as [o|] eqn:Ho;
    cbn [fmap option_fmap option_map fst snd]; [|done].
  unfold defaultHandler. cbn [erase fields].
  fold (erase fb fi fu fs o).
  destruct (Live.fields o) as [|b h|v h|v h|v h] eqn:Hf; cbn [erase_fields].
  - cbn [fst snd]. by rewrite erased_unchanged.
  - destruct isPresent; cbn [fst snd]; [by rewrite erased_unchanged|].
    rewrite (sim_invoke _ fb) by done. cbn [fst snd]. rewrite erased_store.
    unfold erase at 2. cbn [Live.set_fields Live.shortName Live.longName
                              Live.description Live.present Live.fields erase_fields].
    reflexivity.
  - destruct (negb isPresent); cbn [fst snd]; [by rewrite erased_unchanged|].
    destruct (Std.stoll value) as [z|e]; cbn [fst snd];
      [|by rewrite erased_unchanged].
    unfold Live.try_catch. rewrite (sim_invoke _ fi) by done. cbn [fst snd].
    rewrite erased_store. reflexivity.
  - destruct (negb isPresent || negb (isUint value)); cbn [fst snd];
      [by rewrite erased_unchanged|].
    destruct (Std.stoull value) as [z|e]; cbn [fst snd];
      [|by rewrite erased_unchanged].
    unfold Live.try_catch. rewrite (sim_invoke _ fu) by done. cbn [fst snd].
    rewrite erased_store. reflexivity.
  - destruct (negb isPresent); cbn [fst snd]; [by rewrite erased_unchanged|].
    rewrite (sim_invoke _ fs) by done. cbn [fst snd]. rewrite erased_store.
    reflexivity.
Qed.

Lemma sim_find_if (p : Live.Opt -> bool) (p' : Opt -> bool) (w : Live.World Mem)
    (refs : list nat) :
  (forall o, p' (erase fb fi fu fs o) = p o) ->
  find_if p' (objects (erase_world fb fi fu fs w)) refs
  = Live.find_if p (Live.objects w) refs.
Proof.
  intros Hp. induction refs as [|r refs IH]; [done|].
  cbn [find_if Live.find_if]. rewrite erased_lookup, IH.
  destruct (Live.objects w !! r) as [o|]; cbn [fmap option_fmap option_map]; [|done].
  by rewrite Hp.
Qed.

Lemma sim_parse_long (key : string) (isValPresent : bool) (value : string) :
  simulates fb fi fu fs (Live.parse_long hs key isValPresent value)
    (parse_long key isValPresent value).
Proof.
  intros w. unfold parse_long, Live.parse_long.
  unfold findArgByLongName, Live.findArgByLongName.
  rewrite (sim_find_if (fun arg => String.eqb (Live.longName arg) key)) by done.
  change (self (erase_world fb fi fu fs w)) with (Live.self w).
  destruct (Live.find_if _ _ _) as [it|]; [|done].
  revert w. apply sim_try_catch_ParseException; [|intros msg; apply sim_throw].
  apply sim_bind; [apply sim_setPresent|intros _; apply sim_defaultHandler].
Qed.

Lemma sim_parse_short (key : ascii) (isValPresent : bool) (value : string) :
  simulates fb fi fu fs (Live.parse_short hs key isValPresent value)
    (parse_short key isValPresent value).
Proof.
  intros w. unfold parse_short, Live.parse_short.
  unfold findArgByShortName, Live.findArgByShortName.
  rewrite (sim_find_if (fun arg => Ascii.eqb (Live.shortName arg) key)) by done.
  change (self (erase_world fb fi fu fs w)) with (Live.self w).
  destruct (Live.find_if _ _ _) as [it|]; [|done].
  revert w. apply sim_try_catch_ParseException; [|intros msg; apply sim_throw].
  apply sim_bind; [apply sim_setPresent|intros _; apply sim_defaultHandler].
Qed.

Lemma sim_for_each (str : string) (body : ascii -> Live.M Mem unit)
    (body' : ascii -> M unit) :
  (forall c, simulates fb fi fu fs (body c) (body' c)) ->
  simulates fb fi fu fs (Live.for_each str body) (for_each str body').
Proof.
  intros Hbody. induction str as [|c str IH]; cbn [for_each Live.for_each];
    [apply sim_ret|].
  apply sim_bind; [apply Hbody|intros _; apply IH].
Qed.

Lemma sim_for_range (count from : nat) (body : nat -> Live.M Mem unit)
    (body' : nat -> M unit) :
  (forall i, simulates fb fi fu fs (body i) (body' i)) ->
  simulates fb fi fu fs (Live.for_range count from body) (for_range count from body').
Proof.
  intros Hbody. revert from.
  induction count as [|count IH]; intros from; cbn [for_range Live.for_range];
    [apply sim_ret|].
  apply sim_bind; [apply Hbody|intros _; apply IH].
Qed.

Lemma sim_parseShortName (token : string) :
  simulates fb fi fu fs (Live.parseShortName hs token) (parseShortName token).
Proof.
  unfold parseShortName, Live.parseShortName.
  destruct (Std.find "=" token) as [idx|].
  - apply sim_for_range. intros i. destruct (negb _); apply sim_parse_short.
  - apply sim_for_each. intros c. apply sim_parse_short.
Qed.

Lemma sim_parseLongName (token : string) :
  simulates fb fi fu fs (Live.parseLongName hs token) (parseLongName token).
Proof.
  unfold parseLongName, Live.parseLongName.
  destruct (Std.find "=" token) as [idx|]; apply sim_parse_long.
Qed.

Lemma sim_parseProgramName (name : string) :
  simulates fb fi fu fs (Live.parseProgramName (Mem := Mem) name) (parseProgramName name).
Proof.
  intros w. unfold parseProgramName, Live.parseProgramName.
  change (self (erase_world fb fi fu fs w)) with (Live.self w).
  by destruct (negb _).
Qed.

Lemma sim_scan (tokens : list string) :
  simulates fb fi fu fs (Live.scan hs tokens) (scan tokens).
Proof.
  induction tokens as [|current rest IH]; cbn [scan Live.scan]; [apply sim_ret|].
  destruct (String.length current <? 2)%nat.
  { apply sim_bind; [apply sim_parseProgramName|intros _; apply IH]. }
  destruct (String.eqb current "--").
  { intros w. change (self (erase_world fb fi fu fs w)) with (Live.self w).
    by destruct (String.eqb (programName (Live.self w)) ""). }
  destruct (Ascii.eqb (Std.at_ current 0) "-").
  - apply sim_bind; [|intros _; apply IH].
    destruct (Ascii.eqb (Std.at_ current 1) "-");
      [apply sim_parseLongName|apply sim_parseShortName].
  - apply sim_bind; [apply sim_parseProgramName|intros _; apply IH].
Qed.

End Simulation.

(** X20. When the user handlers write nothing and end as a function of the
    value they are given, the embedding in which a handler is such a function
    and the one in which it runs on the memory agree on every parse run: run
    on the erased memory, the first ends as the second does and leaves the
    erased memory the second leaves. *)
Theorem parse_agrees_on_value_only_handlers (Mem : Type) (hs : Live.Handlers Mem)
    (fb : nat -> bool -> outcome unit) (fi fu : nat -> Z -> outcome unit)
    (fs : nat -> string -> outcome unit) (argc : Z) (argv : list string)
    (w : Live.World Mem) :
  Live.value_only hs fb fi fu fs ->
  parse argc argv (erase_world fb fi fu fs w)
  = (erase_world fb fi fu fs (fst (Live.parse hs argc argv w)),
     snd (Live.parse hs argc argv w)).
Proof. intros Hhs. unfold parse, Live.parse. by apply sim_scan. Qed.

Lemma parse_agrees_on_value_only_handlers_witness :
  erase_world (fun _ _ => Normal tt) (fun _ => LiveTests.customChecker)
    (fun _ _ => Normal tt) (fun _ _ => Normal tt) LiveTests.world
  = mkWorld [Tests.is_; Tests.js_checked] LiveTests.parser2
  /\ parse 3 ["zeta"; "-i"; "--js=2000"]
       (mkWorld [Tests.is_; Tests.js_checked] LiveTests.parser2)
     = (erase_world (fun _ _ => Normal tt) (fun _ => LiveTests.customChecker)
          (fun _ _ => Normal tt) (fun _ _ => Normal tt)
          (fst (Live.parse LiveTests.checking 3 ["zeta"; "-i"; "--js=2000"]
                  LiveTests.world)),
        Throw (ParseException "Parsing of js failed: Value is more that 1000")).
Proof.
  split; [reflexivity|].
  apply (parse_agrees_on_value_only_handlers unit LiveTests.checking
           (fun _ _ => Normal tt) (fun _ => LiveTests.customChecker)
           (fun _ _ => Normal tt) (fun _ _ => Normal tt)
           3 ["zeta"; "-i"; "--js=2000"] LiveTests.world).
  by repeat split.
Defined.
